(** * HiGHS: sorting utilities, the first-feasibility routine and the
      LP data utilities

    A shallow embedding of util/HighsSort.cpp, of the feasibility
    routine (FindFeasibility.cpp), of the [LpAction] / [HighsSimplexLpStatus]
    declarations and of [HighsLp::operator==] of lp_data/HighsLp.h and of
    the name and bound utilities of lp_data/HighsModelUtils.cpp, with
    the properties the specification states about them and further
    properties of the code.

    Conventions.
    - A C++ [int] is a [Z] in the range [INT_MIN .. INT_MAX]; arithmetic
      on it goes through [CInt.wrap].
    - A C++ [double] is a binary64 [float]; the comparisons are the IEEE
      ones ([x > y] is [PrimFloat.ltb y x], [x != y] is
      [negb (PrimFloat.eqb x y)]), so NaN compares false with everything.
    - The 1-based heap arrays ([int* heap_v], [double* heap_v],
      [int* heap_i]) are partial maps from positions to values: touching
      a position that holds no value is a fault.
    - A [std::vector], and the 0-based [set] of [increasing_set_ok]
      ([None] when null), is a list; indexing out of range is a fault.
    - Loops that the source bounds by a counter run that many times; the
      [while] loop of [max_heapify] takes a budget and [OutOfFuel] is the
      outcome of a run that exceeds it.
    - A [std::string] is a [string]; [find] and [substr] are
      [String.index] and [String.substring], [std::to_string] of an
      [int] is its decimal numeral.
    - Messages (HighsPrintMessage, HighsLogMessage, printf) change no
      value and are left out, except where computing their arguments can
      fault. *)

From Stdlib Require Import ZArith Lia List Floats Sorted Permutation.
From Stdlib Require DecimalString DecimalZ DecimalPos.
From stdpp Require Import base option list gmap strings.

Local Open Scope Z_scope.

(** ** Outcomes of a run *)

Module Exec.

(** Why a run produced no value: it touched memory that holds no value,
    it asked for a vector of negative size, or the loop budget of the
    model ran out. *)
Inductive error : Type :=
| OutOfBounds
| LengthError
| OutOfFuel.

Inductive result (A : Type) : Type :=
| Ok (a : A)
| Err (e : error).

Arguments Ok {A} a.
Arguments Err {A} e.

Definition is_ok {A : Type} (r : result A) : bool :=
  match r with
  | Ok _ => true
  | Err _ => false
  end.

End Exec.

Import Exec.

(** [result] is an error monad; stdpp's notation [x ← c; k] sequences it. *)
#[export] Instance result_ret : MRet result := fun A a => Ok a.
#[export] Instance result_bind : MBind result := fun A B f r =>
  match r with
  | Ok a => f a
  | Err e => Err e
  end.

(** ** The C++ [int] *)

Module CInt.

Definition INT_MAX : Z := 2147483647.
Definition INT_MIN : Z := -2147483648.

Definition in_range (z : Z) : Prop := INT_MIN <= z <= INT_MAX.

(** Two's complement reduction of a mathematical result to 32 bits. *)
Definition wrap (z : Z) : Z := (z + 2147483648) mod 4294967296 - 2147483648.

Lemma wrap_id z : in_range z -> wrap z = z.
Proof.
  unfold in_range, wrap, INT_MIN, INT_MAX. intros H.
  rewrite Z.mod_small by lia. lia.
Qed.

Lemma wrap_in_range z : in_range (wrap z).
Proof.
  unfold in_range, wrap, INT_MIN, INT_MAX.
  pose proof (Z.mod_pos_bound (z + 2147483648) 4294967296). lia.
Qed.

End CInt.

(** ** The C++ [double] *)

Module Double.

(** The relational operators of C++ on doubles. *)
Definition lt (x y : float) : bool := PrimFloat.ltb x y.
Definition le (x y : float) : bool := PrimFloat.leb x y.
Definition gt (x y : float) : bool := PrimFloat.ltb y x.
Definition ge (x y : float) : bool := PrimFloat.leb y x.
Definition ne (x y : float) : bool := negb (PrimFloat.eqb x y).

(** The position of a number on the extended real line, as a triple
    compared lexicographically: class (-2 for -inf, -1 for negative, 0 for
    a zero, 1 for positive, 2 for +inf), then exponent, then mantissa. The
    two zeros share a position. *)
Definition key (s : spec_float) : Z * Z * Z :=
  match s with
  | S754_zero _ => (0, 0, 0)
  | S754_infinity true => (-2, 0, 0)
  | S754_infinity false => (2, 0, 0)
  | S754_nan => (0, 0, 0)
  | S754_finite true m e => (-1, - e, - Z.pos m)
  | S754_finite false m e => (1, e, Z.pos m)
  end.

Definition key_lt (a b : Z * Z * Z) : Prop :=
  let '(a1, a2, a3) := a in
  let '(b1, b2, b3) := b in
  a1 < b1 \/ (a1 = b1 /\ (a2 < b2 \/ (a2 = b2 /\ a3 < b3))).

Definition key_le (a b : Z * Z * Z) : Prop :=
  let '(a1, a2, a3) := a in
  let '(b1, b2, b3) := b in
  a1 < b1 \/ (a1 = b1 /\ (a2 < b2 \/ (a2 = b2 /\ a3 <= b3))).

Definition pos_of (x : float) : Z * Z * Z := key (Prim2SF x).

Lemma is_nan_spec x : is_nan x = true <-> Prim2SF x = S754_nan.
Proof.
  unfold is_nan. rewrite FloatAxioms.eqb_spec. unfold SFeqb.
  destruct (Prim2SF x) as [s|s| |s m e]; simpl.
  - split; intros; discriminate.
  - destruct s; simpl; split; intros; discriminate.
  - split; reflexivity.
  - rewrite Z.compare_refl, Pos.compare_cont_refl.
    destruct s; simpl; split; intros; discriminate.
Qed.

Lemma not_nan_spec x : is_nan x = false <-> Prim2SF x <> S754_nan.
Proof.
  rewrite <- is_nan_spec. destruct (is_nan x); split; intros; congruence.
Qed.

Ltac cmp_cases :=
  repeat match goal with
  | |- context [Z.compare ?a ?b] => destruct (Z.compare_spec a b)
  | |- context [Pos.compare_cont Eq ?a ?b] =>
      change (Pos.compare_cont Eq a b) with (Pos.compare a b);
      destruct (Pos.compare_spec a b)
  end.

Lemma SFltb_key s t :
  s <> S754_nan -> t <> S754_nan ->
  (SFltb s t = true <-> key_lt (key s) (key t)).
Proof.
  intros Hs Ht. unfold SFltb.
  destruct s as [a|a| |a m e], t as [b|b| |b n f]; try congruence;
    try destruct a; try destruct b; simpl; cmp_cases; simpl;
    split; intros; try discriminate; try reflexivity; try lia.
Qed.

Lemma SFleb_key s t :
  s <> S754_nan -> t <> S754_nan ->
  (SFleb s t = true <-> key_le (key s) (key t)).
Proof.
  intros Hs Ht. unfold SFleb.
  destruct s as [a|a| |a m e], t as [b|b| |b n f]; try congruence;
    try destruct a; try destruct b; simpl; cmp_cases; simpl;
    split; intros; try discriminate; try reflexivity; try lia.
Qed.

Lemma SFltb_nan_l t : SFltb S754_nan t = false.
Proof. reflexivity. Qed.

Lemma SFcompare_nan_r s : SFcompare s S754_nan = None.
Proof. destruct s as [a|a| |a m e]; reflexivity. Qed.

(** A comparison that succeeds has two numbers as operands. *)
Lemma lt_true_not_nan x y :
  lt x y = true -> is_nan x = false /\ is_nan y = false.
Proof.
  unfold lt. rewrite FloatAxioms.ltb_spec, !not_nan_spec. unfold SFltb. intros H.
  split; intros E; rewrite E in H.
  - discriminate.
  - rewrite SFcompare_nan_r in H. discriminate.
Qed.

Lemma le_true_not_nan x y :
  le x y = true -> is_nan x = false /\ is_nan y = false.
Proof.
  unfold le. rewrite FloatAxioms.leb_spec, !not_nan_spec. unfold SFleb. intros H.
  split; intros E; rewrite E in H.
  - discriminate.
  - rewrite SFcompare_nan_r in H. discriminate.
Qed.

Lemma lt_pos x y :
  is_nan x = false -> is_nan y = false ->
  (lt x y = true <-> key_lt (pos_of x) (pos_of y)).
Proof.
  intros Hx Hy. unfold lt, pos_of. rewrite FloatAxioms.ltb_spec.
  apply SFltb_key; now apply not_nan_spec.
Qed.

Lemma le_pos x y :
  is_nan x = false -> is_nan y = false ->
  (le x y = true <-> key_le (pos_of x) (pos_of y)).
Proof.
  intros Hx Hy. unfold le, pos_of. rewrite FloatAxioms.leb_spec.
  apply SFleb_key; now apply not_nan_spec.
Qed.

Ltac key_arith :=
  unfold key_lt, key_le in *;
  repeat match goal with
  | p : (Z * Z * Z)%type |- _ => destruct p as [[? ?] ?]
  end; lia.

Lemma key_le_refl a : key_le a a.
Proof. key_arith. Qed.

Lemma key_le_trans a b c : key_le a b -> key_le b c -> key_le a c.
Proof. intros. key_arith. Qed.

Lemma key_le_total a b : key_le a b \/ key_le b a.
Proof. key_arith. Qed.

Lemma key_lt_not_le a b : key_lt a b <-> ~ key_le b a.
Proof. split; intros; key_arith. Qed.

(** On numbers the comparisons form a total preorder. *)
Lemma lt_is_not_le x y :
  is_nan x = false -> is_nan y = false -> lt x y = negb (le y x).
Proof.
  intros Hx Hy.
  pose proof (lt_pos x y Hx Hy) as Hlt.
  pose proof (le_pos y x Hy Hx) as Hle.
  pose proof (key_lt_not_le (pos_of x) (pos_of y)) as Hk.
  destruct (lt x y), (le y x); simpl; try reflexivity; exfalso.
  - apply Hk; [now apply Hlt | now apply Hle].
  - assert (~ key_le (pos_of y) (pos_of x)) as Hn.
    { intros Hc. apply Hle in Hc. discriminate. }
    apply Hk in Hn. apply Hlt in Hn. discriminate.
Qed.

Lemma gt_is_not_le x y :
  is_nan x = false -> is_nan y = false -> gt x y = negb (le x y).
Proof. intros Hx Hy. unfold gt. now apply (lt_is_not_le y x). Qed.

Lemma le_refl x : is_nan x = false -> le x x = true.
Proof. intros Hx. apply le_pos; auto. apply key_le_refl. Qed.

Lemma le_trans x y z :
  le x y = true -> le y z = true -> le x z = true.
Proof.
  intros Hxy Hyz.
  destruct (le_true_not_nan _ _ Hxy) as [Hx Hy].
  destruct (le_true_not_nan _ _ Hyz) as [_ Hz].
  apply le_pos; auto.
  apply (key_le_trans _ (pos_of y)); now apply le_pos.
Qed.

Lemma le_total x y :
  is_nan x = false -> is_nan y = false -> le x y = true \/ le y x = true.
Proof.
  intros Hx Hy.
  destruct (key_le_total (pos_of x) (pos_of y)); [left|right]; now apply le_pos.
Qed.

End Double.

(** ** Indexing a [std::vector] or a 0-based array *)

Module Vec.

(** [v[i]] as an rvalue: a fault outside [0 .. size-1]. *)
Definition vget {A : Type} (v : list A) (i : Z) : result A :=
  if i <? 0 then Err OutOfBounds
  else match v !! Z.to_nat i with
       | Some x => Ok x
       | None => Err OutOfBounds
       end.

(** [v[i] = x]: a fault outside [0 .. size-1]. *)
Definition vset {A : Type} (v : list A) (i : Z) (x : A) : result (list A) :=
  if i <? 0 then Err OutOfBounds
  else if (Z.to_nat i <? length v)%nat then Ok (<[Z.to_nat i := x]> v)
  else Err OutOfBounds.

(** [v.assign(n, x)], and [v.resize(n)] of an empty vector. *)
Definition vassign {A : Type} (n : Z) (x : A) : result (list A) :=
  if n <? 0 then Err LengthError else Ok (replicate (Z.to_nat n) x).

(** [for (int i = lo; i < hi; i++) body], for a body that neither breaks
    nor returns; [steps] is the number of iterations left. *)
Fixpoint for_loop {St : Type} (steps : nat) (i : Z)
    (body : Z -> St -> result St) (s : St) : result St :=
  match steps with
  | O => Ok s
  | S n => s' ← body i s; for_loop n (CInt.wrap (i + 1)) body s'
  end.

Definition for_range {St : Type} (lo hi : Z)
    (body : Z -> St -> result St) (s : St) : result St :=
  for_loop (Z.to_nat (hi - lo)) lo body s.

Lemma vget_ok {A : Type} (v : list A) (i : Z) (x : A) :
  0 <= i -> v !! Z.to_nat i = Some x -> vget v i = Ok x.
Proof.
  intros Hi Hx. unfold vget.
  destruct (Z.ltb_spec i 0); [lia|]. now rewrite Hx.
Qed.

Lemma vget_in_range {A : Type} (v : list A) (i : Z) :
  0 <= i < Z.of_nat (length v) -> exists x, vget v i = Ok x /\ v !! Z.to_nat i = Some x.
Proof.
  intros Hi.
  destruct (lookup_lt_is_Some_2 v (Z.to_nat i)) as [x Hx]; [lia|].
  exists x. split; [apply vget_ok; [lia|done] | done].
Qed.

Lemma vset_ok {A : Type} (v : list A) (i : Z) (x : A) :
  0 <= i < Z.of_nat (length v) -> vset v i x = Ok (<[Z.to_nat i := x]> v).
Proof.
  intros Hi. unfold vset.
  destruct (Z.ltb_spec i 0); [lia|].
  destruct (Nat.ltb_spec (Z.to_nat i) (length v)); [done|lia].
Qed.

Lemma vassign_ok {A : Type} (n : Z) (x : A) :
  0 <= n -> vassign n x = Ok (replicate (Z.to_nat n) x).
Proof. intros Hn. unfold vassign. destruct (Z.ltb_spec n 0); [lia|done]. Qed.

(** A counted loop preserves an invariant that each iteration preserves. *)
Lemma for_loop_inv {St : Type} (P : St -> Prop) (body : Z -> St -> result St)
    (steps : nat) (i : Z) (s : St) :
  0 <= i -> i + Z.of_nat steps <= CInt.INT_MAX ->
  P s ->
  (forall j t, i <= j < i + Z.of_nat steps -> P t ->
     exists t', body j t = Ok t' /\ P t') ->
  exists s', for_loop steps i body s = Ok s' /\ P s'.
Proof.
  revert i s. induction steps as [|n IH]; intros i s Hi Hmax Hs Hbody.
  - exists s. split; [reflexivity|done].
  - destruct (Hbody i s) as (t & Ht & HPt); [lia|done|].
    cbn [for_loop]. rewrite Ht. cbn [mbind result_bind].
    rewrite CInt.wrap_id
      by (unfold CInt.in_range, CInt.INT_MIN, CInt.INT_MAX in *; lia).
    apply IH; [lia|lia|done|].
    intros j t' Hj. apply Hbody. lia.
Qed.

Lemma for_range_inv {St : Type} (P : St -> Prop) (body : Z -> St -> result St)
    (lo hi : Z) (s : St) :
  0 <= lo -> hi <= CInt.INT_MAX ->
  P s ->
  (forall j t, lo <= j < hi -> P t -> exists t', body j t = Ok t' /\ P t') ->
  exists s', for_range lo hi body s = Ok s' /\ P s'.
Proof.
  intros Hlo Hhi Hs Hbody. unfold for_range.
  destruct (Z.le_gt_cases hi lo) as [Hle|Hgt].
  { replace (Z.to_nat (hi - lo)) with 0%nat by lia. exists s. split; [reflexivity|done]. }
  apply for_loop_inv; [lia|lia|done|].
  intros j t Hj. apply Hbody. lia.
Qed.

End Vec.

Import Vec.


(** ** [==] and [!=] on doubles *)

Module DoubleEq.

Lemma SFeqb_key s t :
  s <> S754_nan -> t <> S754_nan ->
  (SFeqb s t = true <-> Double.key s = Double.key t).
Proof.
  intros Hs Ht. unfold SFeqb.
  destruct s as [a|a| |a m e], t as [b|b| |b n f]; try congruence;
    try destruct a; try destruct b; simpl; Double.cmp_cases; simpl;
    split; intros Hkey; try discriminate; try reflexivity;
    try (injection Hkey; intros; lia); try (subst; reflexivity).
Qed.

(** [x == y] holds of no NaN. *)
Lemma eqb_true_not_nan x y :
  PrimFloat.eqb x y = true -> is_nan x = false /\ is_nan y = false.
Proof.
  rewrite FloatAxioms.eqb_spec, !Double.not_nan_spec. unfold SFeqb. intros H.
  split; intros E; rewrite E in H.
  - discriminate.
  - rewrite Double.SFcompare_nan_r in H. discriminate.
Qed.

Lemma eqb_pos x y :
  is_nan x = false -> is_nan y = false ->
  (PrimFloat.eqb x y = true <-> Double.pos_of x = Double.pos_of y).
Proof.
  intros Hx Hy. unfold Double.pos_of. rewrite FloatAxioms.eqb_spec.
  apply SFeqb_key; now apply Double.not_nan_spec.
Qed.

Lemma eqb_refl x : PrimFloat.eqb x x = negb (is_nan x).
Proof. unfold is_nan. now rewrite negb_involutive. Qed.

Lemma eqb_sym x y : PrimFloat.eqb x y = PrimFloat.eqb y x.
Proof.
  destruct (PrimFloat.eqb x y) eqn:Hxy, (PrimFloat.eqb y x) eqn:Hyx; try done.
  - destruct (eqb_true_not_nan _ _ Hxy) as [Hx Hy].
    apply (eqb_pos x y Hx Hy) in Hxy. symmetry in Hxy.
    apply (eqb_pos y x Hy Hx) in Hxy. congruence.
  - destruct (eqb_true_not_nan _ _ Hyx) as [Hy Hx].
    apply (eqb_pos y x Hy Hx) in Hyx. symmetry in Hyx.
    apply (eqb_pos x y Hx Hy) in Hyx. congruence.
Qed.

Lemma eqb_trans x y z :
  PrimFloat.eqb x y = true -> PrimFloat.eqb y z = true ->
  PrimFloat.eqb x z = true.
Proof.
  intros Hxy Hyz.
  destruct (eqb_true_not_nan _ _ Hxy) as [Hx Hy].
  destruct (eqb_true_not_nan _ _ Hyz) as [_ Hz].
  apply (eqb_pos x z Hx Hz).
  apply (eqb_pos x y Hx Hy) in Hxy. apply (eqb_pos y z Hy Hz) in Hyz.
  congruence.
Qed.

(** Equal operands give equal answers. *)
Lemma eqb_cong a a' b b' :
  PrimFloat.eqb a a' = true -> PrimFloat.eqb b b' = true ->
  PrimFloat.eqb a b = PrimFloat.eqb a' b'.
Proof.
  intros Ha Hb.
  destruct (PrimFloat.eqb a b) eqn:Hab, (PrimFloat.eqb a' b') eqn:Hab'; try done.
  - rewrite eqb_sym in Ha.
    pose proof (eqb_trans _ _ _ (eqb_trans _ _ _ Ha Hab) Hb). congruence.
  - rewrite eqb_sym in Hb.
    pose proof (eqb_trans _ _ _ (eqb_trans _ _ _ Ha Hab') Hb). congruence.
Qed.

End DoubleEq.

(** ** [==] on vectors *)

Module VectorEq.

(** [operator==] of [std::vector]: the same size and equal elements,
    with the [==] of the element type. *)
Fixpoint vector_eq {A : Type} (eq : A -> A -> bool) (a b : list A) : bool :=
  match a, b with
  | [], [] => true
  | x :: a', y :: b' => eq x y && vector_eq eq a' b'
  | _, _ => false
  end.

Lemma vector_eq_Forall2 {A : Type} (eq : A -> A -> bool) (a b : list A) :
  vector_eq eq a b = true <-> Forall2 (fun x y => eq x y = true) a b.
Proof.
  revert b. induction a as [|x a IH]; intros [|y b]; cbn; split; intros H;
    try discriminate; try (now inversion H); try (now constructor).
  - apply andb_true_iff in H as [Hxy H]. constructor; [done|now apply IH].
  - inversion H; subst. apply andb_true_iff. split; [done|now apply IH].
Qed.

Lemma vector_eq_eq {A : Type} (eq : A -> A -> bool) (a b : list A) :
  (forall x y, eq x y = true <-> x = y) ->
  (vector_eq eq a b = true <-> a = b).
Proof.
  intros Heq. rewrite vector_eq_Forall2. split.
  - intros H. induction H as [|x y a b Hxy _ IH]; [done|].
    apply Heq in Hxy. congruence.
  - intros <-. apply Forall_Forall2_diag, Forall_forall. intros x _. now apply Heq.
Qed.

Lemma vector_eq_sym (a b : list float) :
  vector_eq PrimFloat.eqb a b = true -> vector_eq PrimFloat.eqb b a = true.
Proof.
  rewrite !vector_eq_Forall2. intros H. apply Forall2_flip.
  eapply Forall2_impl; [exact H|]. intros x y Hxy. cbn.
  now rewrite DoubleEq.eqb_sym.
Qed.

Lemma vector_eq_trans (a b c : list float) :
  vector_eq PrimFloat.eqb a b = true -> vector_eq PrimFloat.eqb b c = true ->
  vector_eq PrimFloat.eqb a c = true.
Proof.
  revert b c. induction a as [|x a IH]; intros [|y b] [|z c]; cbn; try done.
  rewrite !andb_true_iff. intros [Hxy Hab] [Hyz Hbc]. split.
  - now apply (DoubleEq.eqb_trans x y z).
  - now apply (IH b c).
Qed.

Lemma vector_eq_refl (a : list float) :
  vector_eq PrimFloat.eqb a a = true <-> Forall (fun x => is_nan x = false) a.
Proof.
  induction a as [|x a IH]; cbn; [split; [constructor|done]|].
  rewrite andb_true_iff, Forall_cons, IH, DoubleEq.eqb_refl, negb_true_iff.
  reflexivity.
Qed.

(** Equal vectors answer an index alike. *)
Lemma vget_vector_eq (a b : list float) (i : Z) :
  vector_eq PrimFloat.eqb a b = true ->
  match vget a i, vget b i with
  | Ok x, Ok y => PrimFloat.eqb x y = true
  | Err e, Err e' => e = e'
  | _, _ => False
  end.
Proof.
  rewrite vector_eq_Forall2. intros H. unfold vget.
  destruct (i <? 0); [done|].
  destruct (a !! Z.to_nat i) as [x|] eqn:Hx.
  - destruct (Forall2_lookup_l _ _ _ _ _ H Hx) as (y & -> & Hxy). done.
  - apply Forall2_length in H. apply lookup_ge_None in Hx.
    rewrite lookup_ge_None_2 by lia. done.
Qed.

End VectorEq.
(** ** util/HighsSort.cpp *)

Module HighsSort.

(** *** Raw arrays

    [int* heap_v], [double* heap_v] and [int* heap_i] point at memory of
    which only some positions hold values: a partial map from positions
    to values. *)

Definition load {A : Type} (m : gmap Z A) (p : Z) : result A :=
  match m !! p with
  | Some x => Ok x
  | None => Err OutOfBounds
  end.

Definition store {A : Type} (m : gmap Z A) (p : Z) (x : A) : result (gmap Z A) :=
  match m !! p with
  | Some _ => Ok (<[p := x]> m)
  | None => Err OutOfBounds
  end.

(** *** [maxheapsort(double*, int*, int)] and its helpers

    The value-index overload, for a value type [K] with its [>] and
    [<=]; at [K := float] with the IEEE comparisons it is the source.
    [fuel] bounds the number of iterations of the [while] loop of each
    call of [max_heapify]. *)

Section ValueIndex.

Context {K : Type}.
Variable gt : K -> K -> bool.
Variable le : K -> K -> bool.

(** The [while (j <= n)] loop of [max_heapify]; the result is the two
    arrays and [j] on leaving the loop. *)
Fixpoint heapify_while (fuel : nat) (heap_v : gmap Z K) (heap_i : gmap Z Z)
    (temp_v : K) (j n : Z) : result (gmap Z K * gmap Z Z * Z) :=
  if j <=? n then
    match fuel with
    | O => Err OutOfFuel
    | S fuel' =>
        j ← (if j <? n
             then a ← load heap_v (CInt.wrap (j + 1));
                  b ← load heap_v j;
                  mret (if gt a b then CInt.wrap (j + 1) else j)
             else mret j);
        vj ← load heap_v j;
        if gt temp_v vj then Ok (heap_v, heap_i, j)
        else if le temp_v vj then
          heap_v' ← store heap_v (Z.quot j 2) vj;
          ij ← load heap_i j;
          heap_i' ← store heap_i (Z.quot j 2) ij;
          heapify_while fuel' heap_v' heap_i' temp_v (CInt.wrap (2 * j)) n
        else heapify_while fuel' heap_v heap_i temp_v j n
    end
  else Ok (heap_v, heap_i, j).

Definition max_heapify (fuel : nat) (heap_v : gmap Z K) (heap_i : gmap Z Z)
    (i n : Z) : result (gmap Z K * gmap Z Z) :=
  temp_v ← load heap_v i;
  temp_i ← load heap_i i;
  '(heap_v, heap_i, j) ←
    heapify_while fuel heap_v heap_i temp_v (CInt.wrap (2 * i)) n;
  heap_v ← store heap_v (Z.quot j 2) temp_v;
  heap_i ← store heap_i (Z.quot j 2) temp_i;
  mret (heap_v, heap_i).

(** [for (i = n / 2; i >= 1; i--)], [steps] iterations from [i] down. *)
Fixpoint build_maxheap_loop (fuel steps : nat) (heap_v : gmap Z K)
    (heap_i : gmap Z Z) (i n : Z) : result (gmap Z K * gmap Z Z) :=
  match steps with
  | O => Ok (heap_v, heap_i)
  | S steps' =>
      '(heap_v, heap_i) ← max_heapify fuel heap_v heap_i i n;
      build_maxheap_loop fuel steps' heap_v heap_i (CInt.wrap (i - 1)) n
  end.

Definition build_maxheap (fuel : nat) (heap_v : gmap Z K) (heap_i : gmap Z Z)
    (n : Z) : result (gmap Z K * gmap Z Z) :=
  build_maxheap_loop fuel (Z.to_nat (Z.quot n 2)) heap_v heap_i (Z.quot n 2) n.

(** [for (i = n; i >= 2; i--)], [steps] iterations from [i] down. *)
Fixpoint max_heapsort_loop (fuel steps : nat) (heap_v : gmap Z K)
    (heap_i : gmap Z Z) (i : Z) : result (gmap Z K * gmap Z Z) :=
  match steps with
  | O => Ok (heap_v, heap_i)
  | S steps' =>
      temp_v ← load heap_v i;
      v1 ← load heap_v 1;
      heap_v ← store heap_v i v1;
      heap_v ← store heap_v 1 temp_v;
      temp_i ← load heap_i i;
      i1 ← load heap_i 1;
      heap_i ← store heap_i i i1;
      heap_i ← store heap_i 1 temp_i;
      '(heap_v, heap_i) ← max_heapify fuel heap_v heap_i 1 (CInt.wrap (i - 1));
      max_heapsort_loop fuel steps' heap_v heap_i (CInt.wrap (i - 1))
  end.

Definition max_heapsort (fuel : nat) (heap_v : gmap Z K) (heap_i : gmap Z Z)
    (n : Z) : result (gmap Z K * gmap Z Z) :=
  max_heapsort_loop fuel (Z.to_nat (n - 1)) heap_v heap_i n.

Definition maxheapsort (fuel : nat) (heap_v : gmap Z K) (heap_i : gmap Z Z)
    (n : Z) : result (gmap Z K * gmap Z Z) :=
  '(heap_v, heap_i) ← build_maxheap fuel heap_v heap_i n;
  max_heapsort fuel heap_v heap_i n.

End ValueIndex.

Definition maxheapsort_double : nat -> gmap Z float -> gmap Z Z -> Z ->
    result (gmap Z float * gmap Z Z) :=
  maxheapsort Double.gt Double.le.

(** *** [maxheapsort(int*, int)] and its helpers *)

Fixpoint heapify_while_int (fuel : nat) (heap_v : gmap Z Z) (temp_v : Z)
    (j n : Z) : result (gmap Z Z * Z) :=
  if j <=? n then
    match fuel with
    | O => Err OutOfFuel
    | S fuel' =>
        j ← (if j <? n
             then a ← load heap_v (CInt.wrap (j + 1));
                  b ← load heap_v j;
                  mret (if a >? b then CInt.wrap (j + 1) else j)
             else mret j);
        vj ← load heap_v j;
        if temp_v >? vj then Ok (heap_v, j)
        else if temp_v <=? vj then
          heap_v' ← store heap_v (Z.quot j 2) vj;
          heapify_while_int fuel' heap_v' temp_v (CInt.wrap (2 * j)) n
        else heapify_while_int fuel' heap_v temp_v j n
    end
  else Ok (heap_v, j).

Definition max_heapify_int (fuel : nat) (heap_v : gmap Z Z) (i n : Z)
    : result (gmap Z Z) :=
  temp_v ← load heap_v i;
  '(heap_v, j) ← heapify_while_int fuel heap_v temp_v (CInt.wrap (2 * i)) n;
  store heap_v (Z.quot j 2) temp_v.

Fixpoint build_maxheap_loop_int (fuel steps : nat) (heap_v : gmap Z Z)
    (i n : Z) : result (gmap Z Z) :=
  match steps with
  | O => Ok heap_v
  | S steps' =>
      heap_v ← max_heapify_int fuel heap_v i n;
      build_maxheap_loop_int fuel steps' heap_v (CInt.wrap (i - 1)) n
  end.

Definition build_maxheap_int (fuel : nat) (heap_v : gmap Z Z) (n : Z)
    : result (gmap Z Z) :=
  build_maxheap_loop_int fuel (Z.to_nat (Z.quot n 2)) heap_v (Z.quot n 2) n.

Fixpoint max_heapsort_loop_int (fuel steps : nat) (heap_v : gmap Z Z) (i : Z)
    : result (gmap Z Z) :=
  match steps with
  | O => Ok heap_v
  | S steps' =>
      temp_v ← load heap_v i;
      v1 ← load heap_v 1;
      heap_v ← store heap_v i v1;
      heap_v ← store heap_v 1 temp_v;
      heap_v ← max_heapify_int fuel heap_v 1 (CInt.wrap (i - 1));
      max_heapsort_loop_int fuel steps' heap_v (CInt.wrap (i - 1))
  end.

Definition max_heapsort_int (fuel : nat) (heap_v : gmap Z Z) (n : Z)
    : result (gmap Z Z) :=
  max_heapsort_loop_int fuel (Z.to_nat (n - 1)) heap_v n.

Definition maxheapsort_int (fuel : nat) (heap_v : gmap Z Z) (n : Z)
    : result (gmap Z Z) :=
  heap_v ← build_maxheap_int fuel heap_v n;
  max_heapsort_int fuel heap_v n.

(** An array whose positions [1 .. length l] hold the values [l]. *)
Definition array_of {A : Type} (l : list A) : gmap Z A :=
  list_to_map (zip (seqZ 1 (Z.of_nat (length l))) l).

(** The values at the positions [1 .. n]. *)
Definition values {A : Type} `{Inhabited A} (m : gmap Z A) (n : Z) : list A :=
  (fun k => m !!! k) <$> seqZ 1 n.

(** The value-index pairs at the positions [1 .. n]. *)
Definition cells {A : Type} `{Inhabited A} (heap_v : gmap Z A)
    (heap_i : gmap Z Z) (n : Z) : list (A * Z) :=
  (fun k => (heap_v !!! k, heap_i !!! k)) <$> seqZ 1 n.

(** The positions [a .. b] hold values. *)
Definition defined {A : Type} (m : gmap Z A) (a b : Z) : Prop :=
  forall k, a <= k <= b -> is_Some (m !! k).

(** Nothing outside the positions [a .. b] differs. *)
Definition same_outside {A : Type} (a b : Z) (m m' : gmap Z A) : Prop :=
  forall k, ~ (a <= k <= b) -> m' !! k = m !! k.

#[export] Instance float_inhabited : Inhabited float := populate zero.

(** *** [increasing_set_ok], both overloads

    [HIGHS_CONST_I_INF] and [HIGHS_CONST_INF] are declared in
    lp_data/HConst.h, which is not among the sources: they are arguments
    of the model. A null [set] is [None]. *)

(** The [for] loop of the [int] overload, [steps] iterations from
    position [k] on. *)
Fixpoint increasing_loop_int (set : list Z) (check_bounds : bool)
    (set_entry_upper : Z) (steps : nat) (k : Z) (previous_entry : Z)
    : result bool :=
  match steps with
  | O => Ok true
  | S steps' =>
      entry ← vget set k;
      if entry <? previous_entry then Ok false
      else if check_bounds && (entry >? set_entry_upper) then Ok false
      else increasing_loop_int set check_bounds set_entry_upper steps'
             (CInt.wrap (k + 1)) entry
  end.

Definition increasing_set_ok_int (HIGHS_CONST_I_INF : Z)
    (set : option (list Z)) (set_num_entries : Z)
    (set_entry_lower set_entry_upper : Z) : result bool :=
  if set_num_entries <? 0 then Ok false
  else match set with
       | None => Ok false
       | Some s =>
           let check_bounds := set_entry_lower <=? set_entry_upper in
           let previous_entry :=
             if check_bounds then set_entry_lower
             else CInt.wrap (- HIGHS_CONST_I_INF) in
           increasing_loop_int s check_bounds set_entry_upper
             (Z.to_nat set_num_entries) 0 previous_entry
       end.

(** The [for] loop of the [double] overload. *)
Fixpoint increasing_loop_double (set : list float) (check_bounds : bool)
    (set_entry_upper : float) (steps : nat) (k : Z) (previous_entry : float)
    : result bool :=
  match steps with
  | O => Ok true
  | S steps' =>
      entry ← vget set k;
      if Double.lt entry previous_entry then Ok false
      else if check_bounds && Double.gt entry set_entry_upper then Ok false
      else increasing_loop_double set check_bounds set_entry_upper steps'
             (CInt.wrap (k + 1)) entry
  end.

Definition increasing_set_ok_double (HIGHS_CONST_INF : float)
    (set : option (list float)) (set_num_entries : Z)
    (set_entry_lower set_entry_upper : float) : result bool :=
  if set_num_entries <? 0 then Ok false
  else match set with
       | None => Ok false
       | Some s =>
           let check_bounds := Double.le set_entry_lower set_entry_upper in
           let previous_entry :=
             if check_bounds then set_entry_lower
             else PrimFloat.opp HIGHS_CONST_INF in
           increasing_loop_double s check_bounds set_entry_upper
             (Z.to_nat set_num_entries) 0 previous_entry
       end.

(** What the test is said to decide, for the [int] overload: the set is
    there, the count is not negative, the entries do not decrease and,
    when [lo <= hi], they all lie in [lo .. hi]. *)
Definition increasing_in_bounds_int (set : option (list Z)) (k lo hi : Z) : Prop :=
  exists s, set = Some s /\ 0 <= k /\
    Sorted Z.le (take (Z.to_nat k) s) /\
    (lo <= hi -> Forall (fun e => lo <= e <= hi) (take (Z.to_nat k) s)).

(** The same for the [double] overload, with the IEEE [<=]. *)
Definition increasing_in_bounds_double (set : option (list float))
    (k : Z) (lo hi : float) : Prop :=
  exists s, set = Some s /\ 0 <= k /\
    Sorted (fun a b => Double.le a b = true) (take (Z.to_nat k) s) /\
    (Double.le lo hi = true ->
     Forall (fun e => Double.le lo e = true /\ Double.le e hi = true)
       (take (Z.to_nat k) s)).

(** The pure reading of the loops: the entries met, in order. *)
Fixpoint chain_int (check_bounds : bool) (hi : Z) (prev : Z) (l : list Z) : bool :=
  match l with
  | [] => true
  | e :: l' =>
      if e <? prev then false
      else if check_bounds && (e >? hi) then false
      else chain_int check_bounds hi e l'
  end.

Fixpoint chain_double (check_bounds : bool) (hi : float) (prev : float)
    (l : list float) : bool :=
  match l with
  | [] => true
  | e :: l' =>
      if Double.lt e prev then false
      else if check_bounds && Double.gt e hi then false
      else chain_double check_bounds hi e l'
  end.

Lemma take_drop_step {A : Type} (s : list A) (k : Z) (n : nat) (x : A) :
  0 <= k -> s !! Z.to_nat k = Some x ->
  take (S n) (drop (Z.to_nat k) s) = x :: take n (drop (Z.to_nat (k + 1)) s).
Proof.
  intros Hk Hx.
  replace (Z.to_nat (k + 1)) with (S (Z.to_nat k)) by lia.
  rewrite (drop_S s x (Z.to_nat k) Hx). reflexivity.
Qed.

Lemma increasing_loop_int_chain set cb hi steps k prev :
  0 <= k -> k + Z.of_nat steps <= Z.of_nat (length set) ->
  k + Z.of_nat steps <= CInt.INT_MAX ->
  increasing_loop_int set cb hi steps k prev
  = Ok (chain_int cb hi prev (take steps (drop (Z.to_nat k) set))).
Proof.
  revert k prev. induction steps as [|n IH]; intros k prev Hk Hlen Hmax.
  - reflexivity.
  - destruct (vget_in_range set k) as (x & Hget & Hx); [lia|].
    rewrite (take_drop_step set k n x Hk Hx).
    cbn [increasing_loop_int chain_int]. rewrite Hget. cbn [mbind result_bind].
    destruct (x <? prev); [reflexivity|].
    destruct (cb && (x >? hi)); [reflexivity|].
    rewrite CInt.wrap_id by (unfold CInt.in_range, CInt.INT_MIN, CInt.INT_MAX in *; lia).
    apply IH; lia.
Qed.

Lemma increasing_loop_double_chain set cb hi steps k prev :
  0 <= k -> k + Z.of_nat steps <= Z.of_nat (length set) ->
  k + Z.of_nat steps <= CInt.INT_MAX ->
  increasing_loop_double set cb hi steps k prev
  = Ok (chain_double cb hi prev (take steps (drop (Z.to_nat k) set))).
Proof.
  revert k prev. induction steps as [|n IH]; intros k prev Hk Hlen Hmax.
  - reflexivity.
  - destruct (vget_in_range set k) as (x & Hget & Hx); [lia|].
    rewrite (take_drop_step set k n x Hk Hx).
    cbn [increasing_loop_double chain_double]. rewrite Hget. cbn [mbind result_bind].
    destruct (Double.lt x prev); [reflexivity|].
    destruct (cb && Double.gt x hi); [reflexivity|].
    rewrite CInt.wrap_id by (unfold CInt.in_range, CInt.INT_MIN, CInt.INT_MAX in *; lia).
    apply IH; lia.
Qed.

(** A chain that passes is a sorted list above [prev], below [hi] when
    the bounds are checked. *)
Lemma chain_int_true cb hi prev l :
  chain_int cb hi prev l = true <->
  Sorted Z.le (prev :: l) /\ (cb = true -> Forall (fun e => e <= hi) l).
Proof.
  revert prev. induction l as [|e l IH]; intros prev; cbn [chain_int].
  - split; [intros _|reflexivity]. split; [repeat constructor | constructor].
  - destruct (Z.ltb_spec e prev) as [Hlt|Hge].
    + split; [discriminate|]. intros [Hs _].
      apply Sorted_inv in Hs as [_ Hh]. apply HdRel_inv in Hh. lia.
    + destruct cb; cbn [andb].
      * destruct (Z.gtb_spec e hi) as [Hgt|Hle].
        -- split; [discriminate|]. intros [_ Hf].
           specialize (Hf eq_refl). apply Forall_inv in Hf. lia.
        -- rewrite IH. split.
           ++ intros [Hs Hf]. split; [constructor; [done|constructor; lia]|].
              intros _. constructor; [lia|auto].
           ++ intros [Hs Hf]. apply Sorted_inv in Hs as [Hs _]. split; [done|].
              intros _. specialize (Hf eq_refl). now apply Forall_inv_tail in Hf.
      * rewrite IH. split.
        -- intros [Hs _]. split; [constructor; [done|constructor; lia]|discriminate].
        -- intros [Hs _]. apply Sorted_inv in Hs as [Hs _]. split; [done|discriminate].
Qed.

Lemma sorted_cons_lower (lo : Z) (l : list Z) :
  Sorted Z.le (lo :: l) <-> Sorted Z.le l /\ Forall (fun e => lo <= e) l.
Proof.
  split.
  - intros Hs. split; [now apply Sorted_inv in Hs|].
    apply Sorted_StronglySorted in Hs; [|intros a b c; lia].
    now apply StronglySorted_inv in Hs.
  - intros [Hs Hf]. constructor; [done|].
    destruct l; constructor. now apply Forall_inv in Hf.
Qed.

Lemma increasing_set_ok_int_spec I_INF set k lo hi :
  0 < I_INF <= CInt.INT_MAX ->
  k <= CInt.INT_MAX ->
  (forall s, set = Some s -> k <= Z.of_nat (length s)) ->
  exists b, increasing_set_ok_int I_INF set k lo hi = Ok b /\
    (b = true <->
     exists s, set = Some s /\ 0 <= k /\
       Sorted Z.le (take (Z.to_nat k) s) /\
       Forall (fun e => if lo <=? hi then lo <= e <= hi else - I_INF <= e)
         (take (Z.to_nat k) s)).
Proof.
  intros HI Hk Hlen. unfold increasing_set_ok_int.
  destruct (Z.ltb_spec k 0) as [Hneg|Hpos].
  { exists false. split; [done|]. split; [discriminate|].
    intros (s & _ & H0 & _). lia. }
  destruct set as [s|].
  2:{ exists false. split; [done|]. split; [discriminate|].
      intros (s & Hs & _). discriminate. }
  specialize (Hlen s eq_refl).
  rewrite increasing_loop_int_chain by lia. change (Z.to_nat 0) with 0%nat.
  rewrite drop_0. eexists. split; [reflexivity|].
  rewrite chain_int_true, sorted_cons_lower.
  rewrite CInt.wrap_id
    by (unfold CInt.in_range, CInt.INT_MIN, CInt.INT_MAX in *; lia).
  split.
  - intros [[Hs Hlo] Hhi]. exists s. repeat split; try done.
    destruct (Z.leb_spec lo hi) as [Hle|Hgt].
    + specialize (Hhi eq_refl). rewrite Forall_forall in *. intros e He.
      specialize (Hlo e He). specialize (Hhi e He). lia.
    + done.
  - intros (s' & [= <-] & _ & Hs & Hf).
    destruct (Z.leb_spec lo hi) as [Hle|Hgt].
    + repeat split; try done.
      * eapply Forall_impl; [exact Hf|]. cbn. intros; lia.
      * intros _. eapply Forall_impl; [exact Hf|]. cbn. intros; lia.
    + repeat split; try done.
Qed.

(** On numbers, [not (e < prev)] is [prev <= e]. *)
Lemma lt_false_le e prev :
  is_nan e = false -> is_nan prev = false ->
  (Double.lt e prev = false <-> Double.le prev e = true).
Proof.
  intros He Hp. rewrite (Double.lt_is_not_le e prev He Hp).
  destruct (Double.le prev e); cbn; split; congruence.
Qed.

Lemma chain_double_true cb hi prev l :
  Forall (fun e => is_nan e = false) l ->
  (chain_double cb hi prev l = true <->
   match l with [] => True | e :: _ => Double.lt e prev = false end /\
   Sorted (fun a b => Double.le a b = true) l /\
   (cb = true -> Forall (fun e => Double.gt e hi = false) l)).
Proof.
  revert prev. induction l as [|e l IH]; intros prev Hnan; cbn [chain_double].
  - split; [intros _|reflexivity]. repeat split; constructor.
  - apply Forall_cons_1 in Hnan as [He Hl].
    destruct (Double.lt e prev) eqn:Hlt.
    { split; [discriminate|]. intros (H & _). discriminate. }
    assert (Double.gt e hi = true \/ Double.gt e hi = false) as [Hgt|Hgt]
      by (destruct (Double.gt e hi); auto).
    + rewrite Hgt. destruct cb; cbn [andb].
      * split; [discriminate|]. intros (_ & _ & Hf).
        specialize (Hf eq_refl). apply Forall_inv in Hf. congruence.
      * rewrite (IH e Hl). split.
        -- intros (Hh & Hs & _). repeat split; try discriminate.
           constructor; [done|]. destruct l as [|e' l]; constructor.
           apply Forall_inv in Hl. now apply lt_false_le in Hh.
        -- intros (_ & Hs & _). apply Sorted_inv in Hs as [Hs Hh].
           repeat split; try done; try discriminate.
           destruct l as [|e' l]; [done|]. apply HdRel_inv in Hh.
           apply Forall_inv in Hl. now apply lt_false_le.
    + rewrite Hgt, andb_false_r. rewrite (IH e Hl). split.
      * intros (Hh & Hs & Hf). repeat split.
        -- constructor; [done|]. destruct l as [|e' l]; constructor.
           apply Forall_inv in Hl. now apply lt_false_le in Hh.
        -- intros Hcb. constructor; auto.
      * intros (_ & Hs & Hf). apply Sorted_inv in Hs as [Hs Hh].
        repeat split; try done.
        -- destruct l as [|e' l]; [done|]. apply HdRel_inv in Hh.
           apply Forall_inv in Hl. now apply lt_false_le.
        -- intros Hcb. specialize (Hf Hcb). now apply Forall_inv_tail in Hf.
Qed.

(** In a sorted list of numbers every entry is above whatever the first
    entry is above. *)
Lemma sorted_double_above prev l :
  is_nan prev = false ->
  Forall (fun e => is_nan e = false) l ->
  Sorted (fun a b => Double.le a b = true) l ->
  match l with [] => True | e :: _ => Double.lt e prev = false end ->
  Forall (fun e => Double.le prev e = true) l.
Proof.
  intros Hp Hnan Hs Hh. destruct l as [|e l]; [constructor|].
  apply Forall_cons_1 in Hnan as [He Hl].
  apply lt_false_le in Hh; [|done|done].
  apply Sorted_StronglySorted in Hs; [|intros a b c; apply Double.le_trans].
  apply StronglySorted_inv in Hs as [_ Hall].
  constructor; [done|].
  eapply Forall_impl; [exact Hall|]. cbn. intros a Ha.
  now apply (Double.le_trans prev e a).
Qed.

Lemma lt_nan_r e p : is_nan p = true -> Double.lt e p = false.
Proof.
  intros Hp. destruct (Double.lt e p) eqn:E; [|done].
  apply Double.lt_true_not_nan in E as [_ E]. congruence.
Qed.

Lemma increasing_set_ok_double_spec INF set k lo hi :
  k <= CInt.INT_MAX ->
  (forall s, set = Some s ->
     k <= Z.of_nat (length s) /\
     Forall (fun e => is_nan e = false) (take (Z.to_nat k) s)) ->
  exists b, increasing_set_ok_double INF set k lo hi = Ok b /\
    (b = true <->
     exists s, set = Some s /\ 0 <= k /\
       Sorted (fun a b => Double.le a b = true) (take (Z.to_nat k) s) /\
       Forall (fun e => if Double.le lo hi
                        then Double.le lo e = true /\ Double.le e hi = true
                        else Double.lt e (PrimFloat.opp INF) = false)
         (take (Z.to_nat k) s)).
Proof.
  intros Hk Hset. unfold increasing_set_ok_double.
  destruct (Z.ltb_spec k 0) as [Hneg|Hpos].
  { exists false. split; [done|]. split; [discriminate|].
    intros (s & _ & H0 & _). lia. }
  destruct set as [s|].
  2:{ exists false. split; [done|]. split; [discriminate|].
      intros (s & Hs & _). discriminate. }
  destruct (Hset s eq_refl) as [Hlen Hnan].
  rewrite increasing_loop_double_chain by lia. change (Z.to_nat 0) with 0%nat.
  rewrite drop_0. eexists. split; [reflexivity|].
  rewrite (chain_double_true _ _ _ _ Hnan).
  remember (take (Z.to_nat k) s) as l eqn:El.
  destruct (Double.le lo hi) eqn:Hlohi.
  - destruct (Double.le_true_not_nan _ _ Hlohi) as [Hlo Hhi].
    split.
    + intros (Hh & Hs & Hf). exists s. rewrite <- El. repeat split; try done.
      specialize (Hf eq_refl).
      pose proof (sorted_double_above lo l Hlo Hnan Hs Hh) as Hab.
      rewrite Forall_forall in *. intros e He. split; [auto|].
      specialize (Hf e He). unfold Double.gt in Hf.
      apply lt_false_le in Hf; auto.
    + intros (s' & [= <-] & _ & Hs & Hf). rewrite <- El in Hs, Hf.
      repeat split; try done.
      * destruct l as [|e l']; [done|]. apply Forall_inv in Hf as [Hf _].
        apply Forall_inv in Hnan. now apply lt_false_le.
      * intros _. rewrite Forall_forall in *. intros e He.
        destruct (Hf e He) as [_ H2]. unfold Double.gt.
        apply lt_false_le; auto.
  - split.
    + intros (Hh & Hs & _). exists s. rewrite <- El. repeat split; try done.
      destruct (is_nan (PrimFloat.opp INF)) eqn:Hinf.
      * rewrite Forall_forall. intros e _. now apply lt_nan_r.
      * pose proof (sorted_double_above _ l Hinf Hnan Hs Hh) as Hab.
        rewrite Forall_forall in *. intros e He.
        apply lt_false_le; auto.
    + intros (s' & [= <-] & _ & Hs & Hf). rewrite <- El in Hs, Hf.
      repeat split; try done.
      destruct l as [|e l']; [done|]. now apply Forall_inv in Hf.
Qed.

Example increasing_set_ok_int_run :
  increasing_set_ok_int CInt.INT_MAX (Some [1; 2; 2; 5]) 4 0 5 = Ok true /\
  increasing_set_ok_int CInt.INT_MAX (Some [1; 3; 2]) 3 0 5 = Ok false /\
  increasing_set_ok_int CInt.INT_MAX (Some [1; 2; 6]) 3 0 5 = Ok false /\
  increasing_set_ok_int CInt.INT_MAX (Some [-7; 2; 6]) 3 1 0 = Ok true /\
  increasing_set_ok_int CInt.INT_MAX (Some [1; 2]) 3 0 5 = Err OutOfBounds /\
  increasing_set_ok_int CInt.INT_MAX None 0 0 5 = Ok false.
Proof. repeat split; reflexivity. Qed.

Example increasing_set_ok_double_run :
  increasing_set_ok_double infinity (Some [one; two]) 2 zero two = Ok true /\
  increasing_set_ok_double infinity (Some [two; one]) 2 zero two = Ok false /\
  increasing_set_ok_double infinity (Some [neg_infinity; one]) 2 one zero = Ok true.
Proof. repeat split; reflexivity. Qed.

(** Whatever positive value [HIGHS_CONST_I_INF] has, the smallest [int]
    lies below its negation: with the bounds switched off, a set that
    starts with it is refused. *)
Lemma increasing_set_ok_int_min I_INF :
  0 < I_INF <= CInt.INT_MAX ->
  increasing_set_ok_int I_INF (Some [CInt.INT_MIN]) 1 1 0 = Ok false.
Proof.
  intros HI. unfold increasing_set_ok_int.
  change (1 <? 0) with false. change (1 <=? 0) with false.
  change (Z.to_nat 1) with 1%nat. cbn [increasing_loop_int].
  change (vget [CInt.INT_MIN] 0) with (Ok CInt.INT_MIN).
  cbn [mbind result_bind].
  rewrite CInt.wrap_id
    by (unfold CInt.in_range, CInt.INT_MIN, CInt.INT_MAX in *; lia).
  destruct (Z.ltb_spec CInt.INT_MIN (- I_INF)); [reflexivity|].
  unfold CInt.INT_MIN, CInt.INT_MAX in *. lia.
Qed.

(** C6, as stated, fails in both overloads. With the bounds switched
    off ([lo > hi]) the [int] overload refuses the one-entry set
    [{INT_MIN}], which is in increasing order; and the [double] overload
    accepts the set [{NaN}] for the bounds [0 .. 1], although NaN is not
    in that interval. *)
Lemma increasing_set_ok_claim_fails :
  (increasing_set_ok_int CInt.INT_MAX (Some [CInt.INT_MIN]) 1 1 0 = Ok false /\
   increasing_in_bounds_int (Some [CInt.INT_MIN]) 1 1 0) /\
  (increasing_set_ok_double infinity (Some [nan]) 1 zero one = Ok true /\
   ~ increasing_in_bounds_double (Some [nan]) 1 zero one).
Proof.
  split; split.
  - reflexivity.
  - exists [CInt.INT_MIN]. split; [reflexivity|]. split; [lia|].
    split; [cbn; repeat constructor|intros H; lia].
  - reflexivity.
  - intros (s & [= <-] & _ & _ & Hb). specialize (Hb eq_refl).
    cbn in Hb. apply Forall_inv in Hb as [Hb _]. vm_compute in Hb. discriminate.
Qed.

(** C6, amended. [increasing_set_ok(set, k, lo, hi)] returns, and returns
    true, if and only if [set] is not null, [k >= 0], the entries
    [set[0..k-1]] do not decrease and every one of them lies in
    [lo .. hi] when [lo <= hi], and is not below [-HIGHS_CONST_I_INF]
    (the [int] overload) or [-HIGHS_CONST_INF] (the [double] overload)
    otherwise. For the [double] overload this is for entries that are
    numbers; [<=] is the IEEE comparison. *)
Theorem increasing_set_ok_spec
    (I_INF : Z) (INF : float)
    (seti : option (list Z)) (ki loi hii : Z)
    (setd : option (list float)) (kd : Z) (lod hid : float) :
  0 < I_INF <= CInt.INT_MAX ->
  ki <= CInt.INT_MAX -> kd <= CInt.INT_MAX ->
  (forall s, seti = Some s -> ki <= Z.of_nat (length s)) ->
  (forall s, setd = Some s ->
     kd <= Z.of_nat (length s) /\
     Forall (fun e => is_nan e = false) (take (Z.to_nat kd) s)) ->
  (exists b, increasing_set_ok_int I_INF seti ki loi hii = Ok b /\
     (b = true <->
      exists s, seti = Some s /\ 0 <= ki /\
        Sorted Z.le (take (Z.to_nat ki) s) /\
        Forall (fun e => if loi <=? hii then loi <= e <= hii else - I_INF <= e)
          (take (Z.to_nat ki) s))) /\
  (exists b, increasing_set_ok_double INF setd kd lod hid = Ok b /\
     (b = true <->
      exists s, setd = Some s /\ 0 <= kd /\
        Sorted (fun a b => Double.le a b = true) (take (Z.to_nat kd) s) /\
        Forall (fun e => if Double.le lod hid
                         then Double.le lod e = true /\ Double.le e hid = true
                         else Double.lt e (PrimFloat.opp INF) = false)
          (take (Z.to_nat kd) s))).
Proof.
  intros HI Hki Hkd Hi Hd. split.
  - now apply increasing_set_ok_int_spec.
  - now apply increasing_set_ok_double_spec.
Qed.

Lemma increasing_set_ok_spec_witness :
  (exists b, increasing_set_ok_int CInt.INT_MAX (Some [1; 2; 2; 5]) 4 0 5 = Ok b /\
     (b = true <->
      exists s, Some [1; 2; 2; 5] = Some s /\ 0 <= 4 /\
        Sorted Z.le (take (Z.to_nat 4) s) /\
        Forall (fun e => if 0 <=? 5 then 0 <= e <= 5 else - CInt.INT_MAX <= e)
          (take (Z.to_nat 4) s))) /\
  (exists b, increasing_set_ok_double infinity (Some [one; two]) 2 two one = Ok b /\
     (b = true <->
      exists s, Some [one; two] = Some s /\ 0 <= 2 /\
        Sorted (fun a b => Double.le a b = true) (take (Z.to_nat 2) s) /\
        Forall (fun e => if Double.le two one
                         then Double.le two e = true /\ Double.le e one = true
                         else Double.lt e (PrimFloat.opp infinity) = false)
          (take (Z.to_nat 2) s))).
Proof.
  apply (increasing_set_ok_spec CInt.INT_MAX infinity
           (Some [1; 2; 2; 5]) 4 0 5 (Some [one; two]) 2 two one).
  - unfold CInt.INT_MAX. lia.
  - unfold CInt.INT_MAX. lia.
  - unfold CInt.INT_MAX. lia.
  - intros s [= <-]. simpl. lia.
  - intros s [= <-]. split; [simpl; lia|]. repeat constructor.
Defined.

(** *** Reading and writing positions that hold values *)

Lemma load_defined {A : Type} `{Inhabited A} (m : gmap Z A) (p : Z) :
  is_Some (m !! p) -> load m p = Ok (m !!! p).
Proof.
  intros [x Hx]. unfold load. rewrite Hx.
  now rewrite (lookup_total_correct m p x Hx).
Qed.

Lemma load_some {A : Type} (m : gmap Z A) (p : Z) (x : A) :
  m !! p = Some x -> load m p = Ok x.
Proof. intros Hx. unfold load. now rewrite Hx. Qed.

Lemma load_none {A : Type} (m : gmap Z A) (p : Z) :
  m !! p = None -> load m p = Err OutOfBounds.
Proof. intros Hx. unfold load. now rewrite Hx. Qed.

Lemma store_defined {A : Type} (m : gmap Z A) (p : Z) (x : A) :
  is_Some (m !! p) -> store m p x = Ok (<[p := x]> m).
Proof. intros [y Hy]. unfold store. now rewrite Hy. Qed.

Lemma defined_insert {A : Type} (m : gmap Z A) (a b p : Z) (x : A) :
  defined m a b -> defined (<[p := x]> m) a b.
Proof.
  intros Hd k Hk. destruct (decide (p = k)) as [->|Hne].
  - rewrite lookup_insert_eq. eauto.
  - rewrite lookup_insert_ne by done. now apply Hd.
Qed.

Lemma same_outside_refl {A : Type} (a b : Z) (m : gmap Z A) : same_outside a b m m.
Proof. intros k _. reflexivity. Qed.

Lemma same_outside_insert {A : Type} (a b p : Z) (x : A) (m m' : gmap Z A) :
  a <= p <= b -> same_outside a b m m' -> same_outside a b m (<[p := x]> m').
Proof.
  intros Hp Hs k Hk. rewrite lookup_insert_ne by (intros ->; lia). now apply Hs.
Qed.

Lemma same_outside_trans {A : Type} (a b : Z) (m1 m2 m3 : gmap Z A) :
  same_outside a b m1 m2 -> same_outside a b m2 m3 -> same_outside a b m1 m3.
Proof. intros H12 H23 k Hk. rewrite H23 by done. now apply H12. Qed.

Lemma same_outside_weaken {A : Type} (a b a' b' : Z) (m m' : gmap Z A) :
  a' <= a -> b <= b' -> same_outside a b m m' -> same_outside a' b' m m'.
Proof. intros Ha Hb Hs k Hk. apply Hs. lia. Qed.

Lemma same_outside_total {A : Type} `{Inhabited A} (a b : Z) (m m' : gmap Z A) (k : Z) :
  same_outside a b m m' -> ~ (a <= k <= b) -> m' !!! k = m !!! k.
Proof. intros Hs Hk. rewrite !lookup_total_alt. now rewrite (Hs k Hk). Qed.

(** *** Exchanging two positions permutes a segment *)

Definition swap_pos (a b k : Z) : Z :=
  if decide (k = a) then b else if decide (k = b) then a else k.

Lemma swap_pos_involutive a b k : swap_pos a b (swap_pos a b k) = k.
Proof. unfold swap_pos. repeat case_decide; congruence. Qed.

Lemma swap_pos_range a b n k :
  1 <= a <= n -> 1 <= b <= n -> (1 <= swap_pos a b k <= n <-> 1 <= k <= n).
Proof. intros Ha Hb. unfold swap_pos. repeat case_decide; lia. Qed.

Lemma swap_pos_seq a b n :
  1 <= a <= n -> 1 <= b <= n -> swap_pos a b <$> seqZ 1 n ≡ₚ seqZ 1 n.
Proof.
  intros Ha Hb. apply NoDup_Permutation.
  - apply NoDup_fmap_2_strong; [|apply NoDup_seqZ].
    intros x y _ _ Hxy.
    rewrite <- (swap_pos_involutive a b x), <- (swap_pos_involutive a b y).
    now rewrite Hxy.
  - apply NoDup_seqZ.
  - intros x. rewrite list_elem_of_fmap. setoid_rewrite elem_of_seqZ. split.
    + intros (y & -> & Hy). pose proof (swap_pos_range a b n y Ha Hb). lia.
    + intros Hx. exists (swap_pos a b x). rewrite swap_pos_involutive.
      split; [done|]. pose proof (swap_pos_range a b n x Ha Hb). lia.
Qed.

Lemma fmap_seq_ext {A : Type} (f g : Z -> A) (n : Z) :
  (forall k, 1 <= k <= n -> f k = g k) -> f <$> seqZ 1 n = g <$> seqZ 1 n.
Proof.
  intros Hfg. apply list_fmap_ext. intros i k Hk.
  apply lookup_seqZ in Hk. apply Hfg. lia.
Qed.

Lemma fmap_seq_swap {A : Type} (f g : Z -> A) (a b n : Z) :
  1 <= a <= n -> 1 <= b <= n ->
  (forall k, 1 <= k <= n -> g k = f (swap_pos a b k)) ->
  g <$> seqZ 1 n ≡ₚ f <$> seqZ 1 n.
Proof.
  intros Ha Hb Hg.
  rewrite (fmap_seq_ext g (fun k => f (swap_pos a b k)) n Hg).
  rewrite (list_fmap_compose (swap_pos a b) f).
  now rewrite (swap_pos_seq a b n Ha Hb).
Qed.

(** A segment read in two halves. *)
Lemma fmap_seq_split {A : Type} (f : Z -> A) (a n : Z) :
  0 <= a <= n ->
  f <$> seqZ 1 n = (f <$> seqZ 1 a) ++ (f <$> seqZ (1 + a) (n - a)).
Proof.
  intros Ha. replace n with (a + (n - a)) at 1 by lia.
  rewrite seqZ_app by lia. now rewrite fmap_app.
Qed.

Lemma elem_of_fmap_seq {A : Type} (f : Z -> A) (n : Z) (x : A) :
  x ∈ f <$> seqZ 1 n <-> exists k, 1 <= k <= n /\ x = f k.
Proof.
  rewrite list_elem_of_fmap. setoid_rewrite elem_of_seqZ. split.
  - intros (k & -> & Hk). exists k. split; [lia|done].
  - intros (k & Hk & ->). exists k. split; [done|lia].
Qed.

Lemma quot_double (h : Z) : Z.quot (2 * h) 2 = h.
Proof. rewrite Z.mul_comm. apply Z.quot_mul. lia. Qed.

Lemma quot_double_succ (h : Z) : 0 <= h -> Z.quot (2 * h + 1) 2 = h.
Proof. intros Hh. symmetry. apply (Z.quot_unique _ _ _ 1); lia. Qed.

Lemma wrap_small (z : Z) : 0 <= z <= CInt.INT_MAX -> CInt.wrap z = z.
Proof.
  intros Hz. apply CInt.wrap_id.
  unfold CInt.in_range, CInt.INT_MIN, CInt.INT_MAX in *. lia.
Qed.

(** *** The heap order *)

Section HeapOrder.

Context {K : Type} `{Inhabited K}.
Variable gt : K -> K -> bool.
Variable le : K -> K -> bool.

(** The values the order laws are asked of: every [int], and every
    [double] that is a number. *)
Variable valid : K -> Prop.

Hypothesis gt_not_le :
  forall x y, valid x -> valid y -> gt x y = negb (le x y).
Hypothesis le_total :
  forall x y, valid x -> valid y -> le x y = true \/ le y x = true.
Hypothesis le_trans :
  forall x y z, valid x -> valid y -> valid z ->
    le x y = true -> le y z = true -> le x z = true.

Lemma ord_le_refl x : valid x -> le x x = true.
Proof. intros Hx. destruct (le_total x x Hx Hx); done. Qed.

Lemma ord_gt_true_le x y : valid x -> valid y -> gt x y = true -> le y x = true.
Proof.
  intros Hx Hy Hg. rewrite (gt_not_le x y Hx Hy) in Hg.
  destruct (le_total x y Hx Hy) as [Hl|Hl]; [|done].
  rewrite Hl in Hg. discriminate.
Qed.

Lemma ord_gt_false_le x y : valid x -> valid y -> gt x y = false -> le x y = true.
Proof.
  intros Hx Hy Hg. rewrite (gt_not_le x y Hx Hy) in Hg.
  destruct (le x y); [done|discriminate].
Qed.

(** Node [k] is not below its children, among the positions [.. n]. *)
Definition heap_at (hv : gmap Z K) (n k : Z) : Prop :=
  forall c, c = 2 * k \/ c = 2 * k + 1 -> c <= n ->
    le (hv !!! c) (hv !!! k) = true.

Definition all_valid (hv : gmap Z K) (n : Z) : Prop :=
  forall k, 1 <= k <= n -> valid (hv !!! k).

(** The arrays as they would be with the value and the index held in
    [temp_v] and [temp_i] put into the hole [h]. *)
Definition eff (hv : gmap Z K) (hi : gmap Z Z) (h : Z) (tv : K) (ti : Z)
    : Z -> K * Z :=
  fun k => if decide (k = h) then (tv, ti) else (hv !!! k, hi !!! k).

(** What holds at the head of the [while] loop of [max_heapify (i, n)]
    when the hole is at [h]. *)
Record hole_inv (hv0 : gmap Z K) (hi0 : gmap Z Z) (i n : Z) (tv : K) (ti : Z)
    (hv : gmap Z K) (hi : gmap Z Z) (h : Z) : Prop := {
  hole_range : i <= h <= n;
  hole_dv : defined hv 1 n;
  hole_di : defined hi 1 n;
  hole_valid : all_valid hv n;
  hole_heap : forall k, i <= k <= n -> (h = i -> k <> i) -> heap_at hv n k;
  hole_temp : h <> i -> le tv (hv !!! h) = true;
  hole_sv : same_outside i n hv0 hv;
  hole_si : same_outside i n hi0 hi;
  hole_perm : eff hv hi h tv ti <$> seqZ 1 n ≡ₚ cells hv0 hi0 n
}.

(** The choice of the larger child of [h]. *)
Lemma pick_child (hv : gmap Z K) (n h : Z) :
  1 <= h -> 2 * h <= n -> 2 * n <= CInt.INT_MAX ->
  defined hv 1 n -> all_valid hv n ->
  exists j1,
    (if 2 * h <? n
     then a ← load hv (CInt.wrap (2 * h + 1));
          b ← load hv (2 * h);
          mret (if gt a b then CInt.wrap (2 * h + 1) else 2 * h)
     else mret (2 * h)) = Ok j1 /\
    (j1 = 2 * h \/ j1 = 2 * h + 1) /\ j1 <= n /\
    (forall c, c = 2 * h \/ c = 2 * h + 1 -> c <= n ->
       le (hv !!! c) (hv !!! j1) = true).
Proof.
  intros Hh Hj Hmax Hd Hv.
  destruct (Z.ltb_spec (2 * h) n) as [Hlt|Hge].
  - rewrite wrap_small by lia.
    rewrite (load_defined hv (2 * h + 1)) by (apply Hd; lia).
    cbn [mbind result_bind].
    rewrite (load_defined hv (2 * h)) by (apply Hd; lia).
    cbn [mbind result_bind mret result_ret].
    assert (valid (hv !!! (2 * h))) as Hva by (apply Hv; lia).
    assert (valid (hv !!! (2 * h + 1))) as Hvb by (apply Hv; lia).
    destruct (gt (hv !!! (2 * h + 1)) (hv !!! (2 * h))) eqn:Hg.
    + exists (2 * h + 1). split; [done|]. split; [lia|]. split; [lia|].
      intros c [->| ->] _.
      * now apply ord_gt_true_le.
      * now apply ord_le_refl.
    + exists (2 * h). split; [done|]. split; [lia|]. split; [lia|].
      intros c [->| ->] _.
      * now apply ord_le_refl.
      * now apply ord_gt_false_le.
  - exists (2 * h). split; [done|]. split; [lia|]. split; [lia|].
    intros c [->| ->] Hc; [|lia]. apply ord_le_refl. apply Hv. lia.
Qed.

(** Moving the larger child [j1] of the hole [h] up moves the hole
    down to [j1]. *)
Lemma hole_step hv0 hi0 i n tv ti hv hi h j1 :
  1 <= i -> valid tv ->
  hole_inv hv0 hi0 i n tv ti hv hi h ->
  (j1 = 2 * h \/ j1 = 2 * h + 1) -> j1 <= n ->
  (forall c, c = 2 * h \/ c = 2 * h + 1 -> c <= n ->
     le (hv !!! c) (hv !!! j1) = true) ->
  le tv (hv !!! j1) = true ->
  hole_inv hv0 hi0 i n tv ti
    (<[h := hv !!! j1]> hv) (<[h := hi !!! j1]> hi) j1.
Proof.
  intros Hi Htv [Hr Hdv Hdi Hval Hheap Htemp Hsv Hsi Hperm] Hj1 Hj1n Hmax Hle.
  assert (j1 <> h) as Hne by lia.
  assert (forall k, 1 <= k <= n -> valid (<[h := hv !!! j1]> hv !!! k)) as Hval'.
  { intros k Hk. destruct (decide (h = k)) as [->|Hd].
    - rewrite lookup_total_insert_eq. apply Hval. lia.
    - rewrite lookup_total_insert_ne by done. now apply Hval. }
  split.
  - lia.
  - now apply defined_insert.
  - now apply defined_insert.
  - exact Hval'.
  - intros k Hk _ c Hc Hcn.
    destruct (decide (k = h)) as [->|Hkh].
    + rewrite lookup_total_insert_eq.
      rewrite lookup_total_insert_ne by lia.
      now apply Hmax.
    + rewrite (lookup_total_insert_ne hv h k) by done.
      destruct (decide (c = h)) as [->|Hch].
      * rewrite lookup_total_insert_eq.
        assert (h <> i) as Hhi by lia.
        apply (le_trans _ (hv !!! h)); try (apply Hval; lia).
        -- apply (Hheap h); [lia|done|done|done].
        -- apply (Hheap k); [lia|lia|done|done].
      * rewrite lookup_total_insert_ne by done.
        apply (Hheap k); [lia|intros ->; lia|done|done].
  - intros _. now rewrite lookup_total_insert_ne by done.
  - apply same_outside_insert; [lia|done].
  - apply same_outside_insert; [lia|done].
  - rewrite <- Hperm. apply (fmap_seq_swap _ _ h j1); [lia|lia|].
    intros k Hk. unfold eff, swap_pos.
    repeat case_decide; subst; try lia;
      rewrite ?lookup_total_insert_eq, ?lookup_total_insert_ne by done; done.
Qed.

(** The [while] loop comes to an end, with the hole at [j / 2] and
    nothing larger than [temp_v] below it. *)
Lemma heapify_while_spec hv0 hi0 i n tv ti fuel :
  1 <= i -> 2 * n <= CInt.INT_MAX -> valid tv ->
  forall hv hi h,
    hole_inv hv0 hi0 i n tv ti hv hi h ->
    (Z.to_nat (n - h) <= fuel)%nat ->
    exists hv' hi' j',
      heapify_while gt le fuel hv hi tv (2 * h) n = Ok (hv', hi', j') /\
      hole_inv hv0 hi0 i n tv ti hv' hi' (Z.quot j' 2) /\
      (forall c, c = 2 * Z.quot j' 2 \/ c = 2 * Z.quot j' 2 + 1 -> c <= n ->
         le (hv' !!! c) tv = true).
Proof.
  intros Hi Hmax Htv.
  induction fuel as [|fuel IH]; intros hv hi h Hinv Hfuel;
    pose proof (hole_range _ _ _ _ _ _ _ _ _ Hinv) as Hr;
    cbn [heapify_while]; destruct (Z.leb_spec (2 * h) n) as [Hj|Hj].
  - lia.
  - exists hv, hi, (2 * h). rewrite quot_double.
    split; [done|]. split; [done|]. intros c Hc Hcn. lia.
  - destruct (pick_child hv n h) as (j1 & Hpick & Hj1 & Hj1n & Hbig);
      [lia|done|done|apply Hinv|apply Hinv|].
    rewrite Hpick. cbn [mbind result_bind].
    rewrite (load_defined hv j1) by (apply Hinv; lia).
    cbn [mbind result_bind].
    assert (Z.quot j1 2 = h) as Hq.
    { destruct Hj1 as [->| ->]; [apply quot_double|apply quot_double_succ; lia]. }
    assert (valid (hv !!! j1)) as Hvj by (apply Hinv; lia).
    destruct (gt tv (hv !!! j1)) eqn:Hg.
    + exists hv, hi, j1. rewrite Hq. split; [done|]. split; [done|].
      intros c Hc Hcn.
      apply (le_trans _ (hv !!! j1)); try done.
      * apply Hinv. lia.
      * now apply Hbig.
      * now apply ord_gt_true_le.
    + pose proof (ord_gt_false_le _ _ Htv Hvj Hg) as Hle. rewrite Hle, Hq.
      rewrite (store_defined hv h) by (apply Hinv; lia).
      cbn [mbind result_bind].
      rewrite (load_defined hi j1) by (apply Hinv; lia).
      cbn [mbind result_bind].
      rewrite (store_defined hi h) by (apply Hinv; lia).
      cbn [mbind result_bind].
      rewrite wrap_small by lia.
      apply IH.
      * now apply hole_step.
      * lia.
  - exists hv, hi, (2 * h). rewrite quot_double.
    split; [done|]. split; [done|]. intros c Hc Hcn. lia.
Qed.

(** [max_heapify (i, n)] on a heap with a hole at its root [i]. *)
Lemma max_heapify_spec fuel hv hi i n :
  1 <= i <= n -> 2 * n <= CInt.INT_MAX ->
  (Z.to_nat n <= fuel)%nat ->
  defined hv 1 n -> defined hi 1 n -> all_valid hv n ->
  (forall k, i < k <= n -> heap_at hv n k) ->
  exists hv' hi',
    max_heapify gt le fuel hv hi i n = Ok (hv', hi') /\
    defined hv' 1 n /\ defined hi' 1 n /\ all_valid hv' n /\
    (forall k, i <= k <= n -> heap_at hv' n k) /\
    same_outside i n hv hv' /\ same_outside i n hi hi' /\
    cells hv' hi' n ≡ₚ cells hv hi n.
Proof.
  intros Hi Hmax Hfuel Hdv Hdi Hval Hheap.
  unfold max_heapify.
  rewrite (load_defined hv i) by (apply Hdv; lia). cbn [mbind result_bind].
  rewrite (load_defined hi i) by (apply Hdi; lia). cbn [mbind result_bind].
  rewrite wrap_small by lia.
  assert (valid (hv !!! i)) as Htv by (apply Hval; lia).
  destruct (heapify_while_spec hv hi i n (hv !!! i) (hi !!! i) fuel
              ltac:(lia) Hmax Htv hv hi i)
    as (hv' & hi' & j' & Hrun & Hinv & Hbelow); [|lia|].
  { split.
    - lia.
    - done.
    - done.
    - done.
    - intros k Hk Hne. apply Hheap. specialize (Hne eq_refl). lia.
    - intros Hne. congruence.
    - apply same_outside_refl.
    - apply same_outside_refl.
    - unfold cells. erewrite (fmap_seq_ext (eff hv hi i (hv !!! i) (hi !!! i)));
        [reflexivity|].
      intros k _. unfold eff. case_decide; subst; done. }
  rewrite Hrun. cbn [mbind result_bind].
  set (h := Z.quot j' 2) in *.
  destruct Hinv as [Hr Hdv' Hdi' Hval' Hheap' Htemp Hsv Hsi Hperm].
  rewrite (store_defined hv' h) by (apply Hdv'; lia). cbn [mbind result_bind].
  rewrite (store_defined hi' h) by (apply Hdi'; lia).
  cbn [mbind result_bind mret result_ret].
  eexists _, _. split; [reflexivity|].
  assert (all_valid (<[h := hv !!! i]> hv') n) as Hvalf.
  { intros k Hk. destruct (decide (h = k)) as [->|Hd].
    - now rewrite lookup_total_insert_eq.
    - rewrite lookup_total_insert_ne by done. now apply Hval'. }
  split; [now apply defined_insert|]. split; [now apply defined_insert|].
  split; [done|]. split; [|split; [|split]].
  - intros k Hk c Hc Hcn.
    destruct (decide (k = h)) as [->|Hkh].
    + rewrite lookup_total_insert_eq.
      rewrite lookup_total_insert_ne by lia.
      now apply Hbelow.
    + rewrite (lookup_total_insert_ne hv' h k) by done.
      destruct (decide (c = h)) as [->|Hch].
      * rewrite lookup_total_insert_eq.
        assert (h <> i) as Hhi by lia.
        apply (le_trans _ (hv' !!! h)); try done; try (apply Hval'; lia).
        -- now apply Htemp.
        -- apply (Hheap' k); [lia|lia|done|done].
      * rewrite lookup_total_insert_ne by done.
        apply (Hheap' k); [lia|intros ->; lia|done|done].
  - apply same_outside_insert; [lia|done].
  - apply same_outside_insert; [lia|done].
  - rewrite <- Hperm. unfold cells.
    erewrite (fmap_seq_ext _ (eff hv' hi' h (hv !!! i) (hi !!! i))); [reflexivity|].
    intros k _. unfold eff. case_decide; subst.
    + now rewrite !lookup_total_insert_eq.
    + now rewrite !lookup_total_insert_ne by done.
Qed.

(** [build_maxheap]: the nodes [i, i - 1, .. 1] are made roots of heaps
    in turn. *)
Lemma build_maxheap_loop_spec fuel n steps :
  2 * n <= CInt.INT_MAX -> (Z.to_nat n <= fuel)%nat ->
  forall i hv hi,
    i = Z.of_nat steps -> i <= n ->
    defined hv 1 n -> defined hi 1 n -> all_valid hv n ->
    (forall k, i < k <= n -> heap_at hv n k) ->
    exists hv' hi',
      build_maxheap_loop gt le fuel steps hv hi i n = Ok (hv', hi') /\
      defined hv' 1 n /\ defined hi' 1 n /\ all_valid hv' n /\
      (forall k, 1 <= k <= n -> heap_at hv' n k) /\
      same_outside 1 n hv hv' /\ same_outside 1 n hi hi' /\
      cells hv' hi' n ≡ₚ cells hv hi n.
Proof.
  intros Hmax Hfuel.
  induction steps as [|steps IH]; intros i hv hi Hi Hin Hdv Hdi Hval Hheap.
  - exists hv, hi. split; [reflexivity|]. repeat split; try done.
    intros k Hk. apply Hheap. lia.
  - cbn [build_maxheap_loop].
    destruct (max_heapify_spec fuel hv hi i n)
      as (hv1 & hi1 & Hrun & Hdv1 & Hdi1 & Hval1 & Hheap1 & Hsv1 & Hsi1 & Hp1);
      try done; [lia|].
    rewrite Hrun. cbn [mbind result_bind].
    rewrite wrap_small by lia.
    destruct (IH (i - 1) hv1 hi1)
      as (hv2 & hi2 & Hrun2 & Hdv2 & Hdi2 & Hval2 & Hheap2 & Hsv2 & Hsi2 & Hp2);
      try done; [lia|lia|intros k Hk; apply Hheap1; lia|].
    exists hv2, hi2. split; [done|]. repeat split; try done.
    + eapply same_outside_trans; [|exact Hsv2].
      eapply same_outside_weaken; [| |exact Hsv1]; lia.
    + eapply same_outside_trans; [|exact Hsi2].
      eapply same_outside_weaken; [| |exact Hsi1]; lia.
    + now rewrite Hp2.
Qed.

Lemma quot_two_bounds (n : Z) :
  0 <= n -> 0 <= Z.quot n 2 /\ 2 * Z.quot n 2 <= n < 2 * Z.quot n 2 + 2.
Proof.
  intros Hn. pose proof (Z.quot_rem' n 2) as Hqr.
  pose proof (Z.rem_bound_pos n 2 Hn ltac:(lia)). lia.
Qed.

Lemma build_maxheap_spec fuel n hv hi :
  0 <= n -> 2 * n <= CInt.INT_MAX -> (Z.to_nat n <= fuel)%nat ->
  defined hv 1 n -> defined hi 1 n -> all_valid hv n ->
  exists hv' hi',
    build_maxheap gt le fuel hv hi n = Ok (hv', hi') /\
    defined hv' 1 n /\ defined hi' 1 n /\ all_valid hv' n /\
    (forall k, 1 <= k <= n -> heap_at hv' n k) /\
    same_outside 1 n hv hv' /\ same_outside 1 n hi hi' /\
    cells hv' hi' n ≡ₚ cells hv hi n.
Proof.
  intros Hn Hmax Hfuel Hdv Hdi Hval. unfold build_maxheap.
  pose proof (quot_two_bounds n Hn) as Hq.
  apply build_maxheap_loop_spec; try done; [lia|lia|].
  intros k Hk c Hc Hcn. lia.
Qed.

(** In a heap the root is the largest value. *)
Lemma heap_root_max hv m :
  all_valid hv m -> (forall k, 1 <= k <= m -> heap_at hv m k) ->
  forall k, 1 <= k <= m -> le (hv !!! k) (hv !!! 1) = true.
Proof.
  intros Hval Hheap.
  assert (forall d : nat, forall k, 1 <= k <= m -> (Z.to_nat k <= d)%nat ->
            le (hv !!! k) (hv !!! 1) = true) as Hind.
  { induction d as [|d IH]; intros k Hk Hd; [lia|].
    destruct (decide (k = 1)) as [->|Hk1].
    - apply ord_le_refl. apply Hval. lia.
    - set (p := k / 2).
      assert (k = 2 * p \/ k = 2 * p + 1) as Hp.
      { pose proof (Z.div_mod k 2 ltac:(lia)).
        pose proof (Z.mod_pos_bound k 2 ltac:(lia)). unfold p. lia. }
      apply (le_trans _ (hv !!! p)); try (apply Hval; lia).
      + apply (Hheap p); [lia|done|lia].
      + apply IH; lia. }
  intros k Hk. apply (Hind (Z.to_nat k)); [done|lia].
Qed.

(** A value of a permuted segment is a value of the segment. *)
Lemma cells_perm_value (hv hv' : gmap Z K) (hi hi' : gmap Z Z) (m a : Z) :
  cells hv' hi' m ≡ₚ cells hv hi m -> 1 <= a <= m ->
  exists a', 1 <= a' <= m /\ hv' !!! a = hv !!! a'.
Proof.
  intros Hp Ha.
  assert ((hv' !!! a, hi' !!! a) ∈ cells hv' hi' m) as Hin.
  { apply elem_of_fmap_seq. exists a. split; done. }
  rewrite Hp in Hin. apply elem_of_fmap_seq in Hin as (a' & Ha' & Heq).
  exists a'. split; [done|]. congruence.
Qed.

(** The segment after the exchange of the positions [1] and [i]. *)
Lemma cells_exchange (hv : gmap Z K) (hi : gmap Z Z) (i n : Z) :
  1 <= i <= n ->
  cells (<[1 := hv !!! i]> (<[i := hv !!! 1]> hv))
        (<[1 := hi !!! i]> (<[i := hi !!! 1]> hi)) n
  ≡ₚ cells hv hi n.
Proof.
  intros Hi. unfold cells. apply (fmap_seq_swap _ _ 1 i); [lia|lia|].
  intros k Hk. unfold swap_pos.
  destruct (decide (k = 1)) as [->|Hk1].
  - now rewrite !lookup_total_insert_eq.
  - destruct (decide (k = i)) as [->|Hki].
    + rewrite !(lookup_total_insert_ne _ 1 i) by lia.
      now rewrite !lookup_total_insert_eq.
    + rewrite !(lookup_total_insert_ne _ 1 k) by lia.
      now rewrite !(lookup_total_insert_ne _ i k) by lia.
Qed.

(** A permutation of the first [m] positions that leaves the others
    alone is a permutation of the first [n]. *)
Lemma cells_extend (hv hv' : gmap Z K) (hi hi' : gmap Z Z) (m n : Z) :
  0 <= m <= n ->
  cells hv' hi' m ≡ₚ cells hv hi m ->
  same_outside 1 m hv hv' -> same_outside 1 m hi hi' ->
  cells hv' hi' n ≡ₚ cells hv hi n.
Proof.
  intros Hm Hp Hsv Hsi. unfold cells in *.
  rewrite (fmap_seq_split _ m n Hm).
  rewrite (fmap_seq_split (fun k => (hv !!! k, hi !!! k)) m n Hm).
  rewrite Hp. apply Permutation_app_head.
  erewrite list_fmap_ext; [reflexivity|].
  intros j k Hk. apply lookup_seqZ in Hk. cbn beta.
  rewrite (same_outside_total 1 m hv hv' k Hsv) by lia.
  now rewrite (same_outside_total 1 m hi hi' k Hsi) by lia.
Qed.

(** [max_heapsort]: the root of the heap on [1 .. i] goes to position
    [i], below everything that is already in its place. *)
Lemma max_heapsort_loop_spec fuel n steps :
  2 * n <= CInt.INT_MAX -> (Z.to_nat n <= fuel)%nat ->
  forall i hv hi,
    steps = Z.to_nat (i - 1) -> 0 <= i <= n ->
    defined hv 1 n -> defined hi 1 n -> all_valid hv n ->
    (forall k, 1 <= k <= i -> heap_at hv i k) ->
    (forall a b, 1 <= a < b -> b <= n -> i < b ->
       le (hv !!! a) (hv !!! b) = true) ->
    exists hv' hi',
      max_heapsort_loop gt le fuel steps hv hi i = Ok (hv', hi') /\
      defined hv' 1 n /\ defined hi' 1 n /\
      (forall a b, 1 <= a < b -> b <= n -> le (hv' !!! a) (hv' !!! b) = true) /\
      same_outside 1 n hv hv' /\ same_outside 1 n hi hi' /\
      cells hv' hi' n ≡ₚ cells hv hi n.
Proof.
  intros Hmax Hfuel.
  induction steps as [|steps IH]; intros i hv hi Hsteps Hi Hdv Hdi Hval Hheap Hsorted.
  - exists hv, hi. split; [reflexivity|]. repeat split; try done.
    intros a b Hab Hbn. apply Hsorted; lia.
  - assert (2 <= i) as Hi2 by lia.
    cbn [max_heapsort_loop].
    rewrite (load_defined hv i) by (apply Hdv; lia). cbn [mbind result_bind].
    rewrite (load_defined hv 1) by (apply Hdv; lia). cbn [mbind result_bind].
    rewrite (store_defined hv i) by (apply Hdv; lia). cbn [mbind result_bind].
    rewrite (store_defined _ 1) by (apply defined_insert with (a := 1) (b := n); [done|lia]).
    cbn [mbind result_bind].
    rewrite (load_defined hi i) by (apply Hdi; lia). cbn [mbind result_bind].
    rewrite (load_defined hi 1) by (apply Hdi; lia). cbn [mbind result_bind].
    rewrite (store_defined hi i) by (apply Hdi; lia). cbn [mbind result_bind].
    rewrite (store_defined _ 1) by (apply defined_insert with (a := 1) (b := n); [done|lia]).
    cbn [mbind result_bind].
    rewrite wrap_small by lia.
    set (hv1 := <[1 := hv !!! i]> (<[i := hv !!! 1]> hv)).
    set (hi1 := <[1 := hi !!! i]> (<[i := hi !!! 1]> hi)).
    assert (hv1 !!! 1 = hv !!! i) as Hv1_1
      by (unfold hv1; now rewrite lookup_total_insert_eq).
    assert (hv1 !!! i = hv !!! 1) as Hv1_i.
    { unfold hv1. rewrite lookup_total_insert_ne by lia.
      now rewrite lookup_total_insert_eq. }
    assert (forall k, k <> 1 -> k <> i -> hv1 !!! k = hv !!! k) as Hv1_k.
    { intros k Hk1 Hki. unfold hv1. now rewrite !lookup_total_insert_ne by done. }
    assert (defined hv1 1 n) as Hdv1 by (unfold hv1; now do 2 apply defined_insert).
    assert (defined hi1 1 n) as Hdi1 by (unfold hi1; now do 2 apply defined_insert).
    assert (all_valid hv1 n) as Hval1.
    { intros k Hk. destruct (decide (k = 1)) as [->|Hk1].
      - rewrite Hv1_1. apply Hval. lia.
      - destruct (decide (k = i)) as [->|Hki].
        + rewrite Hv1_i. apply Hval. lia.
        + rewrite Hv1_k by done. now apply Hval. }
    assert (forall k, 1 <= k <= i -> le (hv !!! k) (hv !!! 1) = true) as Hroot.
    { apply heap_root_max; [|done]. intros k Hk. apply Hval. lia. }
    (* everything among the positions [1 .. i - 1] of [hv1] is below the
       old root and below what is already in place *)
    assert (forall a', 1 <= a' <= i - 1 ->
              le (hv1 !!! a') (hv !!! 1) = true /\
              forall b, i < b -> b <= n -> le (hv1 !!! a') (hv !!! b) = true)
      as Hlow.
    { intros a' Ha'. destruct (decide (a' = 1)) as [->|Hne].
      - rewrite Hv1_1. split; [apply Hroot; lia|].
        intros b Hb Hbn. apply Hsorted; lia.
      - rewrite Hv1_k by lia. split; [apply Hroot; lia|].
        intros b Hb Hbn. apply Hsorted; lia. }
    destruct (max_heapify_spec fuel hv1 hi1 1 (i - 1))
      as (hv2 & hi2 & Hrun & Hdv2 & Hdi2 & Hval2 & Hheap2 & Hsv2 & Hsi2 & Hp2);
      try lia.
    { intros k Hk. apply Hdv1. lia. }
    { intros k Hk. apply Hdi1. lia. }
    { intros k Hk. apply Hval1. lia. }
    { intros k Hk c Hc Hcn. rewrite !Hv1_k by lia. apply (Hheap k); [lia|done|lia]. }
    rewrite Hrun. cbn [mbind result_bind].
    assert (forall k, i <= k -> hv2 !!! k = hv1 !!! k) as Hv2_out.
    { intros k Hk. apply (same_outside_total 1 (i - 1)); [done|lia]. }
    destruct (IH (i - 1) hv2 hi2)
      as (hv3 & hi3 & Hrun3 & Hdv3 & Hdi3 & Hsorted3 & Hsv3 & Hsi3 & Hp3);
      try lia.
    + intros k Hk. destruct (decide (k <= i - 1)) as [Hle|Hgt].
      * apply Hdv2. lia.
      * rewrite (Hsv2 k) by lia. apply Hdv1. lia.
    + intros k Hk. destruct (decide (k <= i - 1)) as [Hle|Hgt].
      * apply Hdi2. lia.
      * rewrite (Hsi2 k) by lia. apply Hdi1. lia.
    + intros k Hk. destruct (decide (k <= i - 1)) as [Hle|Hgt].
      * apply Hval2. lia.
      * rewrite Hv2_out by lia. apply Hval1. lia.
    + intros k Hk. apply Hheap2. lia.
    + intros a b Hab Hbn Hib.
      rewrite (Hv2_out b) by lia.
      destruct (decide (a <= i - 1)) as [Hlow_a|Hhigh_a].
      * destruct (cells_perm_value hv1 hv2 hi1 hi2 (i - 1) a Hp2)
          as (a' & Ha' & ->); [lia|].
        destruct (Hlow a' Ha') as [Hr Hb].
        destruct (decide (b = i)) as [->|Hbi].
        -- now rewrite Hv1_i.
        -- rewrite (Hv1_k b) by lia. apply Hb; lia.
      * rewrite (Hv2_out a) by lia.
        rewrite (Hv1_k b) by lia.
        destruct (decide (a = i)) as [->|Hai].
        -- rewrite Hv1_i. apply Hsorted; lia.
        -- rewrite (Hv1_k a) by lia. apply Hsorted; lia.
    + exists hv3, hi3. split; [done|]. repeat split; try done.
      * eapply same_outside_trans; [|exact Hsv3].
        eapply same_outside_trans;
          [|eapply same_outside_weaken; [| |exact Hsv2]; lia].
        unfold hv1. apply same_outside_insert; [lia|].
        apply same_outside_insert; [lia|]. apply same_outside_refl.
      * eapply same_outside_trans; [|exact Hsi3].
        eapply same_outside_trans;
          [|eapply same_outside_weaken; [| |exact Hsi2]; lia].
        unfold hi1. apply same_outside_insert; [lia|].
        apply same_outside_insert; [lia|]. apply same_outside_refl.
      * rewrite Hp3.
        rewrite (cells_extend hv1 hv2 hi1 hi2 (i - 1) n); try done; [|lia].
        apply cells_exchange. lia.
Qed.

Lemma maxheapsort_spec fuel n hv hi :
  0 <= n -> 2 * n <= CInt.INT_MAX -> (Z.to_nat n <= fuel)%nat ->
  defined hv 1 n -> defined hi 1 n -> all_valid hv n ->
  exists hv' hi',
    maxheapsort gt le fuel hv hi n = Ok (hv', hi') /\
    defined hv' 1 n /\ defined hi' 1 n /\
    (forall a b, 1 <= a < b -> b <= n -> le (hv' !!! a) (hv' !!! b) = true) /\
    same_outside 1 n hv hv' /\ same_outside 1 n hi hi' /\
    cells hv' hi' n ≡ₚ cells hv hi n.
Proof.
  intros Hn Hmax Hfuel Hdv Hdi Hval. unfold maxheapsort.
  destruct (build_maxheap_spec fuel n hv hi)
    as (hv1 & hi1 & Hrun1 & Hdv1 & Hdi1 & Hval1 & Hheap1 & Hsv1 & Hsi1 & Hp1);
    try done.
  rewrite Hrun1. cbn [mbind result_bind]. unfold max_heapsort.
  destruct (max_heapsort_loop_spec fuel n (Z.to_nat (n - 1)) Hmax Hfuel n hv1 hi1)
    as (hv2 & hi2 & Hrun2 & Hdv2 & Hdi2 & Hsorted & Hsv2 & Hsi2 & Hp2);
    try done; [intros; lia|].
  exists hv2, hi2. split; [done|]. repeat split; try done.
  - eapply same_outside_trans; [exact Hsv1|exact Hsv2].
  - eapply same_outside_trans; [exact Hsi1|exact Hsi2].
  - now rewrite Hp2.
Qed.

End HeapOrder.

(** *** What a run does not touch

    A run that succeeds on an array succeeds, with the same outcome, on
    any array that holds more: the positions the smaller array does not
    hold are neither read nor written. *)

(** [m'] and [M'] are what a run made of [m] and of its extension [M]. *)
Definition extends {A : Type} (m M m' M' : gmap Z A) : Prop :=
  m' ⊆ M' /\ dom m' = dom m /\ forall k, m !! k = None -> M' !! k = M !! k.

Lemma extends_refl {A : Type} (m M : gmap Z A) : m ⊆ M -> extends m M m M.
Proof. intros Hm. repeat split; done. Qed.

Lemma extends_trans {A : Type} (m M m1 M1 m2 M2 : gmap Z A) :
  extends m M m1 M1 -> extends m1 M1 m2 M2 -> extends m M m2 M2.
Proof.
  intros (Hs1 & Hd1 & Hf1) (Hs2 & Hd2 & Hf2). repeat split; [done|congruence|].
  intros k Hk. rewrite Hf2, Hf1; [done|done|].
  apply not_elem_of_dom. rewrite Hd1. now apply not_elem_of_dom.
Qed.

Lemma load_mono {A : Type} (m M : gmap Z A) (p : Z) (x : A) :
  m ⊆ M -> load m p = Ok x -> load M p = Ok x.
Proof.
  intros Hm. unfold load. destruct (m !! p) as [y|] eqn:Hy; [|discriminate].
  intros [= ->]. now rewrite (lookup_weaken m M p x Hy Hm).
Qed.

Lemma store_mono {A : Type} (m M m' : gmap Z A) (p : Z) (x : A) :
  m ⊆ M -> store m p x = Ok m' ->
  exists M', store M p x = Ok M' /\ extends m M m' M'.
Proof.
  intros Hm. unfold store. destruct (m !! p) as [y|] eqn:Hy; [|discriminate].
  intros [= <-]. rewrite (lookup_weaken m M p y Hy Hm).
  eexists. split; [reflexivity|]. repeat split.
  - now apply insert_mono.
  - rewrite dom_insert_L. apply subseteq_union_1_L, singleton_subseteq_l.
    now apply elem_of_dom_2 in Hy.
  - intros k Hk. apply lookup_insert_ne. congruence.
Qed.

(** The run on the array without position 0 is the run on the array,
    without position 0. *)
Lemma extends_delete {A : Type} (M m' M' : gmap Z A) :
  extends (delete 0 M) M m' M' -> m' = delete 0 M'.
Proof.
  intros (Hs & Hd & Hf). apply map_eq. intros k.
  destruct (decide (k = 0)) as [->|Hk].
  - rewrite lookup_delete_eq. apply not_elem_of_dom. rewrite Hd.
    apply not_elem_of_dom, lookup_delete_eq.
  - rewrite lookup_delete_ne by done.
    destruct (m' !! k) as [x|] eqn:Hx.
    + symmetry. exact (lookup_weaken m' M' k x Hx Hs).
    + assert (delete 0 M !! k = None) as Hnone.
      { apply not_elem_of_dom. rewrite <- Hd. now apply not_elem_of_dom. }
      rewrite (Hf k Hnone). rewrite lookup_delete_ne in Hnone by done.
      now rewrite Hnone.
Qed.

Section Frame.

Context {K : Type}.
Variable gt : K -> K -> bool.
Variable le : K -> K -> bool.

Lemma heapify_while_mono fuel :
  forall hv hi HV HI tv j n hv' hi' j',
    hv ⊆ HV -> hi ⊆ HI ->
    heapify_while gt le fuel hv hi tv j n = Ok (hv', hi', j') ->
    exists HV' HI',
      heapify_while gt le fuel HV HI tv j n = Ok (HV', HI', j') /\
      extends hv HV hv' HV' /\ extends hi HI hi' HI'.
Proof.
  induction fuel as [|fuel IH]; intros hv hi HV HI tv j n hv' hi' j' Hv Hi;
    cbn [heapify_while]; destruct (j <=? n).
  - discriminate.
  - intros [= <- <- <-]. exists HV, HI.
    split; [done|]. split; now apply extends_refl.
  - assert (forall j1,
              (if j <? n
               then a ← load hv (CInt.wrap (j + 1)); b ← load hv j;
                    mret (if gt a b then CInt.wrap (j + 1) else j)
               else mret j) = Ok j1 ->
              (if j <? n
               then a ← load HV (CInt.wrap (j + 1)); b ← load HV j;
                    mret (if gt a b then CInt.wrap (j + 1) else j)
               else mret j) = Ok j1) as Hpick.
    { intros j1. destruct (j <? n); [|done].
      destruct (load hv (CInt.wrap (j + 1))) as [a|] eqn:Ha; [|discriminate].
      rewrite (load_mono hv HV _ a Hv Ha). cbn [mbind result_bind].
      destruct (load hv j) as [b|] eqn:Hb; [|discriminate].
      now rewrite (load_mono hv HV _ b Hv Hb). }
    destruct (if j <? n
              then a ← load hv (CInt.wrap (j + 1)); b ← load hv j;
                   mret (if gt a b then CInt.wrap (j + 1) else j)
              else mret j) as [j1|] eqn:Hj1; [|discriminate].
    rewrite (Hpick j1 eq_refl). cbn [mbind result_bind].
    destruct (load hv j1) as [vj|] eqn:Hvj; [|discriminate].
    rewrite (load_mono hv HV _ vj Hv Hvj). cbn [mbind result_bind].
    destruct (gt tv vj).
    + intros [= <- <- <-]. exists HV, HI.
      split; [done|]. split; now apply extends_refl.
    + destruct (le tv vj).
      * destruct (store hv (Z.quot j1 2) vj) as [hv1|] eqn:Hs1; [|discriminate].
        destruct (store_mono hv HV hv1 _ vj Hv Hs1) as (HV1 & HS1 & He1).
        rewrite HS1. cbn [mbind result_bind].
        destruct (load hi j1) as [ij|] eqn:Hij; [|discriminate].
        rewrite (load_mono hi HI _ ij Hi Hij). cbn [mbind result_bind].
        destruct (store hi (Z.quot j1 2) ij) as [hi1|] eqn:Hs2; [|discriminate].
        destruct (store_mono hi HI hi1 _ ij Hi Hs2) as (HI1 & HS2 & He2).
        rewrite HS2. cbn [mbind result_bind].
        intros Hrun.
        destruct (IH hv1 hi1 HV1 HI1 tv _ n hv' hi' j' (proj1 He1) (proj1 He2) Hrun)
          as (HV' & HI' & Hrun' & He1' & He2').
        exists HV', HI'. split; [done|].
        split; eapply extends_trans; eassumption.
      * intros Hrun. now apply (IH hv hi HV HI tv j1 n hv' hi' j').
  - intros [= <- <- <-]. exists HV, HI.
    split; [done|]. split; now apply extends_refl.
Qed.

Lemma max_heapify_mono fuel hv hi HV HI i n hv' hi' :
  hv ⊆ HV -> hi ⊆ HI ->
  max_heapify gt le fuel hv hi i n = Ok (hv', hi') ->
  exists HV' HI',
    max_heapify gt le fuel HV HI i n = Ok (HV', HI') /\
    extends hv HV hv' HV' /\ extends hi HI hi' HI'.
Proof.
  intros Hv Hi. unfold max_heapify.
  destruct (load hv i) as [tv|] eqn:Htv; [|discriminate].
  rewrite (load_mono hv HV _ tv Hv Htv). cbn [mbind result_bind].
  destruct (load hi i) as [ti|] eqn:Hti; [|discriminate].
  rewrite (load_mono hi HI _ ti Hi Hti). cbn [mbind result_bind].
  destruct (heapify_while gt le fuel hv hi tv (CInt.wrap (2 * i)) n)
    as [[[hv1 hi1] j]|] eqn:Hw; [|discriminate].
  destruct (heapify_while_mono fuel hv hi HV HI tv _ n hv1 hi1 j Hv Hi Hw)
    as (HV1 & HI1 & HW & He1 & He2).
  rewrite HW. cbn [mbind result_bind].
  destruct (store hv1 (Z.quot j 2) tv) as [hv2|] eqn:Hs1; [|discriminate].
  destruct (store_mono hv1 HV1 hv2 _ tv (proj1 He1) Hs1) as (HV2 & HS1 & He1').
  rewrite HS1. cbn [mbind result_bind].
  destruct (store hi1 (Z.quot j 2) ti) as [hi2|] eqn:Hs2; [|discriminate].
  destruct (store_mono hi1 HI1 hi2 _ ti (proj1 He2) Hs2) as (HI2 & HS2 & He2').
  rewrite HS2. cbn [mbind result_bind mret result_ret].
  intros [= <- <-]. exists HV2, HI2. split; [done|].
  split; eapply extends_trans; eassumption.
Qed.

Lemma build_maxheap_loop_mono fuel steps :
  forall hv hi HV HI i n hv' hi',
    hv ⊆ HV -> hi ⊆ HI ->
    build_maxheap_loop gt le fuel steps hv hi i n = Ok (hv', hi') ->
    exists HV' HI',
      build_maxheap_loop gt le fuel steps HV HI i n = Ok (HV', HI') /\
      extends hv HV hv' HV' /\ extends hi HI hi' HI'.
Proof.
  induction steps as [|steps IH]; intros hv hi HV HI i n hv' hi' Hv Hi;
    cbn [build_maxheap_loop].
  - intros [= <- <-]. exists HV, HI. split; [done|].
    split; now apply extends_refl.
  - destruct (max_heapify gt le fuel hv hi i n) as [[hv1 hi1]|] eqn:Hm;
      [|discriminate].
    destruct (max_heapify_mono fuel hv hi HV HI i n hv1 hi1 Hv Hi Hm)
      as (HV1 & HI1 & HM & He1 & He2).
    rewrite HM. cbn [mbind result_bind]. intros Hrun.
    destruct (IH hv1 hi1 HV1 HI1 _ n hv' hi' (proj1 He1) (proj1 He2) Hrun)
      as (HV' & HI' & Hrun' & He1' & He2').
    exists HV', HI'. split; [done|].
    split; eapply extends_trans; eassumption.
Qed.

Lemma max_heapsort_loop_mono fuel steps :
  forall hv hi HV HI i hv' hi',
    hv ⊆ HV -> hi ⊆ HI ->
    max_heapsort_loop gt le fuel steps hv hi i = Ok (hv', hi') ->
    exists HV' HI',
      max_heapsort_loop gt le fuel steps HV HI i = Ok (HV', HI') /\
      extends hv HV hv' HV' /\ extends hi HI hi' HI'.
Proof.
  induction steps as [|steps IH]; intros hv hi HV HI i hv' hi' Hv Hi;
    cbn [max_heapsort_loop].
  - intros [= <- <-]. exists HV, HI. split; [done|].
    split; now apply extends_refl.
  - destruct (load hv i) as [tv|] eqn:Htv; [|discriminate].
    rewrite (load_mono hv HV _ tv Hv Htv). cbn [mbind result_bind].
    destruct (load hv 1) as [v1|] eqn:Hv1; [|discriminate].
    rewrite (load_mono hv HV _ v1 Hv Hv1). cbn [mbind result_bind].
    destruct (store hv i v1) as [hv1|] eqn:Hs1; [|discriminate].
    destruct (store_mono hv HV hv1 _ v1 Hv Hs1) as (HV1 & HS1 & He1).
    rewrite HS1. cbn [mbind result_bind].
    destruct (store hv1 1 tv) as [hv2|] eqn:Hs2; [|discriminate].
    destruct (store_mono hv1 HV1 hv2 _ tv (proj1 He1) Hs2) as (HV2 & HS2 & He2).
    rewrite HS2. cbn [mbind result_bind].
    destruct (load hi i) as [ti|] eqn:Hti; [|discriminate].
    rewrite (load_mono hi HI _ ti Hi Hti). cbn [mbind result_bind].
    destruct (load hi 1) as [i1|] eqn:Hi1; [|discriminate].
    rewrite (load_mono hi HI _ i1 Hi Hi1). cbn [mbind result_bind].
    destruct (store hi i i1) as [hi1|] eqn:Hs3; [|discriminate].
    destruct (store_mono hi HI hi1 _ i1 Hi Hs3) as (HI1 & HS3 & He3).
    rewrite HS3. cbn [mbind result_bind].
    destruct (store hi1 1 ti) as [hi2|] eqn:Hs4; [|discriminate].
    destruct (store_mono hi1 HI1 hi2 _ ti (proj1 He3) Hs4) as (HI2 & HS4 & He4).
    rewrite HS4. cbn [mbind result_bind].
    destruct (max_heapify gt le fuel hv2 hi2 1 (CInt.wrap (i - 1)))
      as [[hv3 hi3]|] eqn:Hm; [|discriminate].
    destruct (max_heapify_mono fuel hv2 hi2 HV2 HI2 1 _ hv3 hi3
                (proj1 He2) (proj1 He4) Hm)
      as (HV3 & HI3 & HM & He5 & He6).
    rewrite HM. cbn [mbind result_bind]. intros Hrun.
    destruct (IH hv3 hi3 HV3 HI3 _ hv' hi' (proj1 He5) (proj1 He6) Hrun)
      as (HV' & HI' & Hrun' & He7 & He8).
    exists HV', HI'. split; [done|]. split.
    + eapply extends_trans; [|exact He7].
      eapply extends_trans; [|exact He5].
      eapply extends_trans; [exact He1|exact He2].
    + eapply extends_trans; [|exact He8].
      eapply extends_trans; [|exact He6].
      eapply extends_trans; [exact He3|exact He4].
Qed.

Lemma maxheapsort_mono fuel hv hi HV HI n hv' hi' :
  hv ⊆ HV -> hi ⊆ HI ->
  maxheapsort gt le fuel hv hi n = Ok (hv', hi') ->
  exists HV' HI',
    maxheapsort gt le fuel HV HI n = Ok (HV', HI') /\
    extends hv HV hv' HV' /\ extends hi HI hi' HI'.
Proof.
  intros Hv Hi. unfold maxheapsort, build_maxheap, max_heapsort.
  destruct (build_maxheap_loop gt le fuel (Z.to_nat (Z.quot n 2)) hv hi
              (Z.quot n 2) n) as [[hv1 hi1]|] eqn:Hb; [|discriminate].
  destruct (build_maxheap_loop_mono fuel _ hv hi HV HI _ n hv1 hi1 Hv Hi Hb)
    as (HV1 & HI1 & HB & He1 & He2).
  rewrite HB. cbn [mbind result_bind]. intros Hrun.
  destruct (max_heapsort_loop_mono fuel _ hv1 hi1 HV1 HI1 n hv' hi'
              (proj1 He1) (proj1 He2) Hrun)
    as (HV' & HI' & Hrun' & He1' & He2').
  exists HV', HI'. split; [done|].
  split; eapply extends_trans; eassumption.
Qed.

(** Taking position 0 away from the arrays changes nothing else in the
    outcome of a run that succeeds without it. *)
Lemma maxheapsort_without_0 fuel hv hi n hv' hi' hv0 hi0 :
  maxheapsort gt le fuel hv hi n = Ok (hv', hi') ->
  maxheapsort gt le fuel (delete 0 hv) (delete 0 hi) n = Ok (hv0, hi0) ->
  hv0 = delete 0 hv' /\ hi0 = delete 0 hi'.
Proof.
  intros Hrun Hrun0.
  destruct (maxheapsort_mono fuel (delete 0 hv) (delete 0 hi) hv hi n hv0 hi0)
    as (HV' & HI' & Hrun' & He1 & He2);
    [apply delete_subseteq|apply delete_subseteq|done|].
  rewrite Hrun in Hrun'. injection Hrun' as <- <-.
  split; eapply extends_delete; eassumption.
Qed.

End Frame.

(** A segment whose values increase with the position is sorted. *)
Lemma sorted_fmap_seqZ {A : Type} (R : A -> A -> Prop) (f : Z -> A) (len : nat) :
  forall start,
    (forall a b, start <= a < b -> b < start + Z.of_nat len -> R (f a) (f b)) ->
    StronglySorted R (f <$> seqZ start (Z.of_nat len)).
Proof.
  induction len as [|len IH]; intros start HR.
  - rewrite seqZ_nil by lia. constructor.
  - rewrite seqZ_cons by lia. rewrite fmap_cons.
    replace (Z.pred (Z.of_nat (S len))) with (Z.of_nat len) by lia.
    constructor.
    + apply IH. intros a b Hab Hb. apply HR; lia.
    + apply Forall_fmap, Forall_forall. intros k Hk.
      apply elem_of_seqZ in Hk. cbn. apply HR; lia.
Qed.

Lemma sorted_values {A : Type} `{Inhabited A} (R : A -> A -> Prop)
    (m : gmap Z A) (n : Z) :
  (forall a b, 1 <= a < b -> b <= n -> R (m !!! a) (m !!! b)) ->
  Sorted R (values m n).
Proof.
  intros HR. unfold values. apply StronglySorted_Sorted.
  destruct (Z.le_gt_cases n 0) as [Hn|Hn].
  - rewrite seqZ_nil by done. constructor.
  - replace n with (Z.of_nat (Z.to_nat n)) by lia.
    apply sorted_fmap_seqZ. intros a b Hab Hb. apply HR; lia.
Qed.

Lemma values_cells {A : Type} `{Inhabited A} (hv : gmap Z A) (hi : gmap Z Z) (n : Z) :
  values hv n = fst <$> cells hv hi n.
Proof. unfold values, cells. now rewrite <- list_fmap_compose. Qed.

(** *** The [int] overload does what the value-index overload does to
    its values *)

Lemma heapify_while_int_sim fuel :
  forall hv tv j n,
    heapify_while Z.gtb Z.leb fuel hv hv tv j n
    = '(m, j') ← heapify_while_int fuel hv tv j n; Ok (m, m, j').
Proof.
  induction fuel as [|fuel IH]; intros hv tv j n;
    cbn [heapify_while heapify_while_int];
    destruct (j <=? n); try reflexivity.
  destruct (if j <? n
            then a ← load hv (CInt.wrap (j + 1)); b ← load hv j;
                 mret (if a >? b then CInt.wrap (j + 1) else j)
            else mret j) as [j1|e]; cbn [mbind result_bind]; [|reflexivity].
  destruct (load hv j1) as [vj|e] eqn:Hvj; cbn [mbind result_bind];
    [|reflexivity].
  destruct (tv >? vj); [reflexivity|].
  destruct (tv <=? vj); [|apply IH].
  destruct (store hv (Z.quot j1 2) vj) as [hv'|e] eqn:Hst;
    cbn [mbind result_bind]; [|reflexivity].
  apply IH.
Qed.

Lemma max_heapify_int_sim fuel hv i n :
  max_heapify Z.gtb Z.leb fuel hv hv i n
  = m ← max_heapify_int fuel hv i n; Ok (m, m).
Proof.
  unfold max_heapify, max_heapify_int.
  destruct (load hv i) as [tv|e]; cbn [mbind result_bind]; [|reflexivity].
  rewrite heapify_while_int_sim.
  destruct (heapify_while_int fuel hv tv (CInt.wrap (2 * i)) n) as [[m j]|e];
    cbn [mbind result_bind]; [|reflexivity].
  destruct (store m (Z.quot j 2) tv) as [m'|e]; reflexivity.
Qed.

Lemma build_maxheap_loop_int_sim fuel steps :
  forall hv i n,
    build_maxheap_loop Z.gtb Z.leb fuel steps hv hv i n
    = m ← build_maxheap_loop_int fuel steps hv i n; Ok (m, m).
Proof.
  induction steps as [|steps IH]; intros hv i n;
    cbn [build_maxheap_loop build_maxheap_loop_int]; [reflexivity|].
  rewrite max_heapify_int_sim.
  destruct (max_heapify_int fuel hv i n) as [m|e]; cbn [mbind result_bind];
    [apply IH|reflexivity].
Qed.

Lemma max_heapsort_loop_int_sim fuel steps :
  forall hv i,
    max_heapsort_loop Z.gtb Z.leb fuel steps hv hv i
    = m ← max_heapsort_loop_int fuel steps hv i; Ok (m, m).
Proof.
  induction steps as [|steps IH]; intros hv i;
    cbn [max_heapsort_loop max_heapsort_loop_int]; [reflexivity|].
  destruct (load hv i) as [tv|e] eqn:Hi; cbn [mbind result_bind]; [|reflexivity].
  destruct (load hv 1) as [v1|e] eqn:H1; cbn [mbind result_bind]; [|reflexivity].
  destruct (store hv i v1) as [m1|e] eqn:Hs1; cbn [mbind result_bind];
    [|reflexivity].
  destruct (store m1 1 tv) as [m2|e] eqn:Hs2; cbn [mbind result_bind];
    [|reflexivity].
  rewrite max_heapify_int_sim.
  destruct (max_heapify_int fuel m2 1 (CInt.wrap (i - 1))) as [m3|e];
    cbn [mbind result_bind]; [apply IH|reflexivity].
Qed.

Lemma maxheapsort_int_sim fuel hv n :
  maxheapsort Z.gtb Z.leb fuel hv hv n
  = m ← maxheapsort_int fuel hv n; Ok (m, m).
Proof.
  unfold maxheapsort, maxheapsort_int, build_maxheap, build_maxheap_int,
    max_heapsort, max_heapsort_int.
  rewrite build_maxheap_loop_int_sim.
  destruct (build_maxheap_loop_int fuel (Z.to_nat (Z.quot n 2)) hv (Z.quot n 2) n)
    as [m|e]; cbn [mbind result_bind]; [|reflexivity].
  apply max_heapsort_loop_int_sim.
Qed.

(** *** The two overloads sort *)

Lemma defined_delete_0 {A : Type} (m : gmap Z A) (n : Z) :
  defined m 1 n -> defined (delete 0 m) 1 n.
Proof. intros Hd k Hk. rewrite lookup_delete_ne by lia. now apply Hd. Qed.

Lemma maxheapsort_double_spec fuel n (hv : gmap Z float) (hi : gmap Z Z) :
  0 <= n -> 2 * n <= CInt.INT_MAX -> (Z.to_nat n <= fuel)%nat ->
  defined hv 1 n -> defined hi 1 n ->
  (forall k, 1 <= k <= n -> is_nan (hv !!! k) = false) ->
  exists hv' hi',
    maxheapsort_double fuel hv hi n = Ok (hv', hi') /\
    defined hv' 1 n /\ defined hi' 1 n /\
    same_outside 1 n hv hv' /\ same_outside 1 n hi hi' /\
    Sorted (fun a b => Double.le a b = true) (values hv' n) /\
    cells hv' hi' n ≡ₚ cells hv hi n /\
    maxheapsort_double fuel (delete 0 hv) (delete 0 hi) n
    = Ok (delete 0 hv', delete 0 hi').
Proof.
  intros Hn Hmax Hfuel Hdv Hdi Hnan.
  pose proof (maxheapsort_spec Double.gt Double.le (fun x => is_nan x = false)
                Double.gt_is_not_le Double.le_total
                (fun x y z _ _ _ => Double.le_trans x y z) fuel n) as Hspec.
  destruct (Hspec hv hi Hn Hmax Hfuel Hdv Hdi Hnan)
    as (hv' & hi' & Hrun & Hdv' & Hdi' & Hsorted & Hsv & Hsi & Hperm).
  destruct (Hspec (delete 0 hv) (delete 0 hi) Hn Hmax Hfuel)
    as (hv0 & hi0 & Hrun0 & _);
    [now apply defined_delete_0|now apply defined_delete_0| |].
  { intros k Hk. rewrite lookup_total_delete_ne by lia. now apply Hnan. }
  exists hv', hi'. repeat split; try done.
  - now apply sorted_values.
  - unfold maxheapsort_double. rewrite Hrun0.
    destruct (maxheapsort_without_0 Double.gt Double.le fuel hv hi n
                hv' hi' hv0 hi0 Hrun Hrun0) as [-> ->].
    reflexivity.
Qed.

Lemma maxheapsort_int_spec fuel n (hv : gmap Z Z) :
  0 <= n -> 2 * n <= CInt.INT_MAX -> (Z.to_nat n <= fuel)%nat ->
  defined hv 1 n ->
  exists hv',
    maxheapsort_int fuel hv n = Ok hv' /\
    defined hv' 1 n /\ same_outside 1 n hv hv' /\
    Sorted Z.le (values hv' n) /\
    values hv' n ≡ₚ values hv n /\
    maxheapsort_int fuel (delete 0 hv) n = Ok (delete 0 hv').
Proof.
  intros Hn Hmax Hfuel Hdv.
  assert (forall m : gmap Z Z, defined m 1 n ->
            exists m' hi',
              maxheapsort Z.gtb Z.leb fuel m m n = Ok (m', hi') /\
              defined m' 1 n /\ defined hi' 1 n /\
              (forall a b, 1 <= a < b -> b <= n -> (m' !!! a <=? m' !!! b) = true) /\
              same_outside 1 n m m' /\ same_outside 1 n m hi' /\
              cells m' hi' n ≡ₚ cells m m n) as Hspec.
  { intros m Hm.
    apply (maxheapsort_spec Z.gtb Z.leb (fun _ => True)); try done.
    - intros x y _ _. destruct (Z.gtb_spec x y), (Z.leb_spec x y); cbn; lia.
    - intros x y _ _. destruct (Z.leb_spec x y), (Z.leb_spec y x); auto; lia.
    - intros x y z _ _ _ Hxy Hyz. apply Z.leb_le in Hxy, Hyz. apply Z.leb_le. lia. }
  destruct (Hspec hv Hdv)
    as (hv' & hi' & Hrun & Hdv' & Hdi' & Hsorted & Hsv & Hsi & Hperm).
  destruct (Hspec (delete 0 hv)) as (hv0 & hi0 & Hrun0 & _);
    [now apply defined_delete_0|].
  destruct (maxheapsort_without_0 Z.gtb Z.leb fuel hv hv n hv' hi' hv0 hi0
              Hrun Hrun0) as [-> _].
  rewrite maxheapsort_int_sim in Hrun, Hrun0.
  destruct (maxheapsort_int fuel hv n) as [m|e]; [|discriminate].
  cbn in Hrun. injection Hrun as <- <-.
  exists m. repeat split; try done.
  - apply sorted_values. intros a b Hab Hb. apply Z.leb_le. now apply Hsorted.
  - rewrite (values_cells m m), (values_cells hv hv). now rewrite Hperm.
  - destruct (maxheapsort_int fuel (delete 0 hv) n) as [m0|e]; [|discriminate].
    cbn in Hrun0. now injection Hrun0 as ->.
Qed.

(** *** Where the sort goes wrong *)

(** With a NaN at the root, neither [temp_v > heap_v[j]] nor
    [temp_v <= heap_v[j]] holds, and the [while] loop of [max_heapify]
    goes round without a change of state. *)
Lemma heapify_while_nan fuel :
  heapify_while Double.gt Double.le fuel
    (array_of [nan; one]) (array_of [1; 2]) nan 2 2 = Err OutOfFuel.
Proof.
  induction fuel as [|fuel IH]; [reflexivity|].
  cbn [heapify_while].
  change (2 <=? 2) with true. change (2 <? 2) with false.
  cbn [mbind result_bind mret result_ret].
  change (load (array_of [nan; one]) 2) with (Ok one).
  cbn [mbind result_bind].
  change (Double.gt nan one) with false.
  change (Double.le nan one) with false.
  exact IH.
Qed.

Lemma maxheapsort_double_nan fuel :
  maxheapsort_double fuel (array_of [nan; one]) (array_of [1; 2]) 2
  = Err OutOfFuel.
Proof.
  unfold maxheapsort_double, maxheapsort, build_maxheap.
  change (Z.to_nat (Z.quot 2 2)) with 1%nat. cbn [build_maxheap_loop].
  unfold max_heapify.
  change (load (array_of [nan; one]) (Z.quot 2 2)) with (Ok nan).
  cbn [mbind result_bind].
  change (load (array_of [1; 2]) (Z.quot 2 2)) with (Ok 1).
  cbn [mbind result_bind].
  change (CInt.wrap (2 * Z.quot 2 2)) with 2.
  now rewrite heapify_while_nan.
Qed.

(** With [n = 2^30] the first [j = 2 * j] of the first call of
    [max_heapify] leaves the range of [int]; the next test reads
    [heap_v[j + 1]] far below the array. *)
Lemma maxheapsort_int_overflow fuel (hv : gmap Z Z) :
  (2 <= fuel)%nat ->
  hv !! 536870912 = Some 0 -> hv !! 1073741824 = Some 0 ->
  hv !! (-2147483647) = None ->
  maxheapsort_int fuel hv 1073741824 = Err OutOfBounds.
Proof.
  intros Hfuel Hhalf Hlast Hlow.
  destruct fuel as [|[|fuel]]; [lia|lia|].
  unfold maxheapsort_int, build_maxheap_int.
  change (Z.quot 1073741824 2) with 536870912.
  replace (Z.to_nat 536870912) with (S (Z.to_nat 536870911)) by lia.
  generalize (Z.to_nat 536870911) as steps. intros steps.
  cbn [build_maxheap_loop_int]. unfold max_heapify_int.
  rewrite (load_some hv 536870912 0 Hhalf). cbn [mbind result_bind].
  change (CInt.wrap (2 * 536870912)) with 1073741824.
  cbn [heapify_while_int].
  change (1073741824 <=? 1073741824) with true.
  change (1073741824 <? 1073741824) with false.
  cbn [mbind result_bind mret result_ret].
  rewrite (load_some hv 1073741824 0 Hlast). cbn [mbind result_bind].
  change (0 >? 0) with false. change (0 <=? 0) with true.
  change (Z.quot 1073741824 2) with 536870912.
  rewrite (store_defined hv 536870912 0) by eauto. cbn [mbind result_bind].
  change (CInt.wrap (2 * 1073741824)) with (-2147483648).
  change (-2147483648 <=? 1073741824) with true.
  change (-2147483648 <? 1073741824) with true.
  change (CInt.wrap (-2147483648 + 1)) with (-2147483647).
  rewrite (load_none (<[536870912 := 0]> hv) (-2147483647))
    by (rewrite lookup_insert_ne by lia; exact Hlow).
  reflexivity.
Qed.

(** The array of [2^30] zeros at the positions [1 .. 2^30]. *)
Definition zeros : gmap Z Z :=
  gset_to_gmap 0 (list_to_set (seqZ 1 1073741824)).

Lemma zeros_lookup (k : Z) :
  zeros !! k = if decide (1 <= k <= 1073741824) then Some 0 else None.
Proof.
  unfold zeros. case_decide as Hk.
  - apply lookup_gset_to_gmap_Some. split; [|done].
    apply elem_of_list_to_set, elem_of_seqZ. lia.
  - apply lookup_gset_to_gmap_None.
    rewrite elem_of_list_to_set, elem_of_seqZ. lia.
Qed.

Lemma defined_array_of {A : Type} (l : list A) :
  defined (array_of l) 1 (Z.of_nat (length l)).
Proof.
  intros k Hk. unfold array_of.
  destruct (lookup_lt_is_Some_2 l (Z.to_nat (k - 1))) as [x Hx]; [lia|].
  exists x. apply elem_of_list_to_map.
  - rewrite fst_zip by (rewrite length_seqZ; lia). apply NoDup_seqZ.
  - apply elem_of_lookup_zip_with. exists (Z.to_nat (k - 1)), k, x.
    split; [done|]. split; [|done]. apply lookup_seqZ. lia.
Qed.

Example maxheapsort_int_run :
  match maxheapsort_int 6 (array_of [5; 3; 9; 1; 7; 3]) 6 with
  | Ok m => Some (values m 6)
  | Err _ => None
  end
  = Some [1; 3; 3; 5; 7; 9].
Proof. vm_compute. reflexivity. Qed.

Example maxheapsort_double_run :
  match maxheapsort_double 4 (array_of [two; one; 3%float; zero])
          (array_of [10; 20; 30; 40]) 4 with
  | Ok (hv, hi) => Some (cells hv hi 4)
  | Err _ => None
  end
  = Some [(zero, 40); (one, 20); (two, 10); (3%float, 30)].
Proof. vm_compute. reflexivity. Qed.

(** C1, as stated, fails. The value-index overload does not return when
    [v[1]] is a NaN: whatever the budget, [max_heapify] is still in its
    loop. And for [n = 2^30] the [int] overload leaves the array: it
    faults on the array that holds zeros at [1 .. n] and nothing else. *)
Lemma maxheapsort_claim_fails :
  (defined (array_of [nan; one]) 1 2 /\ defined (array_of [1; 2]) 1 2 /\
   forall fuel,
     maxheapsort_double fuel (array_of [nan; one]) (array_of [1; 2]) 2
     = Err OutOfFuel) /\
  (defined zeros 1 1073741824 /\
   forall fuel, (2 <= fuel)%nat ->
     maxheapsort_int fuel zeros 1073741824 = Err OutOfBounds).
Proof.
  split; [split; [|split]|split].
  - apply (defined_array_of [nan; one]).
  - apply (defined_array_of [1; 2]).
  - apply maxheapsort_double_nan.
  - intros k Hk. rewrite zeros_lookup. rewrite decide_True by done. eauto.
  - intros fuel Hfuel. apply maxheapsort_int_overflow; [done| | |];
      rewrite zeros_lookup.
    + now rewrite decide_True by lia.
    + now rewrite decide_True by lia.
    + now rewrite decide_False by lia.
Qed.

(** C1, amended. For [0 <= n <= 2^30 - 1] (so that [2 * n] is an
    [int]) and an array whose positions [1 .. n] hold values,
    [maxheapsort(v, n)] returns with the positions [1 .. n] in
    non-decreasing order, a permutation of what they held, and with every
    other position as it was; nothing but the positions [1 .. n] needs
    to hold a value, and position 0 in particular is neither read nor
    written: the call on the array without its position 0 has the same
    outcome, without position 0. The value-index overload does the same to [v[1 .. n]] when
    none of these values is a NaN, and the pairs [(v[k], idx[k])] after
    the call are a permutation of the pairs before it. [fuel] is the
    number of iterations granted to each [while] loop: [n] are enough. *)
Theorem maxheapsort_sorts (fuel : nat) (n : Z)
    (v : gmap Z Z) (dv : gmap Z float) (idx : gmap Z Z) :
  0 <= n -> 2 * n <= CInt.INT_MAX -> (Z.to_nat n <= fuel)%nat ->
  defined v 1 n -> defined dv 1 n -> defined idx 1 n ->
  (forall k, 1 <= k <= n -> is_nan (dv !!! k) = false) ->
  (exists v',
     maxheapsort_int fuel v n = Ok v' /\
     defined v' 1 n /\ same_outside 1 n v v' /\
     Sorted Z.le (values v' n) /\
     values v' n ≡ₚ values v n /\
     maxheapsort_int fuel (delete 0 v) n = Ok (delete 0 v')) /\
  (exists dv' idx',
     maxheapsort_double fuel dv idx n = Ok (dv', idx') /\
     defined dv' 1 n /\ defined idx' 1 n /\
     same_outside 1 n dv dv' /\ same_outside 1 n idx idx' /\
     Sorted (fun a b => Double.le a b = true) (values dv' n) /\
     cells dv' idx' n ≡ₚ cells dv idx n /\
     maxheapsort_double fuel (delete 0 dv) (delete 0 idx) n
     = Ok (delete 0 dv', delete 0 idx')).
Proof.
  intros Hn Hmax Hfuel Hv Hdv Hidx Hnan. split.
  - now apply maxheapsort_int_spec.
  - now apply maxheapsort_double_spec.
Qed.

Lemma maxheapsort_sorts_witness :
  (exists v',
     maxheapsort_int 3 (array_of [5; 3; 9]) 3 = Ok v' /\
     defined v' 1 3 /\ same_outside 1 3 (array_of [5; 3; 9]) v' /\
     Sorted Z.le (values v' 3) /\
     values v' 3 ≡ₚ values (array_of [5; 3; 9]) 3 /\
     maxheapsort_int 3 (delete 0 (array_of [5; 3; 9])) 3 = Ok (delete 0 v')) /\
  (exists dv' idx',
     maxheapsort_double 3 (array_of [two; one; zero]) (array_of [10; 20; 30]) 3
     = Ok (dv', idx') /\
     defined dv' 1 3 /\ defined idx' 1 3 /\
     same_outside 1 3 (array_of [two; one; zero]) dv' /\
     same_outside 1 3 (array_of [10; 20; 30]) idx' /\
     Sorted (fun a b => Double.le a b = true) (values dv' 3) /\
     cells dv' idx' 3 ≡ₚ cells (array_of [two; one; zero]) (array_of [10; 20; 30]) 3 /\
     maxheapsort_double 3 (delete 0 (array_of [two; one; zero]))
       (delete 0 (array_of [10; 20; 30])) 3
     = Ok (delete 0 dv', delete 0 idx')).
Proof.
  apply (maxheapsort_sorts 3 3 (array_of [5; 3; 9]) (array_of [two; one; zero])
           (array_of [10; 20; 30])).
  - lia.
  - unfold CInt.INT_MAX. lia.
  - lia.
  - apply (defined_array_of [5; 3; 9]).
  - apply (defined_array_of [two; one; zero]).
  - apply (defined_array_of [10; 20; 30]).
  - intros k Hk.
    assert (k = 1 \/ k = 2 \/ k = 3) as [->|[->| ->]] by lia; reflexivity.
Defined.

(** *** The helpers as entry points of their own

    util/HighsSort.h declares [build_maxheap], [max_heapsort] and
    [max_heapify] beside [maxheapsort]. *)

(** Every position from [i] on is at least its children: with [i = 1]
    the positions [1 .. n] form a max-heap. The parent of [c] is
    [c / 2], as in [heap_v[j / 2] = heap_v[j]]. *)
Definition heap_from {K : Type} `{Inhabited K} (le : K -> K -> bool)
    (hv : gmap Z K) (i n : Z) : Prop :=
  forall c, i <= Z.quot c 2 -> c <= n ->
    le (hv !!! c) (hv !!! Z.quot c 2) = true.

Lemma heap_from_heap_at {K : Type} `{Inhabited K} (le : K -> K -> bool)
    (hv : gmap Z K) (i n : Z) :
  1 <= i ->
  (heap_from le hv i n <-> forall k, i <= k <= n -> heap_at le hv n k).
Proof.
  intros Hi. unfold heap_from, heap_at. split.
  - intros Hh k Hk c Hc Hcn.
    assert (Z.quot c 2 = k) as Hq.
    { destruct Hc as [-> | ->];
        [apply quot_double | apply quot_double_succ; lia]. }
    specialize (Hh c). rewrite Hq in Hh. apply Hh; lia.
  - intros Hh c Hq Hcn.
    assert (0 <= c) as Hc0.
    { destruct (Z.le_gt_cases 0 c) as [|Hneg]; [done|].
      pose proof (Z.quot_le_mono c 0 2 ltac:(lia) ltac:(lia)) as Hm.
      rewrite Z.quot_0_l in Hm by lia. lia. }
    pose proof (Z.quot_rem' c 2) as Hqr.
    pose proof (Z.rem_bound_pos c 2 Hc0 ltac:(lia)) as Hr.
    apply (Hh (Z.quot c 2)); lia.
Qed.

Lemma Z_gt_not_le (x y : Z) : True -> True -> (x >? y) = negb (x <=? y).
Proof. intros _ _. destruct (Z.gtb_spec x y), (Z.leb_spec x y); cbn; lia. Qed.

Lemma Z_leb_total (x y : Z) :
  True -> True -> (x <=? y) = true \/ (y <=? x) = true.
Proof. intros _ _. destruct (Z.leb_spec x y), (Z.leb_spec y x); auto; lia. Qed.

Lemma Z_leb_trans (x y z : Z) :
  True -> True -> True -> (x <=? y) = true -> (y <=? z) = true -> (x <=? z) = true.
Proof. intros _ _ _ Hxy Hyz. apply Z.leb_le in Hxy, Hyz. apply Z.leb_le. lia. Qed.

Lemma build_maxheap_int_sim fuel hv n :
  build_maxheap Z.gtb Z.leb fuel hv hv n
  = m ← build_maxheap_int fuel hv n; Ok (m, m).
Proof. apply build_maxheap_loop_int_sim. Qed.

Lemma max_heapsort_int_sim fuel hv n :
  max_heapsort Z.gtb Z.leb fuel hv hv n
  = m ← max_heapsort_int fuel hv n; Ok (m, m).
Proof. apply max_heapsort_loop_int_sim. Qed.

(** What is read off a run of the value-index code on an [int] array
    paired with itself. *)
Lemma int_run_of_pair {P : gmap Z Z -> gmap Z Z -> Prop} (r : result (gmap Z Z)) :
  (exists hv' hi', (m ← r; Ok (m, m)) = Ok (hv', hi') /\ P hv' hi') ->
  exists m, r = Ok m /\ P m m.
Proof.
  intros (hv' & hi' & Hrun & HP). destruct r as [m|e]; [|discriminate].
  cbn in Hrun. injection Hrun as <- <-. now exists m.
Qed.

Lemma heap_from_leaves {K : Type} `{Inhabited K} (le : K -> K -> bool)
    (hv : gmap Z K) (i n : Z) :
  0 <= n < 2 * i -> heap_from le hv i n.
Proof.
  intros Hn c Hq Hc.
  pose proof (Z.quot_le_mono c n 2 ltac:(lia) Hc) as Hm.
  pose proof (Z.quot_lt_upper_bound n 2 i ltac:(lia) ltac:(lia)). lia.
Qed.

(** X1. [max_heapify(heap_v, i, n)] sifts [heap_v[i]] down: when every
    position after [i] is at least its children, the call returns with
    every position from [i] on at least its children, having permuted
    the positions [1 .. n] and written nowhere outside [i .. n]. The
    value-index overload does so for values that hold no NaN, moving
    each index with its value. *)
Theorem max_heapify_sifts_down (fuel : nat) (i n : Z)
    (v : gmap Z Z) (dv : gmap Z float) (idx : gmap Z Z) :
  1 <= i <= n -> 2 * n <= CInt.INT_MAX -> (Z.to_nat n <= fuel)%nat ->
  defined v 1 n -> defined dv 1 n -> defined idx 1 n ->
  (forall k, 1 <= k <= n -> is_nan (dv !!! k) = false) ->
  heap_from Z.leb v (i + 1) n -> heap_from Double.le dv (i + 1) n ->
  (exists v',
     max_heapify_int fuel v i n = Ok v' /\
     heap_from Z.leb v' i n /\ same_outside i n v v' /\
     values v' n ≡ₚ values v n) /\
  (exists dv' idx',
     max_heapify Double.gt Double.le fuel dv idx i n = Ok (dv', idx') /\
     heap_from Double.le dv' i n /\
     same_outside i n dv dv' /\ same_outside i n idx idx' /\
     cells dv' idx' n ≡ₚ cells dv idx n).
Proof.
  intros Hi Hmax Hfuel Hv Hdv Hidx Hnan Hhv Hhd. split.
  - apply (int_run_of_pair (P := fun hv' hi' =>
             heap_from Z.leb hv' i n /\ same_outside i n v hv' /\
             values hv' n ≡ₚ values v n)).
    rewrite <- max_heapify_int_sim.
    destruct (max_heapify_spec Z.gtb Z.leb (fun _ => True)
                Z_gt_not_le Z_leb_total Z_leb_trans fuel v v i n)
      as (hv' & hi' & Hrun & _ & _ & _ & Hheap & Hsv & _ & Hperm); try done.
    { intros k Hk. apply (heap_from_heap_at Z.leb v (i + 1) n); [lia|done|lia]. }
    exists hv', hi'. split; [done|]. split; [|split; [done|]].
    + apply heap_from_heap_at; [lia|done].
    + rewrite (values_cells hv' hi'), (values_cells v v). now rewrite Hperm.
  - destruct (max_heapify_spec Double.gt Double.le (fun x => is_nan x = false)
                Double.gt_is_not_le Double.le_total
                (fun x y z _ _ _ => Double.le_trans x y z) fuel dv idx i n)
      as (hv' & hi' & Hrun & _ & _ & _ & Hheap & Hsv & Hsi & Hperm); try done.
    { intros k Hk. apply (heap_from_heap_at Double.le dv (i + 1) n); [lia|done|lia]. }
    exists hv', hi'. repeat split; try done.
    apply heap_from_heap_at; [lia|done].
Qed.

Lemma max_heapify_sifts_down_witness :
  (exists v',
     max_heapify_int 3 (array_of [1; 5; 3]) 1 3 = Ok v' /\
     heap_from Z.leb v' 1 3 /\ same_outside 1 3 (array_of [1; 5; 3]) v' /\
     values v' 3 ≡ₚ values (array_of [1; 5; 3]) 3) /\
  (exists dv' idx',
     max_heapify Double.gt Double.le 3 (array_of [zero; one; two])
       (array_of [10; 20; 30]) 1 3 = Ok (dv', idx') /\
     heap_from Double.le dv' 1 3 /\
     same_outside 1 3 (array_of [zero; one; two]) dv' /\
     same_outside 1 3 (array_of [10; 20; 30]) idx' /\
     cells dv' idx' 3 ≡ₚ cells (array_of [zero; one; two]) (array_of [10; 20; 30]) 3).
Proof.
  apply (max_heapify_sifts_down 3 1 3 (array_of [1; 5; 3])
           (array_of [zero; one; two]) (array_of [10; 20; 30])).
  - lia.
  - unfold CInt.INT_MAX. lia.
  - lia.
  - apply (defined_array_of [1; 5; 3]).
  - apply (defined_array_of [zero; one; two]).
  - apply (defined_array_of [10; 20; 30]).
  - intros k Hk.
    assert (k = 1 \/ k = 2 \/ k = 3) as [->|[->| ->]] by lia; reflexivity.
  - apply heap_from_leaves. lia.
  - apply heap_from_leaves. lia.
Defined.

(** X2. [build_maxheap(heap_v, n)] makes a max-heap of the positions
    [1 .. n]: it returns with every position at least its children, so
    that [heap_v[1]] is a largest value, having permuted the positions
    [1 .. n] and written nowhere else. The value-index overload does so
    for values that hold no NaN, moving each index with its value. *)
Theorem build_maxheap_builds_heap (fuel : nat) (n : Z)
    (v : gmap Z Z) (dv : gmap Z float) (idx : gmap Z Z) :
  0 <= n -> 2 * n <= CInt.INT_MAX -> (Z.to_nat n <= fuel)%nat ->
  defined v 1 n -> defined dv 1 n -> defined idx 1 n ->
  (forall k, 1 <= k <= n -> is_nan (dv !!! k) = false) ->
  (exists v',
     build_maxheap_int fuel v n = Ok v' /\
     heap_from Z.leb v' 1 n /\
     (forall k, 1 <= k <= n -> v' !!! k <= v' !!! 1) /\
     same_outside 1 n v v' /\ values v' n ≡ₚ values v n) /\
  (exists dv' idx',
     build_maxheap Double.gt Double.le fuel dv idx n = Ok (dv', idx') /\
     heap_from Double.le dv' 1 n /\
     (forall k, 1 <= k <= n -> Double.le (dv' !!! k) (dv' !!! 1) = true) /\
     same_outside 1 n dv dv' /\ same_outside 1 n idx idx' /\
     cells dv' idx' n ≡ₚ cells dv idx n).
Proof.
  intros Hn Hmax Hfuel Hv Hdv Hidx Hnan. split.
  - apply (int_run_of_pair (P := fun hv' hi' =>
             heap_from Z.leb hv' 1 n /\
             (forall k, 1 <= k <= n -> hv' !!! k <= hv' !!! 1) /\
             same_outside 1 n v hv' /\ values hv' n ≡ₚ values v n)).
    rewrite <- build_maxheap_int_sim.
    destruct (build_maxheap_spec Z.gtb Z.leb (fun _ => True)
                Z_gt_not_le Z_leb_total Z_leb_trans fuel n v v)
      as (hv' & hi' & Hrun & _ & _ & Hval & Hheap & Hsv & _ & Hperm); try done.
    exists hv', hi'. split; [done|]. split; [|split; [|split; [done|]]].
    + apply heap_from_heap_at; [lia|done].
    + intros k Hk. apply Z.leb_le.
      now apply (heap_root_max Z.leb (fun _ => True)
                   Z_leb_total Z_leb_trans hv' n).
    + rewrite (values_cells hv' hi'), (values_cells v v). now rewrite Hperm.
  - destruct (build_maxheap_spec Double.gt Double.le (fun x => is_nan x = false)
                Double.gt_is_not_le Double.le_total
                (fun x y z _ _ _ => Double.le_trans x y z) fuel n dv idx)
      as (hv' & hi' & Hrun & _ & _ & Hval & Hheap & Hsv & Hsi & Hperm); try done.
    exists hv', hi'. repeat split; try done.
    + apply heap_from_heap_at; [lia|done].
    + intros k Hk.
      now apply (heap_root_max Double.le (fun x => is_nan x = false)
                   Double.le_total
                   (fun x y z _ _ _ => Double.le_trans x y z) hv' n).
Qed.

Lemma build_maxheap_builds_heap_witness :
  (exists v',
     build_maxheap_int 3 (array_of [1; 5; 3]) 3 = Ok v' /\
     heap_from Z.leb v' 1 3 /\
     (forall k, 1 <= k <= 3 -> v' !!! k <= v' !!! 1) /\
     same_outside 1 3 (array_of [1; 5; 3]) v' /\
     values v' 3 ≡ₚ values (array_of [1; 5; 3]) 3) /\
  (exists dv' idx',
     build_maxheap Double.gt Double.le 3 (array_of [zero; one; two])
       (array_of [10; 20; 30]) 3 = Ok (dv', idx') /\
     heap_from Double.le dv' 1 3 /\
     (forall k, 1 <= k <= 3 -> Double.le (dv' !!! k) (dv' !!! 1) = true) /\
     same_outside 1 3 (array_of [zero; one; two]) dv' /\
     same_outside 1 3 (array_of [10; 20; 30]) idx' /\
     cells dv' idx' 3 ≡ₚ cells (array_of [zero; one; two]) (array_of [10; 20; 30]) 3).
Proof.
  apply (build_maxheap_builds_heap 3 3 (array_of [1; 5; 3])
           (array_of [zero; one; two]) (array_of [10; 20; 30])).
  - lia.
  - unfold CInt.INT_MAX. lia.
  - lia.
  - apply (defined_array_of [1; 5; 3]).
  - apply (defined_array_of [zero; one; two]).
  - apply (defined_array_of [10; 20; 30]).
  - intros k Hk.
    assert (k = 1 \/ k = 2 \/ k = 3) as [->|[->| ->]] by lia; reflexivity.
Defined.

(** X3. [max_heapsort(heap_v, n)] sorts a heap: when every position of
    [1 .. n] is at least its children, it returns with the positions
    [1 .. n] in non-decreasing order, a permutation of what they held,
    and with every other position as it was. The value-index overload
    does so for values that hold no NaN, moving each index with its
    value. *)
Theorem max_heapsort_sorts_heap (fuel : nat) (n : Z)
    (v : gmap Z Z) (dv : gmap Z float) (idx : gmap Z Z) :
  0 <= n -> 2 * n <= CInt.INT_MAX -> (Z.to_nat n <= fuel)%nat ->
  defined v 1 n -> defined dv 1 n -> defined idx 1 n ->
  (forall k, 1 <= k <= n -> is_nan (dv !!! k) = false) ->
  heap_from Z.leb v 1 n -> heap_from Double.le dv 1 n ->
  (exists v',
     max_heapsort_int fuel v n = Ok v' /\
     Sorted Z.le (values v' n) /\ same_outside 1 n v v' /\
     values v' n ≡ₚ values v n) /\
  (exists dv' idx',
     max_heapsort Double.gt Double.le fuel dv idx n = Ok (dv', idx') /\
     Sorted (fun a b => Double.le a b = true) (values dv' n) /\
     same_outside 1 n dv dv' /\ same_outside 1 n idx idx' /\
     cells dv' idx' n ≡ₚ cells dv idx n).
Proof.
  intros Hn Hmax Hfuel Hv Hdv Hidx Hnan Hhv Hhd. split.
  - apply (int_run_of_pair (P := fun hv' hi' =>
             Sorted Z.le (values hv' n) /\ same_outside 1 n v hv' /\
             values hv' n ≡ₚ values v n)).
    rewrite <- max_heapsort_int_sim.
    destruct (max_heapsort_loop_spec Z.gtb Z.leb (fun _ => True)
                Z_gt_not_le Z_leb_total Z_leb_trans fuel n (Z.to_nat (n - 1))
                Hmax Hfuel n v v)
      as (hv' & hi' & Hrun & _ & _ & Hsorted & Hsv & _ & Hperm);
      try done; try lia.
    { now apply heap_from_heap_at. }
    exists hv', hi'. split; [done|]. split; [|split; [done|]].
    + apply sorted_values. intros a b Hab Hb. apply Z.leb_le. now apply Hsorted.
    + rewrite (values_cells hv' hi'), (values_cells v v). now rewrite Hperm.
  - destruct (max_heapsort_loop_spec Double.gt Double.le (fun x => is_nan x = false)
                Double.gt_is_not_le Double.le_total
                (fun x y z _ _ _ => Double.le_trans x y z)
                fuel n (Z.to_nat (n - 1)) Hmax Hfuel n dv idx)
      as (hv' & hi' & Hrun & _ & _ & Hsorted & Hsv & Hsi & Hperm);
      try done; try lia.
    { now apply heap_from_heap_at. }
    exists hv', hi'. repeat split; try done.
    now apply sorted_values.
Qed.

Lemma max_heapsort_sorts_heap_witness :
  (exists v',
     max_heapsort_int 3 (array_of [9; 5; 3]) 3 = Ok v' /\
     Sorted Z.le (values v' 3) /\ same_outside 1 3 (array_of [9; 5; 3]) v' /\
     values v' 3 ≡ₚ values (array_of [9; 5; 3]) 3) /\
  (exists dv' idx',
     max_heapsort Double.gt Double.le 3 (array_of [two; one; zero])
       (array_of [10; 20; 30]) 3 = Ok (dv', idx') /\
     Sorted (fun a b => Double.le a b = true) (values dv' 3) /\
     same_outside 1 3 (array_of [two; one; zero]) dv' /\
     same_outside 1 3 (array_of [10; 20; 30]) idx' /\
     cells dv' idx' 3 ≡ₚ cells (array_of [two; one; zero]) (array_of [10; 20; 30]) 3).
Proof.
  apply (max_heapsort_sorts_heap 3 3 (array_of [9; 5; 3])
           (array_of [two; one; zero]) (array_of [10; 20; 30])).
  - lia.
  - unfold CInt.INT_MAX. lia.
  - lia.
  - apply (defined_array_of [9; 5; 3]).
  - apply (defined_array_of [two; one; zero]).
  - apply (defined_array_of [10; 20; 30]).
  - intros k Hk.
    assert (k = 1 \/ k = 2 \/ k = 3) as [->|[->| ->]] by lia; reflexivity.
  - apply heap_from_heap_at; [lia|]. intros k Hk c Hc Hcn.
    assert (c = 2 \/ c = 3) as [-> | ->] by lia;
      assert (k = 1) as -> by lia; reflexivity.
  - apply heap_from_heap_at; [lia|]. intros k Hk c Hc Hcn.
    assert (c = 2 \/ c = 3) as [-> | ->] by lia;
      assert (k = 1) as -> by lia; reflexivity.
Defined.

(** X4. With [n <= 1], a zero or negative count included, both
    overloads of [maxheapsort] return at once: no position is read and
    the arrays are as they were, whatever they hold. *)
Theorem maxheapsort_short (fuel : nat) (n : Z)
    (v : gmap Z Z) (dv : gmap Z float) (idx : gmap Z Z) :
  n <= 1 ->
  maxheapsort_int fuel v n = Ok v /\
  maxheapsort_double fuel dv idx n = Ok (dv, idx).
Proof.
  intros Hn.
  assert (Z.to_nat (Z.quot n 2) = 0%nat) as Hq.
  { pose proof (Z.quot_le_mono n 1 2 ltac:(lia) Hn) as Hm.
    change (Z.quot 1 2) with 0 in Hm. lia. }
  assert (Z.to_nat (n - 1) = 0%nat) as Hs by lia.
  unfold maxheapsort_int, build_maxheap_int, max_heapsort_int,
    maxheapsort_double, maxheapsort, build_maxheap, max_heapsort.
  rewrite Hq, Hs. split; reflexivity.
Qed.

Lemma maxheapsort_short_witness :
  maxheapsort_int 0 ∅ 1 = Ok ∅ /\
  maxheapsort_double 0 (array_of [nan]) ∅ 1 = Ok (array_of [nan], ∅).
Proof. apply (maxheapsort_short 0 1 ∅ (array_of [nan]) ∅). lia. Defined.

(** *** The sorted array is determined by the values *)

Lemma sorted_perm_eq (l1 l2 : list Z) :
  Sorted Z.le l1 -> Sorted Z.le l2 -> l1 ≡ₚ l2 -> l1 = l2.
Proof.
  intros H1 H2.
  apply Sorted_StronglySorted in H1; [|intros x y z; apply Z.le_trans].
  apply Sorted_StronglySorted in H2; [|intros x y z; apply Z.le_trans].
  revert l2 H2. induction H1 as [|x l1 Hs1 IH Hx]; intros l2 H2 Hp.
  - now apply Permutation_nil_l in Hp.
  - destruct H2 as [|y l2 Hs2 Hy].
    { now apply Permutation_nil_r in Hp. }
    assert (x = y) as ->.
    { assert (x ∈ y :: l2) as Hin1 by (rewrite <- Hp; left).
      assert (y ∈ x :: l1) as Hin2 by (rewrite Hp; left).
      apply elem_of_cons in Hin1 as [|Hin1]; [done|].
      apply elem_of_cons in Hin2 as [|Hin2]; [done|].
      rewrite Forall_forall in Hx, Hy.
      apply Hx in Hin2. apply Hy in Hin1. lia. }
    f_equal. apply IH; [done|]. now apply Permutation_cons_inv in Hp.
Qed.

Lemma values_lookup {A : Type} `{Inhabited A} (m : gmap Z A) (n k : Z) :
  1 <= k <= n -> values m n !! Z.to_nat (k - 1) = Some (m !!! k).
Proof.
  intros Hk. unfold values. rewrite list_lookup_fmap.
  rewrite (lookup_seqZ_lt 1 n (Z.to_nat (k - 1))) by lia.
  cbn. f_equal. f_equal. lia.
Qed.

(** Two arrays that hold the same values at [1 .. n], and the same
    things elsewhere, are one array. *)
Lemma values_same_outside_eq {A : Type} `{Inhabited A} (m m' : gmap Z A) (n : Z) :
  defined m 1 n -> defined m' 1 n -> same_outside 1 n m m' ->
  values m' n = values m n -> m' = m.
Proof.
  intros Hd Hd' Hs Hv. apply map_eq. intros k.
  destruct (decide (1 <= k <= n)) as [Hk|Hk]; [|now apply Hs].
  pose proof (values_lookup m n k Hk) as H1.
  pose proof (values_lookup m' n k Hk) as H2.
  rewrite Hv, H1 in H2. injection H2 as H2.
  destruct (Hd k Hk) as [x Hx]. destruct (Hd' k Hk) as [x' Hx'].
  rewrite (lookup_total_correct _ _ _ Hx) in H2.
  rewrite (lookup_total_correct _ _ _ Hx') in H2.
  now rewrite Hx, Hx', H2.
Qed.

(** X5. [maxheapsort(heap_v, n)] leaves an array that is already in
    non-decreasing order exactly as it is: sorting twice is sorting
    once. *)
Theorem maxheapsort_int_fixes_sorted (fuel : nat) (n : Z) (v : gmap Z Z) :
  0 <= n -> 2 * n <= CInt.INT_MAX -> (Z.to_nat n <= fuel)%nat ->
  defined v 1 n ->
  (Sorted Z.le (values v n) -> maxheapsort_int fuel v n = Ok v) /\
  (exists v', maxheapsort_int fuel v n = Ok v' /\
     maxheapsort_int fuel v' n = Ok v').
Proof.
  intros Hn Hmax Hfuel Hv.
  assert (forall m : gmap Z Z, defined m 1 n -> Sorted Z.le (values m n) ->
            maxheapsort_int fuel m n = Ok m) as Hfix.
  { intros m Hm Hsorted.
    destruct (maxheapsort_int_spec fuel n m Hn Hmax Hfuel Hm)
      as (m' & Hrun & Hm' & Hsame & Hsorted' & Hperm & _).
    rewrite Hrun. f_equal.
    apply (values_same_outside_eq m m' n); try done.
    now apply sorted_perm_eq. }
  split; [now apply Hfix|].
  destruct (maxheapsort_int_spec fuel n v Hn Hmax Hfuel Hv)
    as (v' & Hrun & Hv' & _ & Hsorted & _).
  exists v'. split; [done|]. now apply Hfix.
Qed.

Lemma maxheapsort_int_fixes_sorted_witness :
  (Sorted Z.le (values (array_of [1; 2; 2]) 3) ->
   maxheapsort_int 3 (array_of [1; 2; 2]) 3 = Ok (array_of [1; 2; 2])) /\
  (exists v', maxheapsort_int 3 (array_of [1; 2; 2]) 3 = Ok v' /\
     maxheapsort_int 3 v' 3 = Ok v').
Proof.
  apply (maxheapsort_int_fixes_sorted 3 3 (array_of [1; 2; 2])).
  - lia.
  - unfold CInt.INT_MAX. lia.
  - lia.
  - apply (defined_array_of [1; 2; 2]).
Defined.

(** X6. What [maxheapsort(heap_v, n)] leaves at the positions [1 .. n]
    depends on the values there and not on their order: two arrays that
    hold the same values, each as often as in the other, are sorted
    into the same sequence. *)
Theorem maxheapsort_int_order_blind (fuel : nat) (n : Z) (v w : gmap Z Z) :
  0 <= n -> 2 * n <= CInt.INT_MAX -> (Z.to_nat n <= fuel)%nat ->
  defined v 1 n -> defined w 1 n ->
  values v n ≡ₚ values w n ->
  exists v' w',
    maxheapsort_int fuel v n = Ok v' /\ maxheapsort_int fuel w n = Ok w' /\
    values v' n = values w' n.
Proof.
  intros Hn Hmax Hfuel Hv Hw Hperm.
  destruct (maxheapsort_int_spec fuel n v Hn Hmax Hfuel Hv)
    as (v' & Hrunv & _ & _ & Hsv & Hpv & _).
  destruct (maxheapsort_int_spec fuel n w Hn Hmax Hfuel Hw)
    as (w' & Hrunw & _ & _ & Hsw & Hpw & _).
  exists v', w'. split; [done|]. split; [done|].
  apply sorted_perm_eq; try done.
  now rewrite Hpv, Hpw.
Qed.

Lemma maxheapsort_int_order_blind_witness :
  exists v' w',
    maxheapsort_int 3 (array_of [5; 3; 9]) 3 = Ok v' /\
    maxheapsort_int 3 (array_of [9; 5; 3]) 3 = Ok w' /\
    values v' 3 = values w' 3.
Proof.
  apply (maxheapsort_int_order_blind 3 3 (array_of [5; 3; 9]) (array_of [9; 5; 3])).
  - lia.
  - unfold CInt.INT_MAX. lia.
  - lia.
  - apply (defined_array_of [5; 3; 9]).
  - apply (defined_array_of [9; 5; 3]).
  - change (values (array_of [5; 3; 9]) 3) with [5; 3; 9].
    change (values (array_of [9; 5; 3]) 3) with [9; 5; 3].
    symmetry. apply (Permutation_cons_append [5; 3] 9).
Defined.

(** *** The sorted array passes [increasing_set_ok] *)

Lemma length_values {A : Type} `{Inhabited A} (m : gmap Z A) (n : Z) :
  length (values m n) = Z.to_nat n.
Proof. unfold values. now rewrite length_fmap, length_seqZ. Qed.

Lemma Forall_values {A : Type} `{Inhabited A} (P : A -> Prop) (m : gmap Z A) (n : Z) :
  (forall k, 1 <= k <= n -> P (m !!! k)) -> Forall P (values m n).
Proof.
  intros HP. unfold values. apply Forall_fmap, Forall_forall.
  intros k Hk. apply elem_of_seqZ in Hk. cbn. apply HP. lia.
Qed.

(** X7. The two halves of util/HighsSort.cpp agree. What
    [maxheapsort] leaves at the positions [1 .. n] is accepted by
    [increasing_set_ok(heap_v + 1, n, lo, hi)] whenever every value lies
    within the bounds the test enforces: [lo .. hi] when [lo <= hi], and
    from minus the infinite value on when the bounds are switched off.
    For the value-index overload the values hold no NaN. *)
Theorem maxheapsort_then_increasing_set_ok
    (I_INF : Z) (INF : float) (fuel : nat) (n : Z)
    (v : gmap Z Z) (lo hi : Z)
    (dv : gmap Z float) (idx : gmap Z Z) (dlo dhi : float) :
  0 < I_INF <= CInt.INT_MAX ->
  0 <= n -> 2 * n <= CInt.INT_MAX -> (Z.to_nat n <= fuel)%nat ->
  defined v 1 n -> defined dv 1 n -> defined idx 1 n ->
  (forall k, 1 <= k <= n -> is_nan (dv !!! k) = false) ->
  (forall k, 1 <= k <= n ->
     if lo <=? hi then lo <= v !!! k <= hi else - I_INF <= v !!! k) ->
  (forall k, 1 <= k <= n ->
     if Double.le dlo dhi
     then Double.le dlo (dv !!! k) = true /\ Double.le (dv !!! k) dhi = true
     else Double.lt (dv !!! k) (PrimFloat.opp INF) = false) ->
  (exists v',
     maxheapsort_int fuel v n = Ok v' /\
     increasing_set_ok_int I_INF (Some (values v' n)) n lo hi = Ok true) /\
  (exists dv' idx',
     maxheapsort_double fuel dv idx n = Ok (dv', idx') /\
     increasing_set_ok_double INF (Some (values dv' n)) n dlo dhi = Ok true).
Proof.
  intros HI Hn Hmax Hfuel Hv Hdv Hidx Hnan Hin Hdin.
  assert (n <= CInt.INT_MAX) as Hn' by lia. split.
  - destruct (maxheapsort_int_spec fuel n v Hn Hmax Hfuel Hv)
      as (v' & Hrun & _ & _ & Hsorted & Hperm & _).
    exists v'. split; [done|].
    destruct (increasing_set_ok_int_spec I_INF (Some (values v' n)) n lo hi HI Hn')
      as (b & Hb & Hiff).
    { intros s [= <-]. rewrite length_values. lia. }
    rewrite Hb. f_equal. apply Hiff. exists (values v' n).
    rewrite take_ge by (rewrite length_values; lia).
    repeat split; try done.
    rewrite Hperm. now apply Forall_values.
  - destruct (maxheapsort_double_spec fuel n dv idx Hn Hmax Hfuel Hdv Hidx Hnan)
      as (dv' & idx' & Hrun & _ & _ & _ & _ & Hsorted & Hperm & _).
    exists dv', idx'. split; [done|].
    assert (values dv' n ≡ₚ values dv n) as Hpv.
    { rewrite (values_cells dv' idx'), (values_cells dv idx). now rewrite Hperm. }
    destruct (increasing_set_ok_double_spec INF (Some (values dv' n)) n dlo dhi Hn')
      as (b & Hb & Hiff).
    { intros s [= <-]. rewrite length_values. split; [lia|].
      rewrite take_ge by (rewrite length_values; lia).
      rewrite Hpv. now apply Forall_values. }
    rewrite Hb. f_equal. apply Hiff. exists (values dv' n).
    rewrite take_ge by (rewrite length_values; lia).
    repeat split; try done.
    rewrite Hpv. now apply Forall_values.
Qed.

Lemma maxheapsort_then_increasing_set_ok_witness :
  (exists v',
     maxheapsort_int 3 (array_of [5; 3; 9]) 3 = Ok v' /\
     increasing_set_ok_int CInt.INT_MAX (Some (values v' 3)) 3 0 10 = Ok true) /\
  (exists dv' idx',
     maxheapsort_double 3 (array_of [two; one; zero]) (array_of [10; 20; 30]) 3
     = Ok (dv', idx') /\
     increasing_set_ok_double infinity (Some (values dv' 3)) 3 one zero = Ok true).
Proof.
  apply (maxheapsort_then_increasing_set_ok CInt.INT_MAX infinity 3 3
           (array_of [5; 3; 9]) 0 10
           (array_of [two; one; zero]) (array_of [10; 20; 30]) one zero).
  - unfold CInt.INT_MAX. lia.
  - lia.
  - unfold CInt.INT_MAX. lia.
  - lia.
  - apply (defined_array_of [5; 3; 9]).
  - apply (defined_array_of [two; one; zero]).
  - apply (defined_array_of [10; 20; 30]).
  - intros k Hk.
    assert (k = 1 \/ k = 2 \/ k = 3) as [->|[->| ->]] by lia; reflexivity.
  - intros k Hk. change (0 <=? 10) with true. cbn match.
    assert (k = 1 \/ k = 2 \/ k = 3) as [->|[->| ->]] by lia;
      [change (array_of [5; 3; 9] !!! 1) with 5
      |change (array_of [5; 3; 9] !!! 2) with 3
      |change (array_of [5; 3; 9] !!! 3) with 9]; lia.
  - intros k Hk. change (Double.le one zero) with false. cbn match.
    assert (k = 1 \/ k = 2 \/ k = 3) as [->|[->| ->]] by lia; reflexivity.
Defined.

(** *** [increasing_set_ok] and the size of the array *)

(** A test that succeeds has read every entry it was asked about. *)
Lemma increasing_loop_int_true_length set cb hi steps :
  forall k prev,
    increasing_loop_int set cb hi steps k prev = Ok true ->
    0 <= k -> k + Z.of_nat steps <= CInt.INT_MAX -> (0 < steps)%nat ->
    k + Z.of_nat steps <= Z.of_nat (length set).
Proof.
  induction steps as [|steps IH]; intros k prev Hrun Hk Hmax Hpos; [lia|].
  cbn [increasing_loop_int] in Hrun. unfold vget in Hrun.
  destruct (Z.ltb_spec k 0); [lia|].
  destruct (set !! Z.to_nat k) as [entry|] eqn:He; [|discriminate].
  apply lookup_lt_Some in He. cbn [mbind result_bind] in Hrun.
  destruct (entry <? prev); [discriminate|].
  destruct (cb && (entry >? hi)); [discriminate|].
  destruct steps as [|steps']; [lia|].
  rewrite CInt.wrap_id in Hrun
    by (unfold CInt.in_range, CInt.INT_MIN, CInt.INT_MAX in *; lia).
  apply IH in Hrun; lia.
Qed.

Lemma strongly_sorted_take {A : Type} (R : A -> A -> Prop) (l : list A) (n : nat) :
  StronglySorted R l -> StronglySorted R (take n l).
Proof.
  intros Hs. revert n. induction Hs as [|x l Hs IH Hx]; intros [|n]; cbn;
    constructor; [apply IH | now apply Forall_take].
Qed.

(** X8. A set that [increasing_set_ok] accepts is accepted with
    fewer entries and with wider bounds: from [set, k, lo, hi] to
    [set, k', lo', hi'] with [0 <= k' <= k] and [lo' <= lo <= hi <= hi'];
    and with the bounds switched off ([hi < lo]) to any other bounds
    that are switched off. *)
Theorem increasing_set_ok_int_widens (I_INF : Z) (set : option (list Z))
    (k lo hi k' lo' hi' : Z) :
  0 < I_INF <= CInt.INT_MAX -> k <= CInt.INT_MAX ->
  increasing_set_ok_int I_INF set k lo hi = Ok true ->
  0 <= k' <= k ->
  (lo <= hi -> lo' <= lo /\ hi <= hi') ->
  (hi < lo -> hi' < lo') ->
  increasing_set_ok_int I_INF set k' lo' hi' = Ok true.
Proof.
  intros HI Hk Hrun Hk' Hin Hout.
  destruct set as [s|]; cycle 1.
  { unfold increasing_set_ok_int in Hrun.
    destruct (k <? 0); discriminate. }
  assert (k <= Z.of_nat (length s)) as Hlen.
  { destruct (decide (k <= 0)) as [|Hpos]; [lia|].
    unfold increasing_set_ok_int in Hrun.
    destruct (Z.ltb_spec k 0); [lia|].
    apply increasing_loop_int_true_length in Hrun; lia. }
  destruct (increasing_set_ok_int_spec I_INF (Some s) k lo hi HI Hk)
    as (b & Hb & Hiff); [intros ? [= <-]; lia|].
  rewrite Hrun in Hb. injection Hb as <-.
  destruct Hiff as [Hiff _].
  destruct (Hiff eq_refl) as (s0 & [= <-] & _ & Hsorted & Hall).
  destruct (increasing_set_ok_int_spec I_INF (Some s) k' lo' hi' HI)
    as (b' & Hb' & Hiff'); [lia|intros ? [= <-]; lia|].
  rewrite Hb'. f_equal. apply Hiff'. exists s.
  assert (take (Z.to_nat k') s = take (Z.to_nat k') (take (Z.to_nat k) s)) as Ht.
  { rewrite take_take. f_equal. lia. }
  rewrite Ht. repeat split; [lia| |].
  - apply StronglySorted_Sorted.
    apply strongly_sorted_take.
    apply Sorted_StronglySorted; [intros x y z; apply Z.le_trans|done].
  - apply Forall_take. eapply Forall_impl; [exact Hall|].
    intros e He. cbn beta in *.
    destruct (Z.leb_spec lo hi), (Z.leb_spec lo' hi'); lia.
Qed.

Lemma increasing_set_ok_int_widens_witness :
  increasing_set_ok_int CInt.INT_MAX (Some [1; 2; 2; 5]) 3 (-1) 7 = Ok true.
Proof.
  apply (increasing_set_ok_int_widens CInt.INT_MAX (Some [1; 2; 2; 5]) 4 0 5 3 (-1) 7).
  - unfold CInt.INT_MAX. lia.
  - unfold CInt.INT_MAX. lia.
  - reflexivity.
  - lia.
  - lia.
  - lia.
Defined.

Lemma increasing_loop_int_past_end set cb hi m steps :
  forall k prev,
    0 <= k -> k + Z.of_nat steps = Z.of_nat (length set) ->
    Z.of_nat (length set) <= CInt.INT_MAX ->
    increasing_loop_int set cb hi (steps + S m) k prev
    = match increasing_loop_int set cb hi steps k prev with
      | Ok true => Err OutOfBounds
      | r => r
      end.
Proof.
  induction steps as [|steps IH]; intros k prev Hk Hlen Hmax.
  - cbn [Nat.add increasing_loop_int]. unfold vget.
    destruct (Z.ltb_spec k 0); [lia|].
    rewrite lookup_ge_None_2 by lia. reflexivity.
  - cbn [Nat.add increasing_loop_int].
    destruct (vget_in_range set k) as (entry & -> & _); [lia|].
    cbn [mbind result_bind].
    destruct (entry <? prev); [reflexivity|].
    destruct (cb && (entry >? hi)); [reflexivity|].
    rewrite CInt.wrap_id
      by (unfold CInt.in_range, CInt.INT_MIN, CInt.INT_MAX in *; lia).
    apply IH; lia.
Qed.

Lemma increasing_loop_double_past_end set cb hi m steps :
  forall k prev,
    0 <= k -> k + Z.of_nat steps = Z.of_nat (length set) ->
    Z.of_nat (length set) <= CInt.INT_MAX ->
    increasing_loop_double set cb hi (steps + S m) k prev
    = match increasing_loop_double set cb hi steps k prev with
      | Ok true => Err OutOfBounds
      | r => r
      end.
Proof.
  induction steps as [|steps IH]; intros k prev Hk Hlen Hmax.
  - cbn [Nat.add increasing_loop_double]. unfold vget.
    destruct (Z.ltb_spec k 0); [lia|].
    rewrite lookup_ge_None_2 by lia. reflexivity.
  - cbn [Nat.add increasing_loop_double].
    destruct (vget_in_range set k) as (entry & -> & _); [lia|].
    cbn [mbind result_bind].
    destruct (Double.lt entry prev); [reflexivity|].
    destruct (cb && Double.gt entry hi); [reflexivity|].
    rewrite CInt.wrap_id
      by (unfold CInt.in_range, CInt.INT_MIN, CInt.INT_MAX in *; lia).
    apply IH; lia.
Qed.

(** X9. [increasing_set_ok] trusts [set_num_entries]. Asked about
    more entries than the array holds, it answers [false] if the
    entries that are there fail the test, and otherwise reads
    [set[size]], past the end of the array. *)
Theorem increasing_set_ok_reads_past_end (I_INF : Z) (INF : float)
    (s : list Z) (k lo hi : Z) (ds : list float) (kd : Z) (dlo dhi : float) :
  Z.of_nat (length s) < k <= CInt.INT_MAX ->
  Z.of_nat (length ds) < kd <= CInt.INT_MAX ->
  increasing_set_ok_int I_INF (Some s) k lo hi
  = match increasing_set_ok_int I_INF (Some s) (Z.of_nat (length s)) lo hi with
    | Ok true => Err OutOfBounds
    | r => r
    end /\
  increasing_set_ok_double INF (Some ds) kd dlo dhi
  = match increasing_set_ok_double INF (Some ds) (Z.of_nat (length ds)) dlo dhi with
    | Ok true => Err OutOfBounds
    | r => r
    end.
Proof.
  intros Hk Hkd. split.
  - unfold increasing_set_ok_int.
    destruct (Z.ltb_spec k 0); [lia|].
    destruct (Z.ltb_spec (Z.of_nat (length s)) 0); [lia|].
    replace (Z.to_nat k)
      with (Z.to_nat (Z.of_nat (length s)) + S (Z.to_nat (k - Z.of_nat (length s) - 1)))%nat
      by lia.
    apply increasing_loop_int_past_end; lia.
  - unfold increasing_set_ok_double.
    destruct (Z.ltb_spec kd 0); [lia|].
    destruct (Z.ltb_spec (Z.of_nat (length ds)) 0); [lia|].
    replace (Z.to_nat kd)
      with (Z.to_nat (Z.of_nat (length ds)) + S (Z.to_nat (kd - Z.of_nat (length ds) - 1)))%nat
      by lia.
    apply increasing_loop_double_past_end; lia.
Qed.

Lemma increasing_set_ok_reads_past_end_witness :
  increasing_set_ok_int CInt.INT_MAX (Some [1; 2]) 3 0 5
  = match increasing_set_ok_int CInt.INT_MAX (Some [1; 2])
            (Z.of_nat (length [1; 2])) 0 5 with
    | Ok true => Err OutOfBounds
    | r => r
    end /\
  increasing_set_ok_double infinity (Some [two; one]) 5 zero two
  = match increasing_set_ok_double infinity (Some [two; one])
            (Z.of_nat (length [two; one])) zero two with
    | Ok true => Err OutOfBounds
    | r => r
    end.
Proof.
  apply (increasing_set_ok_reads_past_end CInt.INT_MAX infinity
           [1; 2] 3 0 5 [two; one] 5 zero two).
  - cbn. unfold CInt.INT_MAX. lia.
  - cbn. unfold CInt.INT_MAX. lia.
Defined.

(** *** A NaN among the values *)

Lemma nan_compares_false (x y : float) :
  is_nan x = true \/ is_nan y = true ->
  Double.gt x y = false /\ Double.le x y = false.
Proof.
  intros Hnan. split.
  - destruct (Double.gt x y) eqn:E; [|done].
    apply Double.lt_true_not_nan in E as [? ?]. destruct Hnan; congruence.
  - destruct (Double.le x y) eqn:E; [|done].
    apply Double.le_true_not_nan in E as [? ?]. destruct Hnan; congruence.
Qed.

(** The choice between the two children of a position, in an array that
    holds values at [1 .. size]. *)
Lemma select_child (hv : gmap Z float) (j n size : Z) :
  1 <= j <= n -> n <= size -> size < CInt.INT_MAX -> defined hv 1 size ->
  exists j1,
    (if j <? n
     then a ← load hv (CInt.wrap (j + 1));
          b ← load hv j;
          mret (if Double.gt a b then CInt.wrap (j + 1) else j)
     else mret j) = Ok j1 /\
    (j1 = j \/
     (j1 = j + 1 /\ j < n /\ Double.gt (hv !!! (j + 1)) (hv !!! j) = true)).
Proof.
  intros Hj Hn Hsize Hd.
  destruct (Z.ltb_spec j n) as [Hlt|Hge]; [|exists j; split; [done|now left]].
  rewrite CInt.wrap_id
    by (unfold CInt.in_range, CInt.INT_MIN, CInt.INT_MAX in *; lia).
  rewrite (load_defined hv (j + 1)) by (apply Hd; lia).
  rewrite (load_defined hv j) by (apply Hd; lia).
  cbn [mbind result_bind mret result_ret].
  destruct (Double.gt (hv !!! (j + 1)) (hv !!! j)) eqn:E.
  - exists (j + 1). split; [done|]. right. done.
  - exists j. split; [done|now left].
Qed.

(** With a NaN in [temp_v] the loop of [max_heapify] never ends. *)
Lemma heapify_while_nan_temp (size : Z) (tv : float) (n : Z) (fuel : nat) :
  is_nan tv = true -> n <= size -> size < CInt.INT_MAX ->
  forall (hv : gmap Z float) (hi : gmap Z Z) (j : Z),
    defined hv 1 size -> 1 <= j <= n ->
    heapify_while Double.gt Double.le fuel hv hi tv j n = Err OutOfFuel.
Proof.
  intros Hnan Hn Hsize. induction fuel as [|fuel IH]; intros hv hi j Hd Hj;
    cbn [heapify_while]; destruct (Z.leb_spec j n); try lia; [done|].
  destruct (select_child hv j n size Hj Hn Hsize Hd) as (j1 & -> & Hj1).
  cbn [mbind result_bind].
  rewrite (load_defined hv j1) by (apply Hd; lia).
  cbn [mbind result_bind].
  destruct (nan_compares_false tv (hv !!! j1)) as [-> ->]; [now left|].
  apply IH; [done|lia].
Qed.

(** With a NaN in [heap_v[j]] neither. *)
Lemma heapify_while_nan_child (size : Z) (tv : float) (n : Z) (fuel : nat)
    (hv : gmap Z float) (hi : gmap Z Z) (j : Z) :
  n <= size -> size < CInt.INT_MAX ->
  defined hv 1 size -> 1 <= j <= n -> is_nan (hv !!! j) = true ->
  heapify_while Double.gt Double.le fuel hv hi tv j n = Err OutOfFuel.
Proof.
  intros Hn Hsize Hd Hj Hnan. induction fuel as [|fuel IH];
    cbn [heapify_while]; destruct (Z.leb_spec j n); try lia; [done|].
  destruct (select_child hv j n size Hj Hn Hsize Hd) as (j1 & -> & Hj1).
  cbn [mbind result_bind].
  assert (j1 = j) as ->.
  { destruct Hj1 as [|(_ & _ & Hgt)]; [done|].
    destruct (nan_compares_false (hv !!! (j + 1)) (hv !!! j)) as [E _];
      [now right|congruence]. }
  rewrite (load_defined hv j) by (apply Hd; lia).
  cbn [mbind result_bind].
  destruct (nan_compares_false tv (hv !!! j)) as [-> ->]; [now right|].
  exact IH.
Qed.

(** What a call leaves of a NaN at the position [p]: it is still
    there. *)
Definition nan_kept (size p : Z) (hv : gmap Z float) (hi : gmap Z Z) : Prop :=
  defined hv 1 size /\ defined hi 1 size /\ is_nan (hv !!! p) = true.

Lemma heapify_while_nan_kept (size p : Z) (tv : float) (n : Z) (fuel : nat) :
  n <= size -> 2 * size <= CInt.INT_MAX -> 1 <= p <= size ->
  forall (hv : gmap Z float) (hi : gmap Z Z) (h : Z),
    nan_kept size p hv hi -> 1 <= h <= size -> h <> p ->
    heapify_while Double.gt Double.le fuel hv hi tv (2 * h) n = Err OutOfFuel \/
    exists hv' hi' j',
      heapify_while Double.gt Double.le fuel hv hi tv (2 * h) n = Ok (hv', hi', j') /\
      nan_kept size p hv' hi' /\ Z.quot j' 2 <> p /\ 1 <= Z.quot j' 2 <= size.
Proof.
  intros Hn Hsize Hp.
  assert (size < CInt.INT_MAX) as Hsize' by lia.
  induction fuel as [|fuel IH]; intros hv hi h (Hd & Hdi & Hnan) Hh Hhp;
    cbn [heapify_while]; destruct (Z.leb_spec (2 * h) n) as [Hle|Hgt];
    try (now left);
    try (right; exists hv, hi, (2 * h); rewrite quot_double; now repeat split).
  destruct (select_child hv (2 * h) n size ltac:(lia) Hn Hsize' Hd)
    as (j1 & -> & Hj1).
  cbn [mbind result_bind].
  assert (2 * h <= j1 <= n /\ Z.quot j1 2 = h) as [Hj1n Hq].
  { destruct Hj1 as [-> | (-> & ? & _)].
    - split; [lia|apply quot_double].
    - split; [lia|apply quot_double_succ; lia]. }
  rewrite (load_defined hv j1) by (apply Hd; lia).
  cbn [mbind result_bind].
  destruct (is_nan (hv !!! j1)) eqn:Hvj.
  { destruct (nan_compares_false tv (hv !!! j1)) as [-> ->]; [now right|].
    left. apply (heapify_while_nan_child size); try done; lia. }
  destruct (Double.gt tv (hv !!! j1)) eqn:Hgt1.
  { right. exists hv, hi, j1. rewrite Hq. now repeat split. }
  destruct (Double.le tv (hv !!! j1)) eqn:Hle1.
  - rewrite Hq.
    rewrite (store_defined hv h) by (apply Hd; lia). cbn [mbind result_bind].
    rewrite (load_defined hi j1) by (apply Hdi; lia). cbn [mbind result_bind].
    rewrite (store_defined hi h) by (apply Hdi; lia). cbn [mbind result_bind].
    rewrite CInt.wrap_id
      by (unfold CInt.in_range, CInt.INT_MIN, CInt.INT_MAX in *; lia).
    apply IH; [|lia|congruence].
    split; [now apply defined_insert|]. split; [now apply defined_insert|].
    now rewrite lookup_total_insert_ne.
  - left. apply (heapify_while_nan_temp size); try done; [|lia].
    destruct (is_nan tv) eqn:Htv; [done|].
    rewrite (Double.gt_is_not_le tv (hv !!! j1) Htv Hvj), Hle1 in Hgt1.
    discriminate.
Qed.

Lemma max_heapify_nan (size p n : Z) (fuel : nat)
    (hv : gmap Z float) (hi : gmap Z Z) (i : Z) :
  n <= size -> 2 * size <= CInt.INT_MAX -> 1 <= p <= size ->
  nan_kept size p hv hi -> 1 <= i <= size ->
  max_heapify Double.gt Double.le fuel hv hi i n = Err OutOfFuel \/
  exists hv' hi',
    max_heapify Double.gt Double.le fuel hv hi i n = Ok (hv', hi') /\
    nan_kept size p hv' hi' /\
    ~ (p = i /\ 2 * i <= n) /\ ~ (p = 2 * i /\ 2 * i <= n).
Proof.
  intros Hn Hsize Hp (Hd & Hdi & Hnan) Hi.
  assert (size < CInt.INT_MAX) as Hsize' by lia.
  unfold max_heapify.
  rewrite (load_defined hv i) by (apply Hd; lia). cbn [mbind result_bind].
  rewrite (load_defined hi i) by (apply Hdi; lia). cbn [mbind result_bind].
  rewrite CInt.wrap_id
    by (unfold CInt.in_range, CInt.INT_MIN, CInt.INT_MAX in *; lia).
  destruct (decide (2 * i <= n)) as [Hin|Hout].
  - destruct (decide (p = i)) as [->|Hpi].
    { left. rewrite (heapify_while_nan_temp size); try done. lia. }
    destruct (decide (p = 2 * i)) as [->|Hp2].
    { left. rewrite (heapify_while_nan_child size); try done. lia. }
    destruct (heapify_while_nan_kept size p (hv !!! i) n fuel Hn Hsize Hp hv hi i)
      as [-> | (hv' & hi' & j' & -> & (Hd' & Hdi' & Hnan') & Hq & Hqr)];
      [done|lia|congruence|now left|].
    right. cbn [mbind result_bind].
    rewrite (store_defined hv') by (apply Hd'; lia). cbn [mbind result_bind].
    rewrite (store_defined hi') by (apply Hdi'; lia). cbn [mbind result_bind].
    eexists _, _. split; [reflexivity|]. split; [|lia].
    split; [now apply defined_insert|]. split; [now apply defined_insert|].
    now rewrite lookup_total_insert_ne.
  - right.
    assert (heapify_while Double.gt Double.le fuel hv hi (hv !!! i) (2 * i) n
            = Ok (hv, hi, 2 * i)) as ->.
    { destruct fuel; cbn [heapify_while];
        destruct (Z.leb_spec (2 * i) n); (lia || done). }
    cbn [mbind result_bind]. rewrite quot_double.
    rewrite (store_defined hv) by (apply Hd; lia). cbn [mbind result_bind].
    rewrite (store_defined hi) by (apply Hdi; lia). cbn [mbind result_bind].
    eexists _, _. split; [reflexivity|]. split; [|lia].
    split; [now apply defined_insert|]. split; [now apply defined_insert|].
    destruct (decide (p = i)) as [->|Hpi].
    + now rewrite lookup_total_insert_eq.
    + now rewrite lookup_total_insert_ne.
Qed.

Lemma build_maxheap_loop_nan (p n : Z) (fuel steps : nat) :
  2 * n <= CInt.INT_MAX -> 1 <= p <= n ->
  forall (hv : gmap Z float) (hi : gmap Z Z) (i : Z),
    i = Z.of_nat steps -> 2 * i <= n -> nan_kept n p hv hi ->
    build_maxheap_loop Double.gt Double.le fuel steps hv hi i n = Err OutOfFuel \/
    exists hv' hi',
      build_maxheap_loop Double.gt Double.le fuel steps hv hi i n = Ok (hv', hi') /\
      nan_kept n p hv' hi' /\ (1 <= i -> 3 <= p).
Proof.
  intros Hmax Hp. induction steps as [|steps IH]; intros hv hi i Hi Hin Hkept;
    cbn [build_maxheap_loop].
  - right. exists hv, hi. split; [done|]. split; [done|lia].
  - destruct (max_heapify_nan n p n fuel hv hi i ltac:(lia) Hmax Hp Hkept)
      as [-> | (hv1 & hi1 & -> & Hkept1 & Hpi & Hp2)]; [lia|now left|].
    cbn [mbind result_bind].
    rewrite CInt.wrap_id
      by (unfold CInt.in_range, CInt.INT_MIN, CInt.INT_MAX in *; lia).
    destruct (IH hv1 hi1 (i - 1) ltac:(lia) ltac:(lia) Hkept1)
      as [-> | (hv' & hi' & -> & Hkept' & Hp3)]; [now left|].
    right. exists hv', hi'. split; [done|]. split; [done|]. lia.
Qed.

Lemma max_heapsort_loop_nan (p n : Z) (fuel steps : nat) :
  2 * n <= CInt.INT_MAX ->
  forall (hv : gmap Z float) (hi : gmap Z Z) (i : Z),
    steps = Z.to_nat (i - 1) -> 3 <= p <= i -> i <= n -> nan_kept n p hv hi ->
    max_heapsort_loop Double.gt Double.le fuel steps hv hi i = Err OutOfFuel.
Proof.
  intros Hmax. induction steps as [|steps IH];
    intros hv hi i Hsteps Hp Hi (Hd & Hdi & Hnan); [lia|].
  cbn [max_heapsort_loop].
  rewrite (load_defined hv i) by (apply Hd; lia). cbn [mbind result_bind].
  rewrite (load_defined hv 1) by (apply Hd; lia). cbn [mbind result_bind].
  rewrite (store_defined hv i) by (apply Hd; lia). cbn [mbind result_bind].
  rewrite (store_defined (<[i := hv !!! 1]> hv) 1)
    by (apply defined_insert with (a := 1) (b := n); [done|lia]).
  cbn [mbind result_bind].
  rewrite (load_defined hi i) by (apply Hdi; lia). cbn [mbind result_bind].
  rewrite (load_defined hi 1) by (apply Hdi; lia). cbn [mbind result_bind].
  rewrite (store_defined hi i) by (apply Hdi; lia). cbn [mbind result_bind].
  rewrite (store_defined (<[i := hi !!! 1]> hi) 1)
    by (apply defined_insert with (a := 1) (b := n); [done|lia]).
  cbn [mbind result_bind].
  rewrite CInt.wrap_id
    by (unfold CInt.in_range, CInt.INT_MIN, CInt.INT_MAX in *; lia).
  set (hv2 := <[1 := hv !!! i]> (<[i := hv !!! 1]> hv)).
  set (hi2 := <[1 := hi !!! i]> (<[i := hi !!! 1]> hi)).
  assert (defined hv2 1 n) as Hd2 by (now do 2 apply defined_insert).
  assert (defined hi2 1 n) as Hdi2 by (now do 2 apply defined_insert).
  destruct (decide (p = i)) as [->|Hpi].
  - assert (nan_kept n 1 hv2 hi2) as Hkept.
    { split; [done|]. split; [done|]. unfold hv2.
      now rewrite lookup_total_insert_eq. }
    destruct (max_heapify_nan n 1 (i - 1) fuel hv2 hi2 1
                ltac:(lia) Hmax ltac:(lia) Hkept ltac:(lia))
      as [-> | (hv' & hi' & _ & _ & Hneg & _)]; [done|]. lia.
  - assert (nan_kept n p hv2 hi2) as Hkept.
    { split; [done|]. split; [done|]. unfold hv2.
      now rewrite !lookup_total_insert_ne by lia. }
    destruct (max_heapify_nan n p (i - 1) fuel hv2 hi2 1
                ltac:(lia) Hmax ltac:(lia) Hkept ltac:(lia))
      as [-> | (hv' & hi' & -> & Hkept' & _)]; [done|].
    cbn [mbind result_bind]. apply IH; [lia|lia|lia|done].
Qed.

(** X10. The value-index overload of [maxheapsort] does not return
    when a NaN is among [heap_v[1 .. n]] and [n >= 2]: wherever the NaN
    stands, some call of [max_heapify] meets it in [temp_v] or in
    [heap_v[j]], where neither [temp_v > heap_v[j]] nor
    [temp_v <= heap_v[j]] holds, and its loop goes on for ever. Whatever
    the number of iterations granted, they are used up. *)
Theorem maxheapsort_double_nan_never_returns (fuel : nat) (n p : Z)
    (dv : gmap Z float) (idx : gmap Z Z) :
  2 <= n -> 2 * n <= CInt.INT_MAX ->
  defined dv 1 n -> defined idx 1 n ->
  1 <= p <= n -> is_nan (dv !!! p) = true ->
  maxheapsort_double fuel dv idx n = Err OutOfFuel.
Proof.
  intros Hn Hmax Hdv Hidx Hp Hnan.
  unfold maxheapsort_double, maxheapsort, build_maxheap, max_heapsort.
  pose proof (quot_two_bounds n ltac:(lia)) as Hq.
  destruct (build_maxheap_loop_nan p n fuel (Z.to_nat (Z.quot n 2)) Hmax Hp
              dv idx (Z.quot n 2))
    as [-> | (hv' & hi' & -> & Hkept & Hp3)]; [lia|lia|done|done|].
  cbn [mbind result_bind].
  apply (max_heapsort_loop_nan p n); [done|done|lia|lia|done].
Qed.

Lemma maxheapsort_double_nan_never_returns_witness :
  maxheapsort_double 1000 (array_of [3%float; one; nan; two])
    (array_of [10; 20; 30; 40]) 4 = Err OutOfFuel.
Proof.
  apply (maxheapsort_double_nan_never_returns 1000 4 3).
  - lia.
  - unfold CInt.INT_MAX. lia.
  - apply (defined_array_of [3%float; one; nan; two]).
  - apply (defined_array_of [10; 20; 30; 40]).
  - lia.
  - reflexivity.
Defined.

End HighsSort.

(** ** The first-feasibility routine (FindFeasibility.cpp) *)

Module FindFeasibility.

(** [HighsStatus] is declared in lp_data/HighsStatus.h and
    [MinimizationType] in FindFeasibility.h; neither header is among the
    sources. The values below are the ones the routine names. *)
Inductive HighsStatus : Type :=
| OK
| Error
| NotImplemented.

Inductive MinimizationType : Type :=
| kComponentWise
| kExact.

(** The numerical fields of [class HighsLp] (lp_data/HighsLp.h); the
    names of the model, of its rows and of its columns play no part
    here. *)
Record HighsLp : Type := {
  numCol_ : Z;
  numRow_ : Z;
  numInt_ : Z;
  nnz_ : Z;
  Astart_ : list Z;
  Aindex_ : list Z;
  Avalue_ : list float;
  colCost_ : list float;
  colLower_ : list float;
  colUpper_ : list float;
  rowLower_ : list float;
  rowUpper_ : list float;
  sense_ : Z;
  offset_ : float
}.

Record HighsSolution : Type := {
  col_value : list float;
  col_dual : list float;
  row_value : list float;
  row_dual : list float
}.

(** The data members of [class Quadratic]; [lp_] is the [lp] every
    method below receives. *)
Record Quadratic : Type := {
  col_value_ : list float;
  row_value_ : list float;
  objective_ : float;
  residual_norm_1_ : float;
  residual_norm_2_ : float;
  residual_ : list float
}.

(** What a call of [runFeasibility] leaves behind: the status it
    returns, the solution it was given a reference to, and how many
    times it ran [Quadratic::minimize_by_component]. *)
Record Outcome : Type := {
  status : HighsStatus;
  solution_out : HighsSolution;
  minimizations : nat
}.

(** 0.00000001 *)
Definition kExitTolerance : float := 0x1.5798ee2308c3ap-27%float.
(** 0.5, 0.1 and 10 *)
Definition half : float := 0x1p-1%float.
Definition tenth : float := 0x1.999999999999ap-4%float.
Definition ten : float := 0x1.4p+3%float.

(** [std::min] and [std::max] on doubles. *)
Definition std_min (a b : float) : float := if Double.lt b a then b else a.
Definition std_max (a b : float) : float := if Double.lt a b then b else a.

Fixpoint isEqualityProblem_loop (lp : HighsLp) (steps : nat) (row : Z)
    : result bool :=
  match steps with
  | O => Ok true
  | S n =>
      lo ← vget (rowLower_ lp) row;
      up ← vget (rowUpper_ lp) row;
      if Double.ne lo up then Ok false
      else isEqualityProblem_loop lp n (CInt.wrap (row + 1))
  end.

Definition isEqualityProblem (lp : HighsLp) : result bool :=
  isEqualityProblem_loop lp (Z.to_nat (numRow_ lp)) 0.

Definition updateObjective (lp : HighsLp) (q : Quadratic) : result Quadratic :=
  obj ← for_range 0 (numCol_ lp)
          (fun col obj =>
             c ← vget (colCost_ lp) col;
             x ← vget (col_value_ q) col;
             mret (obj + c * x)%float)
          zero;
  mret {| col_value_ := col_value_ q; row_value_ := row_value_ q;
          objective_ := obj;
          residual_norm_1_ := residual_norm_1_ q;
          residual_norm_2_ := residual_norm_2_ q;
          residual_ := residual_ q |}.

Definition updateRowValue (lp : HighsLp) (q : Quadratic) : result Quadratic :=
  rv0 ← vassign (numRow_ lp) zero;
  rv ← for_range 0 (numCol_ lp)
         (fun col rv =>
            k0 ← vget (Astart_ lp) col;
            k1 ← vget (Astart_ lp) (CInt.wrap (col + 1));
            for_range k0 k1
              (fun k rv =>
                 row ← vget (Aindex_ lp) k;
                 old ← vget rv row;
                 a ← vget (Avalue_ lp) k;
                 x ← vget (col_value_ q) col;
                 vset rv row (old + a * x)%float)
              rv)
         rv0;
  mret {| col_value_ := col_value_ q; row_value_ := rv;
          objective_ := objective_ q;
          residual_norm_1_ := residual_norm_1_ q;
          residual_norm_2_ := residual_norm_2_ q;
          residual_ := residual_ q |}.

Definition updateResidual (lp : HighsLp) (q : Quadratic) : result Quadratic :=
  res0 ← vassign (numRow_ lp) zero;
  '(res, n1, n2) ← for_range 0 (numRow_ lp)
         (fun row '(res, n1, n2) =>
            up ← vget (rowUpper_ lp) row;
            rv ← vget (row_value_ q) row;
            res' ← vset res row (up - rv)%float;
            r ← vget res' row;
            mret (res', (n1 + abs r)%float, (n2 + r * r)%float))
         (res0, zero, zero);
  mret {| col_value_ := col_value_ q; row_value_ := row_value_ q;
          objective_ := objective_ q;
          residual_norm_1_ := n1;
          residual_norm_2_ := sqrt n2;
          residual_ := res |}.

Definition update (lp : HighsLp) (q : Quadratic) : result Quadratic :=
  q1 ← updateObjective lp q;
  q2 ← updateRowValue lp q1;
  updateResidual lp q2.

(** The constructor: [col_value_] is a copy of the primal values, the
    other members are assigned by [update] before anything reads them. *)
Definition Quadratic_new (lp : HighsLp) (primal_values : list float)
    : result Quadratic :=
  update lp {| col_value_ := primal_values; row_value_ := [];
               objective_ := zero; residual_norm_1_ := zero;
               residual_norm_2_ := zero; residual_ := [] |}.

(** [Quadratic::getSolution]; the two messages it prints dereference
    [std::max_element] and [std::min_element] of [col_value_]. *)
Definition getSolution (q : Quadratic) (solution : HighsSolution)
    : result HighsSolution :=
  match col_value_ q with
  | [] => Err OutOfBounds
  | _ :: _ =>
      Ok {| col_value := col_value_ q; col_dual := col_dual solution;
            row_value := row_value_ q; row_dual := row_dual solution |}
  end.

(** The body of the loop over the columns in
    [Quadratic::minimize_by_component]. *)
Definition minimize_column (lp : HighsLp) (mu : float) (lambda : list float)
    (col : Z) (q : Quadratic) : result Quadratic :=
  k0 ← vget (Astart_ lp) col;
  k1 ← vget (Astart_ lp) (CInt.wrap (col + 1));
  if k0 =? k1 then mret q
  else
    '(a, b) ← for_range k0 k1
        (fun k '(a, b) =>
           row ← vget (Aindex_ lp) k;
           v ← vget (Avalue_ lp) k;
           r ← vget (residual_ q) row;
           x ← vget (col_value_ q) col;
           l ← vget lambda row;
           let bracket := (- r - v * x)%float in
           let bracket := (bracket + l)%float in
           mret ((a + v * v)%float, (b + v * bracket)%float))
        (zero, zero);
    let a := ((half / mu) * a)%float in
    c ← vget (colCost_ lp) col;
    let b := ((half / mu) * b + half * c)%float in
    let theta := (- b / a)%float in
    new_x ← (if Double.gt theta zero
             then u ← vget (colUpper_ lp) col; mret (std_min theta u)
             else l ← vget (colLower_ lp) col; mret (std_max theta l));
    x ← vget (col_value_ q) col;
    let delta_x := (new_x - x)%float in
    cv ← vset (col_value_ q) col (x + delta_x)%float;
    let obj := (objective_ q + c * delta_x)%float in
    '(res, rv) ← for_range k0 k1
        (fun k '(res, rv) =>
           row ← vget (Aindex_ lp) k;
           v ← vget (Avalue_ lp) k;
           r ← vget res row;
           res' ← vset res row (r - v * delta_x)%float;
           y ← vget rv row;
           rv' ← vset rv row (y + v * delta_x)%float;
           mret (res', rv'))
        (residual_ q, row_value_ q);
    mret {| col_value_ := cv; row_value_ := rv; objective_ := obj;
            residual_norm_1_ := residual_norm_1_ q;
            residual_norm_2_ := residual_norm_2_ q;
            residual_ := res |}.

Definition minimize_by_component (lp : HighsLp) (mu : float)
    (lambda : list float) (q : Quadratic) : result Quadratic :=
  let iterations := 100 in
  q' ← for_range 0 iterations
         (fun iteration q =>
            q1 ← for_range 0 (numCol_ lp) (minimize_column lp mu lambda) q;
            update lp q1)
         q;
  update lp q'.

Definition chooseStartingMu (lp : HighsLp) : float := ten.

Section Initialize.

(** [isSolutionConsistent] is declared in lp_data/HighsLp.h ("Make sure
    the dimensions of solution are the same as numRow_ and numCol_") and
    defined in a file that is not among the sources. *)
Variable isSolutionConsistent : HighsLp -> HighsSolution -> bool.

(** The loop over the columns in [initialize]: the status is [Error] as
    soon as a column fits none of the three cases. *)
Fixpoint initialize_loop (lp : HighsLp) (steps : nat) (col : Z)
    (cv : list float) : result (HighsStatus * list float) :=
  match steps with
  | O => Ok (OK, cv)
  | S n =>
      l ← vget (colLower_ lp) col;
      inside ← (if Double.le l zero
                  then u ← vget (colUpper_ lp) col; mret (Double.ge u zero)
                  else mret false);
      if (inside : bool) then
        cv' ← vset cv col zero;
        initialize_loop lp n (CInt.wrap (col + 1)) cv'
      else if Double.gt l zero then
        cv' ← vset cv col l;
        initialize_loop lp n (CInt.wrap (col + 1)) cv'
      else
        u ← vget (colUpper_ lp) col;
        if Double.lt u zero then
          cv' ← vset cv col u;
          initialize_loop lp n (CInt.wrap (col + 1)) cv'
        else Ok (Error, cv)
  end.

(** [initialize]: the status, and the three objects it has references
    to. [mu] and [lambda] are left as they were when it fails. *)
Definition initialize (lp : HighsLp) (solution : HighsSolution)
    (mu : float) (lambda : list float)
    : result (HighsStatus * HighsSolution * float * list float) :=
  solution1 ← (if negb (isSolutionConsistent lp solution)
               then cv ← vassign (numCol_ lp) zero;
                    mret {| col_value := cv; col_dual := [];
                            row_value := []; row_dual := [] |}
               else mret solution);
  '(st, cv) ← initialize_loop lp (Z.to_nat (numCol_ lp)) 0 (col_value solution1);
  let solution2 := {| col_value := cv; col_dual := col_dual solution1;
                      row_value := row_value solution1;
                      row_dual := row_dual solution1 |} in
  match st with
  | OK =>
      let mu' := chooseStartingMu lp in
      lambda' ← vassign (numRow_ lp) zero;
      mret (OK, solution2, mu', lambda')
  | _ => mret (st, solution2, mu, lambda)
  end.

(** The loop [for (iteration = 1; iteration < K + 1; iteration++)] of
    [runFeasibility]; [None] in the result is a [break] or the end of the
    loop, [Some st] a [return st] from inside it. [done] counts the calls
    of [minimize_by_component]. *)
Fixpoint runFeasibility_loop (lp : HighsLp) (type : MinimizationType)
    (steps : nat) (iteration : Z) (q : Quadratic) (mu : float)
    (lambda : list float) (done : nat)
    : result (option HighsStatus * Quadratic * nat) :=
  match steps with
  | O => Ok (None, q, done)
  | S n =>
      match type with
      | kExact => Ok (Some NotImplemented, q, done)
      | kComponentWise =>
          q' ← minimize_by_component lp mu lambda q;
          let done' := S done in
          let residual_norm_2 := residual_norm_2_ q' in
          if Double.lt residual_norm_2 kExitTolerance then Ok (None, q', done')
          else if Z.rem iteration 3 =? 2 then
            runFeasibility_loop lp type n (CInt.wrap (iteration + 1)) q'
              (tenth * mu)%float lambda done'
          else
            lambda' ← for_range 0 (numRow_ lp)
                        (fun row lam =>
                           x ← vget lam row;
                           vset lam row (mu * x)%float)
                        (residual_ q');
            runFeasibility_loop lp type n (CInt.wrap (iteration + 1)) q'
              mu lambda' done'
      end
  end.

(** [runFeasibility]. [mu] is declared without a value: [mu_start] is
    whatever it holds until [initialize] assigns it. *)
Definition runFeasibility (mu_start : float) (lp : HighsLp)
    (solution : HighsSolution) (type : MinimizationType) : result Outcome :=
  eq ← isEqualityProblem lp;
  if negb eq then
    mret {| status := NotImplemented; solution_out := solution;
            minimizations := 0 |}
  else
    '(st, solution1, mu, lambda) ← initialize lp solution mu_start [];
    q ← Quadratic_new lp (col_value solution1);
    match type with
    | kExact =>
        mret {| status := NotImplemented; solution_out := solution1;
                minimizations := 0 |}
    | kComponentWise =>
        if Double.lt (residual_norm_2_ q) kExitTolerance then
          mret {| status := OK; solution_out := solution1;
                  minimizations := 0 |}
        else
          let K := 30 in
          '(ret, q', done) ← runFeasibility_loop lp type (Z.to_nat K) 1 q
                               mu lambda 0;
          match ret with
          | Some st' =>
              mret {| status := st'; solution_out := solution1;
                      minimizations := done |}
          | None =>
              solution2 ← getSolution q' solution1;
              mret {| status := OK; solution_out := solution2;
                      minimizations := done |}
          end
    end.

End Initialize.

(** A well-formed LP: the vectors have the sizes the dimensions
    announce, and the column-wise matrix points inside itself and inside
    the rows. *)
Record lp_ok (lp : HighsLp) : Prop := {
  ok_numCol : 0 <= numCol_ lp < CInt.INT_MAX;
  ok_numRow : 0 <= numRow_ lp <= CInt.INT_MAX;
  ok_colCost : Z.of_nat (length (colCost_ lp)) = numCol_ lp;
  ok_colLower : Z.of_nat (length (colLower_ lp)) = numCol_ lp;
  ok_colUpper : Z.of_nat (length (colUpper_ lp)) = numCol_ lp;
  ok_rowLower : Z.of_nat (length (rowLower_ lp)) = numRow_ lp;
  ok_rowUpper : Z.of_nat (length (rowUpper_ lp)) = numRow_ lp;
  ok_Astart_len : Z.of_nat (length (Astart_ lp)) = numCol_ lp + 1;
  ok_Astart : Forall (fun k => 0 <= k <= Z.of_nat (length (Aindex_ lp))) (Astart_ lp);
  ok_Avalue : length (Avalue_ lp) = length (Aindex_ lp);
  ok_Aindex_len : Z.of_nat (length (Aindex_ lp)) <= CInt.INT_MAX;
  ok_Aindex : Forall (fun r => 0 <= r < numRow_ lp) (Aindex_ lp)
}.

(** *** [initialize] *)

(** The starting value [initialize] gives a column with bounds [l] and
    [u] that are numbers. *)
Definition start_value (l u : float) : float :=
  if Double.le l zero && Double.ge u zero then zero
  else if Double.gt l zero then l
  else u.

Ltac run_step H := rewrite H; cbn [mbind result_bind mret result_ret].

Lemma zero_not_nan : is_nan zero = false.
Proof. reflexivity. Qed.

(** With bounds that are numbers one of the three cases applies. *)
Lemma third_case (l u : float) :
  is_nan l = false -> is_nan u = false ->
  Double.le l zero && Double.ge u zero = false ->
  Double.gt l zero = false ->
  Double.lt u zero = true.
Proof.
  intros Hl Hu H1 H2.
  rewrite (Double.gt_is_not_le l zero Hl zero_not_nan) in H2.
  rewrite (Double.lt_is_not_le u zero Hu zero_not_nan).
  unfold Double.ge, Double.le in *.
  destruct (PrimFloat.leb l zero), (PrimFloat.leb zero u); cbn in *; congruence.
Qed.

Lemma initialize_loop_spec lp steps col cv :
  0 <= col -> col + Z.of_nat steps = numCol_ lp ->
  numCol_ lp < CInt.INT_MAX ->
  Z.of_nat (length (colLower_ lp)) = numCol_ lp ->
  Z.of_nat (length (colUpper_ lp)) = numCol_ lp ->
  Z.of_nat (length cv) = numCol_ lp ->
  Forall (fun x => is_nan x = false) (colLower_ lp) ->
  Forall (fun x => is_nan x = false) (colUpper_ lp) ->
  exists cv',
    initialize_loop lp steps col cv = Ok (OK, cv') /\
    length cv' = length cv /\
    (forall j, (j < Z.to_nat col)%nat -> cv' !! j = cv !! j) /\
    (forall j l u, (Z.to_nat col <= j)%nat ->
       colLower_ lp !! j = Some l -> colUpper_ lp !! j = Some u ->
       cv' !! j = Some (start_value l u)).
Proof.
  intros Hcol Hsteps Hmax HlenL HlenU Hlen HnanL HnanU.
  revert col cv Hcol Hsteps Hlen.
  induction steps as [|n IH]; intros col cv Hcol Hsteps Hlen.
  - exists cv. split; [reflexivity|]. split; [reflexivity|]. split; [done|].
    intros j l u Hj Hl _. apply lookup_lt_Some in Hl. lia.
  - destruct (vget_in_range (colLower_ lp) col) as (l & Hgl & Hl); [lia|].
    destruct (vget_in_range (colUpper_ lp) col) as (u & Hgu & Hu); [lia|].
    assert (is_nan l = false) as Hnl.
    { rewrite Forall_forall in HnanL. apply HnanL. eapply list_elem_of_lookup_2, Hl. }
    assert (is_nan u = false) as Hnu.
    { rewrite Forall_forall in HnanU. apply HnanU. eapply list_elem_of_lookup_2, Hu. }
    assert (CInt.wrap (col + 1) = col + 1) as Hw.
    { apply CInt.wrap_id. unfold CInt.in_range, CInt.INT_MIN, CInt.INT_MAX in *. lia. }
    (* whichever case applies, the column receives [start_value l u] *)
    assert (initialize_loop lp (S n) col cv
            = initialize_loop lp n (col + 1) (<[Z.to_nat col := start_value l u]> cv))
      as Hstep.
    { cbn [initialize_loop]. run_step Hgl. unfold start_value.
      destruct (Double.le l zero) eqn:Hle.
      - run_step Hgu. cbn [andb]. destruct (Double.ge u zero) eqn:Hge.
        + rewrite vset_ok by lia. cbn [mbind result_bind]. now rewrite Hw.
        + destruct (Double.gt l zero) eqn:Hgt.
          * rewrite vset_ok by lia. cbn [mbind result_bind]. now rewrite Hw.
          * rewrite (third_case l u Hnl Hnu); [|now rewrite Hle, Hge|done].
            rewrite vset_ok by lia. cbn [mbind result_bind]. now rewrite Hw.
      - cbn [andb mbind result_bind mret result_ret].
        destruct (Double.gt l zero) eqn:Hgt.
        + rewrite vset_ok by lia. cbn [mbind result_bind]. now rewrite Hw.
        + run_step Hgu.
          rewrite (third_case l u Hnl Hnu); [|now rewrite Hle|done].
          rewrite vset_ok by lia. cbn [mbind result_bind]. now rewrite Hw. }
    rewrite Hstep.
    destruct (IH (col + 1) (<[Z.to_nat col := start_value l u]> cv))
      as (cv' & Hrun & Hlen' & Hbefore & Hafter);
      [lia|lia|rewrite length_insert; lia|].
    exists cv'. split; [done|]. rewrite length_insert in Hlen'.
    split; [done|]. split.
    + intros j Hj. rewrite Hbefore by lia. apply list_lookup_insert_ne. lia.
    + intros j l' u' Hj Hl' Hu'.
      destruct (decide (j = Z.to_nat col)) as [->|Hne].
      * rewrite Hbefore by lia. rewrite list_lookup_insert_eq by lia.
        congruence.
      * apply Hafter; [lia|done|done].
Qed.

(** A check of the dimensions that fits the comment on
    [isSolutionConsistent] in lp_data/HighsLp.h; it stands for that
    function where the model is run on an example. *)
Definition dimensions_agree (lp : HighsLp) (solution : HighsSolution) : bool :=
  (Z.of_nat (length (col_value solution)) =? numCol_ lp) &&
  (Z.of_nat (length (col_dual solution)) =? numCol_ lp) &&
  (Z.of_nat (length (row_value solution)) =? numRow_ lp) &&
  (Z.of_nat (length (row_dual solution)) =? numRow_ lp).

Definition no_solution : HighsSolution :=
  {| col_value := []; col_dual := []; row_value := []; row_dual := [] |}.

(** One row [x0 + x1 = 1] over three columns, the third one empty, with
    the bounds [-1 <= x0 <= 1], [2 <= x1 <= 3], [-5 <= x2 <= -4]. *)
Definition lp_small : HighsLp :=
  {| numCol_ := 3; numRow_ := 1; numInt_ := 0; nnz_ := 2;
     Astart_ := [0; 1; 2; 2]; Aindex_ := [0; 0]; Avalue_ := [one; one];
     colCost_ := [one; one; zero];
     colLower_ := [(-1)%float; two; (-5)%float];
     colUpper_ := [one; 3%float; (-4)%float];
     rowLower_ := [one]; rowUpper_ := [one];
     sense_ := 1; offset_ := zero |}.

(** One column whose bounds cross: [1 <= x0 <= -1]. *)
Definition lp_crossed : HighsLp :=
  {| numCol_ := 1; numRow_ := 0; numInt_ := 0; nnz_ := 0;
     Astart_ := [0; 0]; Aindex_ := []; Avalue_ := [];
     colCost_ := [zero];
     colLower_ := [one]; colUpper_ := [(-1)%float];
     rowLower_ := []; rowUpper_ := [];
     sense_ := 1; offset_ := zero |}.

Example initialize_run :
  initialize dimensions_agree lp_small no_solution zero []
  = Ok (OK,
        {| col_value := [zero; two; (-4)%float]; col_dual := [];
           row_value := []; row_dual := [] |},
        ten, [zero]).
Proof. reflexivity. Qed.

Example initialize_nan_run :
  fst (fst (fst (default (Error, no_solution, zero, [])
    (match initialize dimensions_agree
             {| numCol_ := 1; numRow_ := 0; numInt_ := 0; nnz_ := 0;
                Astart_ := [0; 0]; Aindex_ := []; Avalue_ := [];
                colCost_ := [zero]; colLower_ := [nan]; colUpper_ := [one];
                rowLower_ := []; rowUpper_ := []; sense_ := 1; offset_ := zero |}
             no_solution zero []
     with Ok r => Some r | Err _ => None end))))
  = Error.
Proof. reflexivity. Qed.

(** C5, as stated, fails: the bounds [1 <= x0 <= -1] hold no NaN and the
    upper one is negative, yet the starting value is the lower bound 1
    and not the upper bound -1. *)
Lemma initialize_claim_fails :
  exists solution',
    initialize dimensions_agree lp_crossed no_solution zero []
    = Ok (OK, solution', ten, []) /\
    Forall (fun x => is_nan x = false) (colLower_ lp_crossed) /\
    Forall (fun x => is_nan x = false) (colUpper_ lp_crossed) /\
    colUpper_ lp_crossed !! 0%nat = Some (-1)%float /\
    Double.lt (-1)%float zero = true /\
    col_value solution' !! 0%nat = Some one /\
    Double.ne one (-1)%float = true.
Proof.
  eexists. split; [reflexivity|].
  split; [repeat constructor|]. split; [repeat constructor|].
  repeat split; reflexivity.
Qed.

(** C5, amended. For an LP whose column bounds hold no NaN, [initialize]
    returns [OK] (the [Error] branch is out of reach), sets [mu] to 10 and
    [lambda] to the zero vector of length [numRow_], and gives column [j]
    the starting value 0 if [colLower_[j] <= 0 <= colUpper_[j]],
    [colLower_[j]] if [colLower_[j] > 0], and [colUpper_[j]] if
    [colUpper_[j] < 0] and [colLower_[j] <= 0]. *)
Theorem initialize_sets_starting_point
    (isSolutionConsistent : HighsLp -> HighsSolution -> bool)
    (lp : HighsLp) (solution : HighsSolution) (mu : float) (lambda : list float) :
  0 <= numCol_ lp < CInt.INT_MAX ->
  0 <= numRow_ lp ->
  Z.of_nat (length (colLower_ lp)) = numCol_ lp ->
  Z.of_nat (length (colUpper_ lp)) = numCol_ lp ->
  (isSolutionConsistent lp solution = true ->
   Z.of_nat (length (col_value solution)) = numCol_ lp) ->
  Forall (fun x => is_nan x = false) (colLower_ lp) ->
  Forall (fun x => is_nan x = false) (colUpper_ lp) ->
  exists solution',
    initialize isSolutionConsistent lp solution mu lambda
    = Ok (OK, solution', ten, replicate (Z.to_nat (numRow_ lp)) zero) /\
    Z.of_nat (length (col_value solution')) = numCol_ lp /\
    forall j l u,
      colLower_ lp !! j = Some l -> colUpper_ lp !! j = Some u ->
      exists x, col_value solution' !! j = Some x /\
        (Double.le l zero = true /\ Double.le zero u = true -> x = zero) /\
        (Double.gt l zero = true -> x = l) /\
        (Double.lt u zero = true /\ Double.le l zero = true -> x = u).
Proof.
  intros HnC HnR HlenL HlenU Hcons HnanL HnanU.
  unfold initialize.
  set (solution1 :=
         if negb (isSolutionConsistent lp solution)
         then {| col_value := replicate (Z.to_nat (numCol_ lp)) zero;
                 col_dual := []; row_value := []; row_dual := [] |}
         else solution).
  assert (Z.of_nat (length (col_value solution1)) = numCol_ lp) as Hlen1.
  { unfold solution1. destruct (isSolutionConsistent lp solution); cbn.
    - now apply Hcons.
    - rewrite length_replicate. lia. }
  destruct (initialize_loop_spec lp (Z.to_nat (numCol_ lp)) 0 (col_value solution1))
    as (cv & Hrun & Hlen & _ & Hval); try done; try lia.
  exists {| col_value := cv; col_dual := col_dual solution1;
            row_value := row_value solution1; row_dual := row_dual solution1 |}.
  split; [|split].
  - assert ((if negb (isSolutionConsistent lp solution)
             then cv0 ← vassign (numCol_ lp) zero;
                  mret {| col_value := cv0; col_dual := [];
                          row_value := []; row_dual := [] |}
             else mret solution) = Ok solution1) as ->.
    { unfold solution1. destruct (isSolutionConsistent lp solution); cbn [negb].
      - reflexivity.
      - rewrite vassign_ok by lia. reflexivity. }
    cbn [mbind result_bind]. rewrite Hrun. cbn [mbind result_bind].
    rewrite vassign_ok by lia. reflexivity.
  - cbn. lia.
  - intros j l u Hl Hu. exists (start_value l u). cbn [col_value].
    split; [apply Hval; [lia|done|done]|].
    assert (is_nan l = false) as Hnl.
    { rewrite Forall_forall in HnanL. apply HnanL. eapply list_elem_of_lookup_2, Hl. }
    assert (is_nan u = false) as Hnu.
    { rewrite Forall_forall in HnanU. apply HnanU. eapply list_elem_of_lookup_2, Hu. }
    unfold start_value. change (Double.ge u zero) with (Double.le zero u).
    pose proof (Double.gt_is_not_le l zero Hnl zero_not_nan) as Hgt.
    pose proof (Double.lt_is_not_le u zero Hnu zero_not_nan) as Hlt.
    repeat split.
    + intros [-> ->]. reflexivity.
    + intros Hg. rewrite Hg in *. destruct (Double.le l zero); [discriminate|].
      reflexivity.
    + intros [Hlu Hll]. rewrite Hlu in Hlt. rewrite Hll in *. cbn [negb] in Hgt, Hlt.
      rewrite Hgt. destruct (Double.le zero u); [discriminate|]. reflexivity.
Qed.

Lemma initialize_sets_starting_point_witness :
  exists solution',
    initialize dimensions_agree lp_small no_solution zero []
    = Ok (OK, solution', ten, replicate (Z.to_nat (numRow_ lp_small)) zero) /\
    Z.of_nat (length (col_value solution')) = numCol_ lp_small /\
    forall j l u,
      colLower_ lp_small !! j = Some l -> colUpper_ lp_small !! j = Some u ->
      exists x, col_value solution' !! j = Some x /\
        (Double.le l zero = true /\ Double.le zero u = true -> x = zero) /\
        (Double.gt l zero = true -> x = l) /\
        (Double.lt u zero = true /\ Double.le l zero = true -> x = u).
Proof.
  apply (initialize_sets_starting_point dimensions_agree lp_small no_solution zero []).
  - cbn. unfold CInt.INT_MAX. lia.
  - cbn. lia.
  - reflexivity.
  - reflexivity.
  - cbn. discriminate.
  - repeat constructor.
  - repeat constructor.
Defined.

(** *** [runFeasibility] *)

Lemma isEqualityProblem_loop_spec lp steps row :
  0 <= row -> row + Z.of_nat steps = numRow_ lp ->
  numRow_ lp <= CInt.INT_MAX ->
  Z.of_nat (length (rowLower_ lp)) = numRow_ lp ->
  Z.of_nat (length (rowUpper_ lp)) = numRow_ lp ->
  exists b, isEqualityProblem_loop lp steps row = Ok b /\
    (b = false <->
     exists (i : nat) lo up, (Z.to_nat row <= i)%nat /\
       rowLower_ lp !! i = Some lo /\ rowUpper_ lp !! i = Some up /\
       Double.ne lo up = true).
Proof.
  intros Hrow Hsteps Hmax HlenL HlenU. revert row Hrow Hsteps.
  induction steps as [|n IH]; intros row Hrow Hsteps.
  - exists true. split; [reflexivity|]. split; [discriminate|].
    intros (i & lo & up & Hi & Hlo & _). apply lookup_lt_Some in Hlo. lia.
  - destruct (vget_in_range (rowLower_ lp) row) as (lo & Hglo & Hlo); [lia|].
    destruct (vget_in_range (rowUpper_ lp) row) as (up & Hgup & Hup); [lia|].
    cbn [isEqualityProblem_loop]. rewrite Hglo, Hgup. cbn [mbind result_bind].
    destruct (Double.ne lo up) eqn:Hne.
    + exists false. split; [reflexivity|]. split; [|reflexivity].
      intros _. exists (Z.to_nat row), lo, up. repeat split; try done.
    + rewrite CInt.wrap_id
        by (unfold CInt.in_range, CInt.INT_MIN, CInt.INT_MAX in *; lia).
      destruct (IH (row + 1)) as (b & Hb & Hiff); [lia|lia|].
      exists b. split; [done|]. rewrite Hiff. split.
      * intros (i & lo' & up' & Hi & H1 & H2 & H3).
        exists i, lo', up'. repeat split; try done. lia.
      * intros (i & lo' & up' & Hi & H1 & H2 & H3).
        exists i, lo', up'. repeat split; try done.
        destruct (decide (i = Z.to_nat row)) as [->|Hd]; [|lia].
        congruence.
Qed.

Lemma isEqualityProblem_spec lp :
  0 <= numRow_ lp <= CInt.INT_MAX ->
  Z.of_nat (length (rowLower_ lp)) = numRow_ lp ->
  Z.of_nat (length (rowUpper_ lp)) = numRow_ lp ->
  exists b, isEqualityProblem lp = Ok b /\
    (b = false <->
     exists (i : nat) lo up,
       rowLower_ lp !! i = Some lo /\ rowUpper_ lp !! i = Some up /\
       Double.ne lo up = true).
Proof.
  intros HnR HlenL HlenU. unfold isEqualityProblem.
  destruct (isEqualityProblem_loop_spec lp (Z.to_nat (numRow_ lp)) 0)
    as (b & Hb & Hiff); try lia.
  exists b. split; [done|]. rewrite Hiff. split.
  - intros (i & lo & up & _ & H). eauto.
  - intros (i & lo & up & H). exists i, lo, up. split; [lia|done].
Qed.

(** The loop of [initialize] always comes to an end, with [OK] or with
    [Error], and leaves the size of the vector as it was. *)
Lemma initialize_loop_total lp steps col cv :
  0 <= col -> col + Z.of_nat steps = numCol_ lp ->
  numCol_ lp < CInt.INT_MAX ->
  Z.of_nat (length (colLower_ lp)) = numCol_ lp ->
  Z.of_nat (length (colUpper_ lp)) = numCol_ lp ->
  Z.of_nat (length cv) = numCol_ lp ->
  exists st cv', initialize_loop lp steps col cv = Ok (st, cv') /\
    length cv' = length cv.
Proof.
  intros Hcol Hsteps Hmax HlenL HlenU Hlen.
  revert col cv Hcol Hsteps Hlen.
  induction steps as [|n IH]; intros col cv Hcol Hsteps Hlen.
  - exists OK, cv. split; reflexivity.
  - destruct (vget_in_range (colLower_ lp) col) as (l & Hgl & Hl); [lia|].
    destruct (vget_in_range (colUpper_ lp) col) as (u & Hgu & Hu); [lia|].
    assert (CInt.wrap (col + 1) = col + 1) as Hw.
    { apply CInt.wrap_id. unfold CInt.in_range, CInt.INT_MIN, CInt.INT_MAX in *. lia. }
    assert (forall x, exists st cv',
              (cv1 ← vset cv col x; initialize_loop lp n (CInt.wrap (col + 1)) cv1)
              = Ok (st, cv') /\ length cv' = length cv) as Hset.
    { intros x. rewrite vset_ok by lia. cbn [mbind result_bind]. rewrite Hw.
      destruct (IH (col + 1) (<[Z.to_nat col := x]> cv)) as (st & cv' & Hr & Hl');
        [lia|lia|rewrite length_insert; lia|].
      exists st, cv'. split; [done|]. now rewrite length_insert in Hl'. }
    cbn [initialize_loop]. run_step Hgl.
    destruct (Double.le l zero).
    + run_step Hgu. destruct (Double.ge u zero); [apply Hset|].
      destruct (Double.gt l zero); [apply Hset|].
      destruct (Double.lt u zero); [apply Hset|].
      exists Error, cv. split; reflexivity.
    + cbn [mbind result_bind mret result_ret].
      destruct (Double.gt l zero); [apply Hset|].
      run_step Hgu.
      destruct (Double.lt u zero); [apply Hset|].
      exists Error, cv. split; reflexivity.
Qed.

Section Runs.

Variable isSolutionConsistent : HighsLp -> HighsSolution -> bool.

Lemma initialize_total lp solution mu lambda :
  lp_ok lp ->
  (isSolutionConsistent lp solution = true ->
   Z.of_nat (length (col_value solution)) = numCol_ lp) ->
  exists st solution' mu' lambda',
    initialize isSolutionConsistent lp solution mu lambda
    = Ok (st, solution', mu', lambda') /\
    Z.of_nat (length (col_value solution')) = numCol_ lp.
Proof.
  intros Hok Hcons. destruct Hok.
  unfold initialize.
  set (solution1 :=
         if negb (isSolutionConsistent lp solution)
         then {| col_value := replicate (Z.to_nat (numCol_ lp)) zero;
                 col_dual := []; row_value := []; row_dual := [] |}
         else solution).
  assert (Z.of_nat (length (col_value solution1)) = numCol_ lp) as Hlen1.
  { unfold solution1. destruct (isSolutionConsistent lp solution); cbn.
    - now apply Hcons.
    - rewrite length_replicate. lia. }
  assert ((if negb (isSolutionConsistent lp solution)
           then cv0 ← vassign (numCol_ lp) zero;
                mret {| col_value := cv0; col_dual := [];
                        row_value := []; row_dual := [] |}
           else mret solution) = Ok solution1) as ->.
  { unfold solution1. destruct (isSolutionConsistent lp solution); cbn [negb].
    - reflexivity.
    - rewrite vassign_ok by lia. reflexivity. }
  cbn [mbind result_bind].
  destruct (initialize_loop_total lp (Z.to_nat (numCol_ lp)) 0 (col_value solution1))
    as (st & cv & Hrun & Hlen); try done; try lia.
  rewrite Hrun. cbn [mbind result_bind].
  destruct st.
  - rewrite vassign_ok by lia. cbn [mbind result_bind mret result_ret].
    do 4 eexists. split; [reflexivity|]. cbn. lia.
  - do 4 eexists. split; [reflexivity|]. cbn. lia.
  - do 4 eexists. split; [reflexivity|]. cbn. lia.
Qed.

End Runs.

(** On a well-formed LP the three passes of [Quadratic::update] touch
    nothing out of range. *)
Lemma updateObjective_ok lp q :
  lp_ok lp -> Z.of_nat (length (col_value_ q)) = numCol_ lp ->
  exists q', updateObjective lp q = Ok q' /\
    col_value_ q' = col_value_ q /\ row_value_ q' = row_value_ q.
Proof.
  intros Hok Hlen. destruct Hok. unfold updateObjective.
  destruct (for_range_inv (fun _ : float => True)
              (fun col obj =>
                 c ← vget (colCost_ lp) col;
                 x ← vget (col_value_ q) col;
                 mret (obj + c * x)%float)
              0 (numCol_ lp) zero) as (obj & Hobj & _); [lia|lia|done| |].
  - intros j t Hj _.
    destruct (vget_in_range (colCost_ lp) j) as (c & Hc & _); [lia|].
    destruct (vget_in_range (col_value_ q) j) as (x & Hx & _); [lia|].
    rewrite Hc, Hx. cbn. eauto.
  - rewrite Hobj. cbn [mbind result_bind mret result_ret].
    eexists. split; [reflexivity|]. split; reflexivity.
Qed.

Lemma lookup_Forall {A : Type} (P : A -> Prop) (l : list A) (i : nat) (x : A) :
  Forall P l -> l !! i = Some x -> P x.
Proof.
  intros Hf Hx. rewrite Forall_forall in Hf. apply Hf.
  eapply list_elem_of_lookup_2, Hx.
Qed.

Lemma updateRowValue_ok lp q :
  lp_ok lp -> Z.of_nat (length (col_value_ q)) = numCol_ lp ->
  exists q', updateRowValue lp q = Ok q' /\
    col_value_ q' = col_value_ q /\
    Z.of_nat (length (row_value_ q')) = numRow_ lp.
Proof.
  intros Hok Hlen. destruct Hok. unfold updateRowValue.
  rewrite vassign_ok by lia. cbn [mbind result_bind].
  set (P := fun rv : list float => Z.of_nat (length rv) = numRow_ lp).
  match goal with
  | |- context [for_range 0 (numCol_ lp) ?body ?init] =>
      destruct (for_range_inv P body 0 (numCol_ lp) init)
        as (rv & Hrv & HP)
  end; [lia|lia| | |].
  - unfold P. rewrite length_replicate. lia.
  - intros col rv Hcol Hrv.
    destruct (vget_in_range (Astart_ lp) col) as (k0 & Hg0 & H0); [lia|].
    destruct (vget_in_range (Astart_ lp) (col + 1)) as (k1 & Hg1 & H1); [lia|].
    rewrite CInt.wrap_id
      by (unfold CInt.in_range, CInt.INT_MIN, CInt.INT_MAX in *; lia).
    rewrite Hg0, Hg1. cbn [mbind result_bind].
    pose proof (lookup_Forall _ _ _ _ ok_Astart0 H0) as Hk0.
    pose proof (lookup_Forall _ _ _ _ ok_Astart0 H1) as Hk1.
    cbn beta in Hk0, Hk1.
    apply for_range_inv; [lia|lia|done|].
    intros k rv' Hk Hrv'.
    destruct (vget_in_range (Aindex_ lp) k) as (row & Hgr & Hr); [lia|].
    pose proof (lookup_Forall _ _ _ _ ok_Aindex0 Hr) as Hrow.
    cbn beta in Hrow.
    unfold P in Hrv'.
    destruct (vget_in_range rv' row) as (old & Hgo & _); [lia|].
    destruct (vget_in_range (Avalue_ lp) k) as (a & Hga & _); [lia|].
    destruct (vget_in_range (col_value_ q) col) as (x & Hgx & _); [lia|].
    run_step Hgr. run_step Hgo. run_step Hga. run_step Hgx.
    rewrite vset_ok by lia. eexists. split; [reflexivity|].
    unfold P. rewrite length_insert. lia.
  - rewrite Hrv. cbn [mbind result_bind mret result_ret].
    eexists. split; [reflexivity|]. split; [reflexivity|]. apply HP.
Qed.

Lemma updateResidual_ok lp q :
  lp_ok lp -> Z.of_nat (length (row_value_ q)) = numRow_ lp ->
  exists q', updateResidual lp q = Ok q' /\
    col_value_ q' = col_value_ q /\
    Z.of_nat (length (row_value_ q')) = numRow_ lp /\
    Z.of_nat (length (residual_ q')) = numRow_ lp.
Proof.
  intros Hok Hlen. destruct Hok. unfold updateResidual.
  rewrite vassign_ok by lia. cbn [mbind result_bind].
  set (P := fun t : list float * float * float =>
              Z.of_nat (length (fst (fst t))) = numRow_ lp).
  match goal with
  | |- context [for_range 0 (numRow_ lp) ?body ?init] =>
      destruct (for_range_inv P body 0 (numRow_ lp) init)
        as ([[res n1] n2] & Hres & HP)
  end; [lia|lia| | |].
  - unfold P. cbn. rewrite length_replicate. lia.
  - intros row [[res n1] n2] Hrow Hres. unfold P in Hres. cbn in Hres.
    destruct (vget_in_range (rowUpper_ lp) row) as (up & Hgu & _); [lia|].
    destruct (vget_in_range (row_value_ q) row) as (rv & Hgr & _); [lia|].
    rewrite Hgu, Hgr. cbn [mbind result_bind].
    rewrite vset_ok by lia. cbn [mbind result_bind].
    destruct (vget_in_range (<[Z.to_nat row := (up - rv)%float]> res) row)
      as (r & Hgx & _); [rewrite length_insert; lia|].
    rewrite Hgx. cbn [mbind result_bind mret result_ret].
    eexists. split; [reflexivity|]. unfold P. cbn. rewrite length_insert. lia.
  - rewrite Hres. cbn [mbind result_bind mret result_ret].
    eexists. split; [reflexivity|]. cbn. repeat split; try done; apply HP.
Qed.

Lemma update_ok lp q :
  lp_ok lp -> Z.of_nat (length (col_value_ q)) = numCol_ lp ->
  exists q', update lp q = Ok q' /\
    col_value_ q' = col_value_ q /\
    Z.of_nat (length (row_value_ q')) = numRow_ lp /\
    Z.of_nat (length (residual_ q')) = numRow_ lp.
Proof.
  intros Hok Hlen. unfold update.
  destruct (updateObjective_ok lp q Hok Hlen) as (q1 & H1 & Hc1 & _).
  rewrite H1. cbn [mbind result_bind].
  destruct (updateRowValue_ok lp q1 Hok) as (q2 & H2 & Hc2 & Hr2); [congruence|].
  rewrite H2. cbn [mbind result_bind].
  destruct (updateResidual_ok lp q2 Hok Hr2) as (q3 & H3 & Hc3 & Hr3 & Hs3).
  exists q3. split; [done|]. repeat split; try done. congruence.
Qed.

(** The rows [0 <= x0 <= 1]: not an equality problem. *)
Definition lp_range : HighsLp :=
  {| numCol_ := 1; numRow_ := 1; numInt_ := 0; nnz_ := 1;
     Astart_ := [0; 1]; Aindex_ := [0]; Avalue_ := [one];
     colCost_ := [one]; colLower_ := [zero]; colUpper_ := [two];
     rowLower_ := [zero]; rowUpper_ := [one];
     sense_ := 1; offset_ := zero |}.

Example runFeasibility_run :
  runFeasibility dimensions_agree zero lp_small no_solution kComponentWise
  = Ok {| status := OK;
          solution_out := {| col_value := [(-1)%float; two; (-4)%float];
                             col_dual := []; row_value := [one];
                             row_dual := [] |};
          minimizations := 1 |} /\
  runFeasibility dimensions_agree zero lp_range no_solution kComponentWise
  = Ok {| status := NotImplemented; solution_out := no_solution;
          minimizations := 0 |}.
Proof. split; vm_compute; reflexivity. Qed.

Lemma lp_small_ok : lp_ok lp_small.
Proof.
  split; cbn; unfold CInt.INT_MAX; try lia; try reflexivity;
    repeat constructor; lia.
Qed.

Lemma lp_range_ok : lp_ok lp_range.
Proof.
  split; cbn; unfold CInt.INT_MAX; try lia; try reflexivity;
    repeat constructor; lia.
Qed.

(** C4. On a well-formed LP, [runFeasibility] returns [NotImplemented]
    without a single call of the penalty minimisation, and with the
    solution as it was, whenever some row has [rowLower_[i] !=
    rowUpper_[i]]; and on an equality problem it returns
    [NotImplemented], again without any minimisation, whenever the type
    is [kExact]. *)
Theorem runFeasibility_not_implemented
    (isSolutionConsistent : HighsLp -> HighsSolution -> bool)
    (mu_start : float) (lp : HighsLp) (solution : HighsSolution)
    (type : MinimizationType) :
  lp_ok lp ->
  (isSolutionConsistent lp solution = true ->
   Z.of_nat (length (col_value solution)) = numCol_ lp) ->
  ((exists (i : nat) lo up,
      rowLower_ lp !! i = Some lo /\ rowUpper_ lp !! i = Some up /\
      Double.ne lo up = true) ->
   runFeasibility isSolutionConsistent mu_start lp solution type
   = Ok {| status := NotImplemented; solution_out := solution;
           minimizations := 0 |}) /\
  ((forall (i : nat) lo up,
      rowLower_ lp !! i = Some lo -> rowUpper_ lp !! i = Some up ->
      Double.ne lo up = false) ->
   type = kExact ->
   exists solution',
     runFeasibility isSolutionConsistent mu_start lp solution type
     = Ok {| status := NotImplemented; solution_out := solution';
             minimizations := 0 |}).
Proof.
  intros Hok Hcons.
  destruct (isEqualityProblem_spec lp) as (b & Heq & Hiff);
    [apply Hok|apply Hok|apply Hok|].
  split.
  - intros Hrow. apply Hiff in Hrow. subst b.
    unfold runFeasibility. rewrite Heq. reflexivity.
  - intros Hall ->.
    assert (b = true) as ->.
    { destruct b; [reflexivity|].
      destruct Hiff as [Hex _]. destruct (Hex eq_refl) as (i & lo & up & H1 & H2 & H3).
      rewrite (Hall i lo up H1 H2) in H3. discriminate. }
    unfold runFeasibility. rewrite Heq. cbn [mbind result_bind negb].
    destruct (initialize_total isSolutionConsistent lp solution mu_start [] Hok Hcons)
      as (st & solution1 & mu & lambda & Hinit & Hlen).
    rewrite Hinit. cbn [mbind result_bind].
    destruct (update_ok lp
                {| col_value_ := col_value solution1; row_value_ := [];
                   objective_ := zero; residual_norm_1_ := zero;
                   residual_norm_2_ := zero; residual_ := [] |} Hok Hlen)
      as (q & Hq & _).
    unfold Quadratic_new. rewrite Hq. cbn [mbind result_bind mret result_ret].
    exists solution1. reflexivity.
Qed.

Lemma runFeasibility_not_implemented_witness :
  runFeasibility dimensions_agree zero lp_range no_solution kComponentWise
  = Ok {| status := NotImplemented; solution_out := no_solution;
          minimizations := 0 |} /\
  exists solution',
    runFeasibility dimensions_agree zero lp_small no_solution kExact
    = Ok {| status := NotImplemented; solution_out := solution';
            minimizations := 0 |}.
Proof.
  split.
  - apply (runFeasibility_not_implemented dimensions_agree zero lp_range
             no_solution kComponentWise).
    + exact lp_range_ok.
    + cbn. discriminate.
    + exists 0%nat, zero, one. repeat split; reflexivity.
  - apply (runFeasibility_not_implemented dimensions_agree zero lp_small
             no_solution kExact).
    + exact lp_small_ok.
    + cbn. discriminate.
    + intros [|i] lo up; cbn.
      * intros [= <-] [= <-]. reflexivity.
      * discriminate.
    + reflexivity.
Defined.

(** *** When [initialize] fails *)

(** Bounds that fit none of the three cases of [initialize]: one of
    them is a NaN and the other does not decide the case by itself. *)
Definition no_start (l u : float) : Prop :=
  (is_nan u = true /\ Double.gt l zero = false) \/
  (is_nan l = true /\ Double.lt u zero = false).

(** The three tests of the loop of [initialize], taken together. *)
Definition placed (l u : float) : bool :=
  (Double.le l zero && Double.ge u zero) || Double.gt l zero || Double.lt u zero.

Lemma placed_false (l u : float) : placed l u = false <-> no_start l u.
Proof.
  unfold placed, no_start. split.
  - intros Hp.
    apply orb_false_elim in Hp as [Hp H3].
    apply orb_false_elim in Hp as [H1 H2].
    destruct (is_nan u) eqn:Hu; [now left|].
    destruct (is_nan l) eqn:Hl; [now right|].
    rewrite (third_case l u Hl Hu H1 H2) in H3. discriminate.
  - intros [[Hu Hgt] | [Hl Hlt]].
    + destruct (HighsSort.nan_compares_false zero u) as [H1 H2]; [now right|].
      change (Double.lt u zero) with (Double.gt zero u).
      change (Double.ge u zero) with (Double.le zero u).
      rewrite H1, H2, Hgt. now rewrite andb_false_r.
    + destruct (HighsSort.nan_compares_false l zero) as [H1 H2]; [now left|].
      now rewrite H1, H2, Hlt.
Qed.

(** One turn of the loop of [initialize]. *)
Lemma initialize_loop_step lp n col cv l u :
  0 <= col < Z.of_nat (length cv) -> col < CInt.INT_MAX ->
  vget (colLower_ lp) col = Ok l -> vget (colUpper_ lp) col = Ok u ->
  initialize_loop lp (S n) col cv
  = if placed l u
    then initialize_loop lp n (col + 1) (<[Z.to_nat col := start_value l u]> cv)
    else Ok (Error, cv).
Proof.
  intros Hcol Hmax Hgl Hgu.
  assert (CInt.wrap (col + 1) = col + 1) as Hw.
  { apply CInt.wrap_id. unfold CInt.in_range, CInt.INT_MIN, CInt.INT_MAX in *. lia. }
  cbn [initialize_loop]. run_step Hgl. unfold placed, start_value.
  destruct (Double.le l zero) eqn:Hle.
  - run_step Hgu. cbn [andb]. destruct (Double.ge u zero) eqn:Hge; cbn [orb].
    + rewrite vset_ok by lia. cbn [mbind result_bind]. now rewrite Hw.
    + destruct (Double.gt l zero) eqn:Hgt; cbn [orb].
      * rewrite vset_ok by lia. cbn [mbind result_bind]. now rewrite Hw.
      * destruct (Double.lt u zero); [|reflexivity].
        rewrite vset_ok by lia. cbn [mbind result_bind]. now rewrite Hw.
  - cbn [andb orb mbind result_bind mret result_ret].
    destruct (Double.gt l zero) eqn:Hgt; cbn [orb].
    + rewrite vset_ok by lia. cbn [mbind result_bind]. now rewrite Hw.
    + run_step Hgu. destruct (Double.lt u zero); [|reflexivity].
      rewrite vset_ok by lia. cbn [mbind result_bind]. now rewrite Hw.
Qed.

Lemma initialize_loop_fails lp steps :
  numCol_ lp < CInt.INT_MAX ->
  Z.of_nat (length (colLower_ lp)) = numCol_ lp ->
  Z.of_nat (length (colUpper_ lp)) = numCol_ lp ->
  forall col cv,
    0 <= col -> col + Z.of_nat steps = numCol_ lp ->
    Z.of_nat (length cv) = numCol_ lp ->
    exists st cv',
      initialize_loop lp steps col cv = Ok (st, cv') /\
      length cv' = length cv /\
      (st = OK \/ st = Error) /\
      (st = Error <->
       exists (j : nat) l u, (Z.to_nat col <= j)%nat /\
         colLower_ lp !! j = Some l /\ colUpper_ lp !! j = Some u /\
         placed l u = false).
Proof.
  intros Hmax HlenL HlenU.
  induction steps as [|n IH]; intros col cv Hcol Hsteps Hlen.
  - exists OK, cv. split; [reflexivity|]. split; [done|]. split; [now left|].
    split; [discriminate|].
    intros (j & l & u & Hj & Hl & _). apply lookup_lt_Some in Hl. lia.
  - destruct (vget_in_range (colLower_ lp) col) as (l & Hgl & Hl); [lia|].
    destruct (vget_in_range (colUpper_ lp) col) as (u & Hgu & Hu); [lia|].
    rewrite (initialize_loop_step lp n col cv l u) by (done || lia).
    destruct (placed l u) eqn:Hp.
    + destruct (IH (col + 1) (<[Z.to_nat col := start_value l u]> cv))
        as (st & cv' & Hrun & Hlen' & Hst & Hiff);
        [lia|lia|rewrite length_insert; lia|].
      exists st, cv'. split; [done|]. rewrite length_insert in Hlen'.
      split; [done|]. split; [done|]. rewrite Hiff. split.
      * intros (j & l' & u' & Hj & Hrest). exists j, l', u'. split; [lia|done].
      * intros (j & l' & u' & Hj & Hl' & Hu' & Hno). exists j, l', u'.
        split; [|done].
        destruct (decide (j = Z.to_nat col)) as [->|]; [|lia].
        rewrite Hl in Hl'. rewrite Hu in Hu'. injection Hl' as <-.
        injection Hu' as <-. congruence.
    + exists Error, cv. split; [done|]. split; [done|]. split; [now right|].
      split; [|done]. intros _. exists (Z.to_nat col), l, u.
      split; [lia|]. now repeat split.
Qed.

(** A column with a NaN among its bounds, and no row. *)
Definition lp_nan_bound : HighsLp :=
  {| numCol_ := 1; numRow_ := 0; numInt_ := 0; nnz_ := 0;
     Astart_ := [0; 0]; Aindex_ := []; Avalue_ := [];
     colCost_ := [zero]; colLower_ := [nan]; colUpper_ := [one];
     rowLower_ := []; rowUpper_ := []; sense_ := 1; offset_ := zero |}.

(** How [initialize] ends. *)
Lemma initialize_outcome
    (isSolutionConsistent : HighsLp -> HighsSolution -> bool)
    (lp : HighsLp) (solution : HighsSolution) (mu : float) (lambda : list float) :
  0 <= numCol_ lp < CInt.INT_MAX ->
  0 <= numRow_ lp ->
  Z.of_nat (length (colLower_ lp)) = numCol_ lp ->
  Z.of_nat (length (colUpper_ lp)) = numCol_ lp ->
  (isSolutionConsistent lp solution = true ->
   Z.of_nat (length (col_value solution)) = numCol_ lp) ->
  exists st solution' mu' lambda',
    initialize isSolutionConsistent lp solution mu lambda
    = Ok (st, solution', mu', lambda') /\
    (st = Error <->
     exists (j : nat) l u,
       colLower_ lp !! j = Some l /\ colUpper_ lp !! j = Some u /\
       placed l u = false) /\
    Z.of_nat (length (col_value solution')) = numCol_ lp /\
    (st = Error -> mu' = mu /\ lambda' = lambda) /\
    (st <> Error ->
     st = OK /\ mu' = ten /\ lambda' = replicate (Z.to_nat (numRow_ lp)) zero).
Proof.
  intros HnC HnR HlenL HlenU Hcons.
  unfold initialize.
  set (solution1 :=
         if negb (isSolutionConsistent lp solution)
         then {| col_value := replicate (Z.to_nat (numCol_ lp)) zero;
                 col_dual := []; row_value := []; row_dual := [] |}
         else solution).
  assert (Z.of_nat (length (col_value solution1)) = numCol_ lp) as Hlen1.
  { unfold solution1. destruct (isSolutionConsistent lp solution); cbn.
    - now apply Hcons.
    - rewrite length_replicate. lia. }
  assert ((if negb (isSolutionConsistent lp solution)
           then cv0 ← vassign (numCol_ lp) zero;
                mret {| col_value := cv0; col_dual := [];
                        row_value := []; row_dual := [] |}
           else mret solution) = Ok solution1) as ->.
  { unfold solution1. destruct (isSolutionConsistent lp solution); cbn [negb].
    - reflexivity.
    - rewrite vassign_ok by lia. reflexivity. }
  cbn [mbind result_bind].
  destruct (initialize_loop_fails lp (Z.to_nat (numCol_ lp)) ltac:(lia) HlenL HlenU
              0 (col_value solution1))
    as (st & cv & Hrun & Hlen & Hst & Hiff); try done; try lia.
  rewrite Hrun. cbn [mbind result_bind].
  assert (st = Error <->
          exists (j : nat) l u,
            colLower_ lp !! j = Some l /\ colUpper_ lp !! j = Some u /\
            placed l u = false) as Hiff'.
  { rewrite Hiff. split.
    - intros (j & l & u & _ & Hrest). now exists j, l, u.
    - intros (j & l & u & Hrest). exists j, l, u. split; [lia|done]. }
  destruct Hst as [-> | ->].
  - rewrite vassign_ok by lia. cbn [mbind result_bind mret result_ret].
    do 4 eexists. split; [reflexivity|]. split; [done|].
    split; [cbn; lia|].
    split; [discriminate|]. intros _. repeat split.
  - cbn [mret result_ret]. do 4 eexists. split; [reflexivity|].
    split; [done|]. split; [cbn; lia|]. split; [done|]. congruence.
Qed.


(** X11. [initialize] returns [Error] exactly when some column has a
    NaN among its bounds that leaves all three cases undecided: the upper
    bound is a NaN and the lower bound is not positive, or the lower
    bound is a NaN and the upper bound is not negative. It then leaves
    [mu] and [lambda] as they were; otherwise it returns [OK] with
    [mu = 10] and [lambda] the zero vector of length [numRow_]. Either
    way [solution.col_value] has [numCol_] entries. *)
Theorem initialize_fails_exactly
    (isSolutionConsistent : HighsLp -> HighsSolution -> bool)
    (lp : HighsLp) (solution : HighsSolution) (mu : float) (lambda : list float) :
  0 <= numCol_ lp < CInt.INT_MAX ->
  0 <= numRow_ lp ->
  Z.of_nat (length (colLower_ lp)) = numCol_ lp ->
  Z.of_nat (length (colUpper_ lp)) = numCol_ lp ->
  (isSolutionConsistent lp solution = true ->
   Z.of_nat (length (col_value solution)) = numCol_ lp) ->
  exists st solution' mu' lambda',
    initialize isSolutionConsistent lp solution mu lambda
    = Ok (st, solution', mu', lambda') /\
    (st = Error <->
     exists (j : nat) l u,
       colLower_ lp !! j = Some l /\ colUpper_ lp !! j = Some u /\
       no_start l u) /\
    Z.of_nat (length (col_value solution')) = numCol_ lp /\
    (st = Error -> mu' = mu /\ lambda' = lambda) /\
    (st <> Error ->
     st = OK /\ mu' = ten /\ lambda' = replicate (Z.to_nat (numRow_ lp)) zero).
Proof.
  intros HnC HnR HlenL HlenU Hcons.
  destruct (initialize_outcome isSolutionConsistent lp solution mu lambda
              HnC HnR HlenL HlenU Hcons)
    as (st & solution' & mu' & lambda' & Hrun & Hiff & Hrest).
  exists st, solution', mu', lambda'. split; [done|]. split; [|done].
  rewrite Hiff. split.
  - intros (j & l & u & Hl & Hu & Hp). exists j, l, u.
    split; [done|]. split; [done|]. now apply placed_false.
  - intros (j & l & u & Hl & Hu & Hno). exists j, l, u.
    split; [done|]. split; [done|]. now apply placed_false.
Qed.

Lemma initialize_fails_exactly_witness :
  exists st solution' mu' lambda',
    initialize dimensions_agree lp_nan_bound no_solution two [one]
    = Ok (st, solution', mu', lambda') /\
    (st = Error <->
     exists (j : nat) l u,
       colLower_ lp_nan_bound !! j = Some l /\
       colUpper_ lp_nan_bound !! j = Some u /\
       no_start l u) /\
    Z.of_nat (length (col_value solution')) = numCol_ lp_nan_bound /\
    (st = Error -> mu' = two /\ lambda' = [one]) /\
    (st <> Error ->
     st = OK /\ mu' = ten /\
     lambda' = replicate (Z.to_nat (numRow_ lp_nan_bound)) zero).
Proof.
  apply (initialize_fails_exactly dimensions_agree lp_nan_bound no_solution two [one]).
  - cbn. unfold CInt.INT_MAX. lia.
  - cbn. lia.
  - reflexivity.
  - reflexivity.
  - intros Hc. discriminate Hc.
Defined.

(** *** What [runFeasibility] returns *)

Lemma runFeasibility_loop_result lp type steps :
  forall iteration q mu lambda done ret q' done',
    runFeasibility_loop lp type steps iteration q mu lambda done
    = Ok (ret, q', done') ->
    (done <= done' <= done + steps)%nat /\
    (ret = None \/
     (ret = Some NotImplemented /\ done' = done /\ type = kExact)).
Proof.
  induction steps as [|n IH];
    intros iteration q mu lambda done ret q' done' Hrun;
    cbn [runFeasibility_loop] in Hrun.
  - injection Hrun as <- <- <-. split; [lia|now left].
  - destruct type.
    + destruct (minimize_by_component lp mu lambda q) as [q1|e];
        cbn [mbind result_bind] in Hrun; [|discriminate].
      destruct (Double.lt (residual_norm_2_ q1) kExitTolerance).
      { injection Hrun as <- <- <-. split; [lia|now left]. }
      destruct (Z.rem iteration 3 =? 2).
      * apply IH in Hrun as [Hd Hret]. split; [lia|].
        destruct Hret as [|(_ & _ & ?)]; [now left|discriminate].
      * destruct (for_range 0 (numRow_ lp) _ (residual_ q1)) as [lambda'|e];
          cbn [mbind result_bind] in Hrun; [|discriminate].
        apply IH in Hrun as [Hd Hret]. split; [lia|].
        destruct Hret as [|(_ & _ & ?)]; [now left|discriminate].
    + injection Hrun as <- <- <-. split; [lia|now right].
Qed.

(** X12. [runFeasibility] never returns [HighsStatus::Error]: the
    status of [initialize] is read and dropped ("todo: handle errors"),
    so a run that comes back reports [OK] or [NotImplemented]; it has
    called [minimize_by_component] at most 30 times, and not at all when
    it reports [NotImplemented]. *)
Theorem runFeasibility_never_reports_error
    (isSolutionConsistent : HighsLp -> HighsSolution -> bool)
    (mu_start : float) (lp : HighsLp) (solution : HighsSolution)
    (type : MinimizationType) (outcome : Outcome) :
  runFeasibility isSolutionConsistent mu_start lp solution type = Ok outcome ->
  status outcome <> Error /\
  (minimizations outcome <= 30)%nat /\
  (status outcome = NotImplemented -> minimizations outcome = 0%nat).
Proof.
  unfold runFeasibility. intros Hrun.
  destruct (isEqualityProblem lp) as [eq|e]; cbn [mbind result_bind] in Hrun;
    [|discriminate].
  destruct eq; cbn [negb] in Hrun; cycle 1.
  { injection Hrun as <-. cbn. repeat split; (discriminate || lia || done). }
  destruct (initialize isSolutionConsistent lp solution mu_start [])
    as [[[[st solution1] mu] lambda]|e]; cbn [mbind result_bind] in Hrun;
    [|discriminate].
  destruct (Quadratic_new lp (col_value solution1)) as [q|e];
    cbn [mbind result_bind] in Hrun; [|discriminate].
  destruct type.
  - destruct (Double.lt (residual_norm_2_ q) kExitTolerance).
    { injection Hrun as <-. cbn. repeat split; (discriminate || lia || done). }
    destruct (runFeasibility_loop lp kComponentWise (Z.to_nat 30) 1 q mu lambda 0)
      as [[[ret q'] done]|e] eqn:Hloop; cbn [mbind result_bind] in Hrun;
      [|discriminate].
    apply runFeasibility_loop_result in Hloop as [Hd Hret].
    change (Z.to_nat 30) with 30%nat in Hd.
    destruct Hret as [-> | (_ & _ & ?)]; [|discriminate].
    + destruct (getSolution q' solution1) as [solution2|e];
        cbn [mbind result_bind] in Hrun; [|discriminate].
      injection Hrun as <-. cbn. repeat split; (discriminate || lia || done).
  - injection Hrun as <-. cbn. repeat split; (discriminate || lia || done).
Qed.

Lemma runFeasibility_never_reports_error_witness :
  (exists solution' mu' lambda',
     initialize dimensions_agree lp_nan_bound no_solution zero []
     = Ok (Error, solution', mu', lambda')) /\
  exists outcome,
    runFeasibility dimensions_agree zero lp_nan_bound no_solution kComponentWise
    = Ok outcome /\
    status outcome <> Error /\
    (minimizations outcome <= 30)%nat /\
    (status outcome = NotImplemented -> minimizations outcome = 0%nat).
Proof.
  split; [do 3 eexists; vm_compute; reflexivity|].
  eexists. split; [vm_compute; reflexivity|].
  apply (runFeasibility_never_reports_error dimensions_agree zero lp_nan_bound
           no_solution kComponentWise).
  vm_compute. reflexivity.
Defined.

(** *** A run that goes through *)

(** The vectors of a [Quadratic] have the sizes of the LP. *)
Definition sized (lp : HighsLp) (q : Quadratic) : Prop :=
  Z.of_nat (length (col_value_ q)) = numCol_ lp /\
  Z.of_nat (length (row_value_ q)) = numRow_ lp /\
  Z.of_nat (length (residual_ q)) = numRow_ lp.

Lemma update_sized lp q :
  lp_ok lp -> Z.of_nat (length (col_value_ q)) = numCol_ lp ->
  exists q', update lp q = Ok q' /\ sized lp q' /\ col_value_ q' = col_value_ q.
Proof.
  intros Hok Hlen.
  destruct (update_ok lp q Hok Hlen) as (q' & Hrun & Hc & Hr & Hs).
  exists q'. split; [done|]. split; [|done]. unfold sized. rewrite Hc. done.
Qed.

(** [minimize_column] writes one column value, and none when the
    column has no matrix entry. *)
Lemma minimize_column_frame lp mu lambda col q :
  lp_ok lp -> 0 <= col < numCol_ lp -> sized lp q ->
  Z.of_nat (length lambda) = numRow_ lp ->
  exists q', minimize_column lp mu lambda col q = Ok q' /\ sized lp q' /\
    (forall i : nat, i <> Z.to_nat col -> col_value_ q' !! i = col_value_ q !! i) /\
    (forall k, Astart_ lp !! Z.to_nat col = Some k ->
       Astart_ lp !! S (Z.to_nat col) = Some k ->
       col_value_ q' = col_value_ q).
Proof.
  intros Hok Hcol (Hcv & Hrv & Hres) Hlam. destruct Hok.
  unfold minimize_column.
  destruct (vget_in_range (Astart_ lp) col) as (k0 & Hg0 & H0); [lia|].
  destruct (vget_in_range (Astart_ lp) (col + 1)) as (k1 & Hg1 & H1); [lia|].
  rewrite CInt.wrap_id
    by (unfold CInt.in_range, CInt.INT_MIN, CInt.INT_MAX in *; lia).
  rewrite Hg0, Hg1. cbn [mbind result_bind].
  pose proof (lookup_Forall _ _ _ _ ok_Astart0 H0) as Hk0.
  pose proof (lookup_Forall _ _ _ _ ok_Astart0 H1) as Hk1.
  cbn beta in Hk0, Hk1.
  replace (Z.to_nat (col + 1)) with (S (Z.to_nat col)) in H1 by lia.
  destruct (Z.eqb_spec k0 k1) as [Heq|Hne]; [exists q; now repeat split|].
  match goal with
  | |- context [for_range k0 k1 ?body (zero, zero)] =>
      destruct (for_range_inv (fun _ : float * float => True) body k0 k1 (zero, zero))
        as ([a b] & Hab & _)
  end; [lia|lia|done| |].
  { intros k [a b] Hk _.
    destruct (vget_in_range (Aindex_ lp) k) as (row & Hgr & Hr); [lia|].
    pose proof (lookup_Forall _ _ _ _ ok_Aindex0 Hr) as Hrow. cbn beta in Hrow.
    destruct (vget_in_range (Avalue_ lp) k) as (v & Hgv & _); [lia|].
    destruct (vget_in_range (residual_ q) row) as (r & Hgres & _); [lia|].
    destruct (vget_in_range (col_value_ q) col) as (x & Hgx & _); [lia|].
    destruct (vget_in_range lambda row) as (l & Hgl & _); [lia|].
    run_step Hgr. run_step Hgv. run_step Hgres. run_step Hgx. run_step Hgl.
    eauto. }
  rewrite Hab. cbn [mbind result_bind].
  destruct (vget_in_range (colCost_ lp) col) as (c & Hgc & _); [lia|].
  run_step Hgc.
  destruct (vget_in_range (colUpper_ lp) col) as (u & Hgu & _); [lia|].
  destruct (vget_in_range (colLower_ lp) col) as (l & Hgl & _); [lia|].
  destruct (vget_in_range (col_value_ q) col) as (x & Hgx & _); [lia|].
  match goal with
  | |- context [mbind _ (if ?c then _ else _)] =>
      assert (exists new_x,
                (if c
                 then u0 ← vget (colUpper_ lp) col; mret (std_min _ u0)
                 else l0 ← vget (colLower_ lp) col; mret (std_max _ l0))
                = Ok new_x) as (new_x & ->)
  end.
  { rewrite Hgu, Hgl. cbn [mbind result_bind mret result_ret].
    match goal with |- context [if ?c then _ else _] => destruct c end; eauto. }
  cbn [mbind result_bind]. run_step Hgx.
  rewrite vset_ok by lia. cbn [mbind result_bind].
  set (P := fun t : list float * list float =>
              Z.of_nat (length (fst t)) = numRow_ lp /\
              Z.of_nat (length (snd t)) = numRow_ lp).
  match goal with
  | |- context [for_range k0 k1 ?body (residual_ q, row_value_ q)] =>
      destruct (for_range_inv P body k0 k1 (residual_ q, row_value_ q))
        as ([res rv] & Hrr & HP1 & HP2)
  end; [lia|lia|done| |].
  { intros k [res rv] Hk [Hl1 Hl2]. cbn [fst snd] in Hl1, Hl2.
    destruct (vget_in_range (Aindex_ lp) k) as (row & Hgr & Hr); [lia|].
    pose proof (lookup_Forall _ _ _ _ ok_Aindex0 Hr) as Hrow. cbn beta in Hrow.
    destruct (vget_in_range (Avalue_ lp) k) as (v & Hgv & _); [lia|].
    destruct (vget_in_range res row) as (r & Hgres & _); [lia|].
    destruct (vget_in_range rv row) as (y & Hgy & _); [lia|].
    run_step Hgr. run_step Hgv. run_step Hgres.
    rewrite vset_ok by lia. cbn [mbind result_bind]. run_step Hgy.
    rewrite vset_ok by lia. cbn [mbind result_bind mret result_ret].
    eexists. split; [reflexivity|]. unfold P. cbn [fst snd].
    rewrite !length_insert. done. }
  rewrite Hrr. cbn [mbind result_bind mret result_ret].
  eexists. split; [reflexivity|]. unfold sized. cbn [fst snd] in HP1, HP2. cbn.
  rewrite length_insert. split; [done|]. split.
  - intros i Hi. now rewrite list_lookup_insert_ne.
  - intros k Hc0 Hc1. congruence.
Qed.

Lemma minimize_column_ok lp mu lambda col q :
  lp_ok lp -> 0 <= col < numCol_ lp -> sized lp q ->
  Z.of_nat (length lambda) = numRow_ lp ->
  exists q', minimize_column lp mu lambda col q = Ok q' /\ sized lp q'.
Proof.
  intros Hok Hcol Hq Hlam.
  destruct (minimize_column_frame lp mu lambda col q Hok Hcol Hq Hlam)
    as (q' & Hrun & Hs & _).
  now exists q'.
Qed.









(** *** Runs that leave the vectors *)





(** An equality row, and a column with a NaN for its lower bound. *)
Definition lp_nan_column : HighsLp :=
  {| numCol_ := 1; numRow_ := 1; numInt_ := 0; nnz_ := 1;
     Astart_ := [0; 1]; Aindex_ := [0]; Avalue_ := [one];
     colCost_ := [one]; colLower_ := [nan]; colUpper_ := [one];
     rowLower_ := [one]; rowUpper_ := [one];
     sense_ := 1; offset_ := zero |}.




Example runFeasibility_nan_column_run :
  runFeasibility dimensions_agree zero lp_nan_column no_solution kComponentWise
  = Err OutOfBounds.
Proof. vm_compute. reflexivity. Qed.

(** A row [0 = 1] and no column. *)
Definition lp_no_column : HighsLp :=
  {| numCol_ := 0; numRow_ := 1; numInt_ := 0; nnz_ := 0;
     Astart_ := [0]; Aindex_ := []; Avalue_ := [];
     colCost_ := []; colLower_ := []; colUpper_ := [];
     rowLower_ := [one]; rowUpper_ := [one];
     sense_ := 1; offset_ := zero |}.




Example runFeasibility_no_column_run :
  runFeasibility dimensions_agree zero lp_no_column no_solution kComponentWise
  = Err OutOfBounds.
Proof. vm_compute. reflexivity. Qed.

(** *** [isEqualityProblem] *)

(** X16. [isEqualityProblem] answers [true] exactly when every row
    has [rowLower_[row] == rowUpper_[row]] as doubles. So an LP without
    rows is an equality problem, and an LP with a NaN among its row
    bounds is not. *)
Theorem isEqualityProblem_decides (lp : HighsLp) :
  0 <= numRow_ lp <= CInt.INT_MAX ->
  Z.of_nat (length (rowLower_ lp)) = numRow_ lp ->
  Z.of_nat (length (rowUpper_ lp)) = numRow_ lp ->
  exists b, isEqualityProblem lp = Ok b /\
    (b = true <->
     forall (i : nat) lo up,
       rowLower_ lp !! i = Some lo -> rowUpper_ lp !! i = Some up ->
       PrimFloat.eqb lo up = true) /\
    (numRow_ lp = 0 -> b = true) /\
    (b = true ->
     Forall (fun x => is_nan x = false) (rowLower_ lp) /\
     Forall (fun x => is_nan x = false) (rowUpper_ lp)).
Proof.
  intros Hrows HlenL HlenU.
  destruct (isEqualityProblem_spec lp Hrows HlenL HlenU) as (b & Hrun & Hb).
  exists b. split; [done|].
  assert (b = true <->
          forall (i : nat) lo up,
            rowLower_ lp !! i = Some lo -> rowUpper_ lp !! i = Some up ->
            PrimFloat.eqb lo up = true) as Hiff.
  { split.
    - intros -> i lo up Hlo Hup.
      destruct (PrimFloat.eqb lo up) eqn:E; [done|].
      assert (true = false) as Habs; [|discriminate].
      apply Hb. exists i, lo, up. unfold Double.ne. now rewrite E.
    - intros Hall. destruct b; [done|].
      destruct Hb as [Hb _]. destruct (Hb eq_refl) as (i & lo & up & Hlo & Hup & Hne).
      unfold Double.ne in Hne. rewrite (Hall i lo up Hlo Hup) in Hne. discriminate. }
  split; [done|]. split.
  - intros Hzero. apply Hiff. intros i lo up Hlo _.
    apply lookup_lt_Some in Hlo. lia.
  - intros Htrue. rewrite Hiff in Htrue. split; apply Forall_lookup; intros i x Hx.
    + destruct (lookup_lt_is_Some_2 (rowUpper_ lp) i) as [up Hup].
      { apply lookup_lt_Some in Hx. lia. }
      now destruct (DoubleEq.eqb_true_not_nan _ _ (Htrue i x up Hx Hup)).
    + destruct (lookup_lt_is_Some_2 (rowLower_ lp) i) as [lo Hlo].
      { apply lookup_lt_Some in Hx. lia. }
      now destruct (DoubleEq.eqb_true_not_nan _ _ (Htrue i lo x Hlo Hx)).
Qed.

Lemma isEqualityProblem_decides_witness :
  exists b, isEqualityProblem lp_range = Ok b /\
    (b = true <->
     forall (i : nat) lo up,
       rowLower_ lp_range !! i = Some lo -> rowUpper_ lp_range !! i = Some up ->
       PrimFloat.eqb lo up = true) /\
    (numRow_ lp_range = 0 -> b = true) /\
    (b = true ->
     Forall (fun x => is_nan x = false) (rowLower_ lp_range) /\
     Forall (fun x => is_nan x = false) (rowUpper_ lp_range)).
Proof.
  apply (isEqualityProblem_decides lp_range).
  - cbn. unfold CInt.INT_MAX. lia.
  - reflexivity.
  - reflexivity.
Defined.

(** *** The residual *)

(** A counted loop with an invariant that knows the counter. *)
Lemma for_range_inv_at {St : Type} (P : Z -> St -> Prop)
    (body : Z -> St -> result St) (hi : Z) (s : St) :
  0 <= hi <= CInt.INT_MAX ->
  P 0 s ->
  (forall j t, 0 <= j < hi -> P j t -> exists t', body j t = Ok t' /\ P (j + 1) t') ->
  exists s', for_range 0 hi body s = Ok s' /\ P hi s'.
Proof.
  intros Hhi Hs Hbody. unfold for_range.
  assert (forall steps i t,
            0 <= i -> i + Z.of_nat steps = hi -> P i t ->
            exists s', for_loop steps i body t = Ok s' /\ P hi s') as Hloop.
  { induction steps as [|n IH]; intros i t Hi Hsum Ht.
    - exists t. split; [reflexivity|]. now replace hi with i by lia.
    - destruct (Hbody i t) as (t' & Ht' & HP'); [lia|done|].
      cbn [for_loop]. rewrite Ht'. cbn [mbind result_bind].
      rewrite CInt.wrap_id
        by (unfold CInt.in_range, CInt.INT_MIN, CInt.INT_MAX in *; lia).
      apply IH; [lia|lia|done]. }
  apply Hloop; [lia|lia|done].
Qed.

Lemma updateResidual_spec lp q :
  lp_ok lp -> Z.of_nat (length (row_value_ q)) = numRow_ lp ->
  exists q', updateResidual lp q = Ok q' /\
    col_value_ q' = col_value_ q /\ row_value_ q' = row_value_ q /\
    Z.of_nat (length (residual_ q')) = numRow_ lp /\
    (forall (i : nat) up rv,
       rowUpper_ lp !! i = Some up -> row_value_ q !! i = Some rv ->
       residual_ q' !! i = Some (up - rv)%float).
Proof.
  intros Hok Hlen. destruct Hok. unfold updateResidual.
  rewrite vassign_ok by lia. cbn [mbind result_bind].
  set (P := fun (row : Z) (t : list float * float * float) =>
              Z.of_nat (length (fst (fst t))) = numRow_ lp /\
              forall (i : nat) up rv, (Z.of_nat i < row) ->
                rowUpper_ lp !! i = Some up -> row_value_ q !! i = Some rv ->
                fst (fst t) !! i = Some (up - rv)%float).
  match goal with
  | |- context [for_range 0 (numRow_ lp) ?body ?init] =>
      destruct (for_range_inv_at P body (numRow_ lp) init)
        as ([[res n1] n2] & Hres & HP1 & HP2)
  end; [lia| | |].
  - split; [cbn; rewrite length_replicate; lia|]. intros i up rv Hi. lia.
  - intros row [[res n1] n2] Hrow [Hl Hprev]. cbn [fst] in Hl, Hprev.
    destruct (vget_in_range (rowUpper_ lp) row) as (up & Hgu & Hup); [lia|].
    destruct (vget_in_range (row_value_ q) row) as (rv & Hgr & Hrv); [lia|].
    rewrite Hgu, Hgr. cbn [mbind result_bind].
    rewrite vset_ok by lia. cbn [mbind result_bind].
    destruct (vget_in_range (<[Z.to_nat row := (up - rv)%float]> res) row)
      as (r & Hgx & _); [rewrite length_insert; lia|].
    rewrite Hgx. cbn [mbind result_bind mret result_ret].
    eexists. split; [reflexivity|]. split; cbn [fst].
    + rewrite length_insert. lia.
    + intros i up' rv' Hi Hup' Hrv'.
      destruct (decide (i = Z.to_nat row)) as [->|Hne].
      * rewrite list_lookup_insert_eq by lia. congruence.
      * rewrite list_lookup_insert_ne by lia. apply Hprev; [lia|done|done].
  - rewrite Hres. cbn [mbind result_bind mret result_ret].
    eexists. split; [reflexivity|]. cbn [fst] in HP1, HP2. cbn.
    repeat split; try done.
    intros i up rv Hup Hrv. apply HP2; [|done|done].
    apply lookup_lt_Some in Hup. lia.
Qed.

(** The residual of a [Quadratic] is the right-hand side less the row
    value, row by row and as doubles. *)
Definition residual_exact (lp : HighsLp) (q : Quadratic) : Prop :=
  forall (i : nat) up rv,
    rowUpper_ lp !! i = Some up -> row_value_ q !! i = Some rv ->
    residual_ q !! i = Some (up - rv)%float.

Lemma update_residual lp q :
  lp_ok lp -> Z.of_nat (length (col_value_ q)) = numCol_ lp ->
  exists q', update lp q = Ok q' /\ sized lp q' /\ residual_exact lp q'.
Proof.
  intros Hok Hlen. unfold update.
  destruct (updateObjective_ok lp q Hok Hlen) as (q1 & H1 & Hc1 & _).
  rewrite H1. cbn [mbind result_bind].
  destruct (updateRowValue_ok lp q1 Hok) as (q2 & H2 & Hc2 & Hr2); [congruence|].
  rewrite H2. cbn [mbind result_bind].
  destruct (updateResidual_spec lp q2 Hok Hr2) as (q3 & H3 & Hc3 & Hr3 & Hs3 & Hex).
  exists q3. split; [done|]. split.
  - unfold sized. rewrite Hc3, Hr3. repeat split; try done. congruence.
  - unfold residual_exact. now rewrite Hr3.
Qed.

(** X17. Every [Quadratic] that leaves its constructor or
    [minimize_by_component] has an exact residual: [residual_[row]] is
    the double [rowUpper_[row] - row_value_[row]] for every row. The
    increments that [minimize_by_component] adds to the residual column
    by column leave no trace, since [update] recomputes it. *)
Theorem residual_is_recomputed (lp : HighsLp) (primal_values : list float)
    (mu : float) (lambda : list float) (q : Quadratic) :
  lp_ok lp ->
  Z.of_nat (length primal_values) = numCol_ lp ->
  sized lp q -> Z.of_nat (length lambda) = numRow_ lp ->
  (exists q0, Quadratic_new lp primal_values = Ok q0 /\
     col_value_ q0 = primal_values /\ residual_exact lp q0) /\
  (exists q', minimize_by_component lp mu lambda q = Ok q' /\
     residual_exact lp q').
Proof.
  intros Hok Hlen Hq Hlam. split.
  - unfold Quadratic_new.
    match goal with
    | |- context [update lp ?q0] =>
        destruct (update_residual lp q0 Hok Hlen) as (q1 & Hrun & _ & Hex);
        destruct (update_ok lp q0 Hok Hlen) as (q1' & Hrun' & Hcv & _)
    end.
    rewrite Hrun in Hrun'. injection Hrun' as <-.
    exists q1. now repeat split.
  - unfold minimize_by_component.
    match goal with
    | |- context [for_range 0 100 ?body q] =>
        destruct (for_range_inv (sized lp) body 0 100 q) as (q1 & Hq1 & Hs1)
    end; [lia|unfold CInt.INT_MAX; lia|done| |].
    { intros iteration t _ Ht.
      destruct (for_range_inv (sized lp) (minimize_column lp mu lambda)
                  0 (numCol_ lp) t) as (t1 & Ht1 & Hst1);
        [lia|destruct Hok; lia|done| |].
      { intros col t' Hcol Ht'. now apply minimize_column_ok. }
      rewrite Ht1. cbn [mbind result_bind].
      destruct (update_sized lp t1 Hok) as (t2 & Ht2 & Hst2 & _); [apply Hst1|].
      eauto. }
    rewrite Hq1. cbn [mbind result_bind].
    destruct (update_residual lp q1 Hok) as (q2 & Hq2 & _ & Hex); [apply Hs1|].
    eauto.
Qed.

Lemma residual_is_recomputed_witness :
  (exists q0, Quadratic_new lp_small [zero; two; (-4)%float] = Ok q0 /\
     col_value_ q0 = [zero; two; (-4)%float] /\ residual_exact lp_small q0) /\
  (exists q', minimize_by_component lp_small ten [zero]
                {| col_value_ := [zero; two; (-4)%float]; row_value_ := [two];
                   objective_ := two; residual_norm_1_ := one;
                   residual_norm_2_ := one; residual_ := [(-1)%float] |}
              = Ok q' /\
     residual_exact lp_small q').
Proof.
  apply (residual_is_recomputed lp_small [zero; two; (-4)%float] ten [zero]).
  - apply lp_small_ok.
  - reflexivity.
  - repeat split.
  - reflexivity.
Defined.

(** *** [getAtb] and [getAtLambda] *)

(** A computation behind an [assert]. *)
Inductive asserted (A : Type) : Type :=
| Passed (a : A)
| AssertionFailed.

Arguments Passed {A} a.
Arguments AssertionFailed {A}.

(** [getAtLambda]: [atl(lp.numCol_)] holds zeros. *)
Definition getAtLambda (lp : HighsLp) (lambda : list float) : result (list float) :=
  atl ← vassign (numCol_ lp) zero;
  for_range 0 (numCol_ lp)
    (fun col atl =>
       k0 ← vget (Astart_ lp) col;
       k1 ← vget (Astart_ lp) (CInt.wrap (col + 1));
       for_range k0 k1
         (fun k atl =>
            row ← vget (Aindex_ lp) k;
            a ← vget (Avalue_ lp) k;
            l ← vget lambda row;
            old ← vget atl col;
            vset atl col (old + a * l)%float)
         atl)
    atl.

(** [getAtb], with its [assert(lp.rowUpper_ == lp.rowLower_)]. *)
Definition getAtb (lp : HighsLp) : asserted (result (list float)) :=
  if VectorEq.vector_eq PrimFloat.eqb (rowUpper_ lp) (rowLower_ lp)
  then Passed
         (atb ← vassign (numCol_ lp) zero;
          for_range 0 (numCol_ lp)
            (fun col atb =>
               k0 ← vget (Astart_ lp) col;
               k1 ← vget (Astart_ lp) (CInt.wrap (col + 1));
               for_range k0 k1
                 (fun k atb =>
                    row ← vget (Aindex_ lp) k;
                    a ← vget (Avalue_ lp) k;
                    b ← vget (rowUpper_ lp) row;
                    old ← vget atb col;
                    vset atb col (old + a * b)%float)
                 atb)
            atb)
  else AssertionFailed.

Lemma getAtLambda_spec lp lambda :
  lp_ok lp -> Z.of_nat (length lambda) = numRow_ lp ->
  exists atl,
    getAtLambda lp lambda = Ok atl /\
    Z.of_nat (length atl) = numCol_ lp /\
    (forall (col : nat) k,
       Astart_ lp !! col = Some k -> Astart_ lp !! S col = Some k ->
       atl !! col = Some zero).
Proof.
  intros Hok Hlam. destruct Hok. unfold getAtLambda.
  rewrite vassign_ok by lia. cbn [mbind result_bind].
  set (P := fun (col : Z) (t : list float) =>
              Z.of_nat (length t) = numCol_ lp /\
              (forall j : nat, col <= Z.of_nat j < numCol_ lp -> t !! j = Some zero) /\
              (forall (j : nat) k, Z.of_nat j < col ->
                 Astart_ lp !! j = Some k -> Astart_ lp !! S j = Some k ->
                 t !! j = Some zero)).
  match goal with
  | |- context [for_range 0 (numCol_ lp) ?body ?init] =>
      destruct (for_range_inv_at P body (numCol_ lp) init)
        as (atl & Hrun & Hlen & _ & Hzero)
  end; [lia| | |].
  - split; [rewrite length_replicate; lia|]. split; [|intros j k Hj; lia].
    intros j Hj. apply lookup_replicate_2. lia.
  - intros col t Hcol (Hl & Hhigh & Hlow).
    destruct (vget_in_range (Astart_ lp) col) as (k0 & Hg0 & H0); [lia|].
    destruct (vget_in_range (Astart_ lp) (col + 1)) as (k1 & Hg1 & H1); [lia|].
    rewrite CInt.wrap_id
      by (unfold CInt.in_range, CInt.INT_MIN, CInt.INT_MAX in *; lia).
    rewrite Hg0, Hg1. cbn [mbind result_bind].
    pose proof (lookup_Forall _ _ _ _ ok_Astart0 H0) as Hk0.
    pose proof (lookup_Forall _ _ _ _ ok_Astart0 H1) as Hk1.
    cbn beta in Hk0, Hk1.
    replace (Z.to_nat (col + 1)) with (S (Z.to_nat col)) in H1 by lia.
    set (R := fun t' : list float =>
                Z.of_nat (length t') = numCol_ lp /\
                (forall j : nat, j <> Z.to_nat col -> t' !! j = t !! j) /\
                (k0 = k1 -> t' = t)).
    match goal with
    | |- context [for_range k0 k1 ?body t] =>
        assert (exists t', for_range k0 k1 body t = Ok t' /\ R t')
          as (t' & -> & Hl' & Hother & Hsame)
    end.
    { destruct (decide (k0 = k1)) as [->|Hne].
      - exists t. unfold for_range. replace (Z.to_nat (k1 - k1)) with 0%nat by lia.
        split; [reflexivity|]. now repeat split.
      - apply for_range_inv; [lia|lia|now repeat split|].
        intros k t' Hk (Hl' & Hother & _).
        destruct (vget_in_range (Aindex_ lp) k) as (row & Hgr & Hr); [lia|].
        pose proof (lookup_Forall _ _ _ _ ok_Aindex0 Hr) as Hrow. cbn beta in Hrow.
        destruct (vget_in_range (Avalue_ lp) k) as (a & Hga & _); [lia|].
        destruct (vget_in_range lambda row) as (l & Hgl & _); [lia|].
        destruct (vget_in_range t' col) as (old & Hgo & _); [lia|].
        run_step Hgr. run_step Hga. run_step Hgl. run_step Hgo.
        rewrite vset_ok by lia. eexists. split; [reflexivity|].
        split; [rewrite length_insert; lia|]. split; [|lia].
        intros j Hj. rewrite list_lookup_insert_ne by done. now apply Hother. }
    eexists. split; [reflexivity|]. split; [done|]. split.
    + intros j Hj. rewrite Hother by lia. apply Hhigh. lia.
    + intros j k Hj Hj0 Hj1.
      destruct (decide (j = Z.to_nat col)) as [->|Hne].
      * rewrite Hsame by congruence. apply Hhigh. lia.
      * rewrite Hother by done. apply (Hlow j k); [lia|done|done].
  - exists atl. split; [done|]. split; [done|].
    intros col k Hc0 Hc1. apply (Hzero col k); [|done|done].
    apply lookup_lt_Some in Hc1. lia.
Qed.

(** X25. On a well-formed LP [getAtLambda(lp, lambda)], for a
    [lambda] with [numRow_] entries, stays inside its vectors and returns
    [numCol_] entries, of which those of the columns without a matrix
    entry are [0]. [getAtb(lp)] is the same computation with
    [rowUpper_] for [lambda], behind its assertion
    [rowUpper_ == rowLower_]. *)
Theorem getAtLambda_in_range (lp : HighsLp) (lambda : list float) :
  lp_ok lp -> Z.of_nat (length lambda) = numRow_ lp ->
  (exists atl,
     getAtLambda lp lambda = Ok atl /\
     Z.of_nat (length atl) = numCol_ lp /\
     (forall (col : nat) k,
        Astart_ lp !! col = Some k -> Astart_ lp !! S col = Some k ->
        atl !! col = Some zero)) /\
  (exists atb,
     getAtLambda lp (rowUpper_ lp) = Ok atb /\
     Z.of_nat (length atb) = numCol_ lp /\
     getAtb lp
     = if VectorEq.vector_eq PrimFloat.eqb (rowUpper_ lp) (rowLower_ lp)
       then Passed (Ok atb) else AssertionFailed).
Proof.
  intros Hok Hlam. split; [now apply getAtLambda_spec|].
  destruct (getAtLambda_spec lp (rowUpper_ lp) Hok) as (atb & Hrun & Hlen & _).
  { now destruct Hok. }
  exists atb. split; [done|]. split; [done|].
  unfold getAtb. destruct (VectorEq.vector_eq _ _ _); [|reflexivity].
  f_equal. exact Hrun.
Qed.

Lemma getAtLambda_in_range_witness :
  (exists atl,
     getAtLambda lp_small [two] = Ok atl /\
     Z.of_nat (length atl) = numCol_ lp_small /\
     (forall (col : nat) k,
        Astart_ lp_small !! col = Some k -> Astart_ lp_small !! S col = Some k ->
        atl !! col = Some zero)) /\
  (exists atb,
     getAtLambda lp_small (rowUpper_ lp_small) = Ok atb /\
     Z.of_nat (length atb) = numCol_ lp_small /\
     getAtb lp_small
     = if VectorEq.vector_eq PrimFloat.eqb (rowUpper_ lp_small) (rowLower_ lp_small)
       then Passed (Ok atb) else AssertionFailed).
Proof.
  apply (getAtLambda_in_range lp_small [two]).
  - apply lp_small_ok.
  - reflexivity.
Defined.

Example getAtLambda_run :
  getAtLambda lp_small [two] = Ok [two; two; zero] /\
  getAtb lp_small = Passed (Ok [one; one; zero]) /\
  getAtb lp_range = AssertionFailed.
Proof. repeat split; vm_compute; reflexivity. Qed.

(** *** Columns without a matrix entry *)


Section EmptyColumn.

Variable lp : HighsLp.
Hypothesis Hok : lp_ok lp.

(** Column [j] has no entry: [Astart_[j] == Astart_[j + 1]]. *)
Variables (j : nat) (k : Z).
Hypothesis Hstart : Astart_ lp !! j = Some k.
Hypothesis Hnext : Astart_ lp !! S j = Some k.






End EmptyColumn.



End FindFeasibility.

(** ** [HighsLp::operator==] (lp_data/HighsLp.h) *)

Module HighsLpEquality.

Import VectorEq.

(** The whole of [class HighsLp]: the numerical members, which the
    feasibility routine reads, with the names and the integrality
    markers. *)
Record HighsLp : Type := {
  numbers : FindFeasibility.HighsLp;
  model_name_ : string;
  lp_name_ : string;
  row_names_ : list string;
  col_names_ : list string;
  integrality_ : list Z
}.

Definition HighsLp_eq (a b : HighsLp) : bool :=
  let la := numbers a in
  let lb := numbers b in
  if negb (FindFeasibility.numCol_ la =? FindFeasibility.numCol_ lb)
     || negb (FindFeasibility.numRow_ la =? FindFeasibility.numRow_ lb)
     || negb (FindFeasibility.nnz_ la =? FindFeasibility.nnz_ lb)
     || negb (FindFeasibility.sense_ la =? FindFeasibility.sense_ lb)
     || Double.ne (FindFeasibility.offset_ la) (FindFeasibility.offset_ lb)
     || negb (String.eqb (model_name_ a) (model_name_ b))
  then false
  else if negb (vector_eq String.eqb (row_names_ a) (row_names_ b))
          || negb (vector_eq String.eqb (col_names_ a) (col_names_ b))
  then false
  else if negb (vector_eq PrimFloat.eqb (FindFeasibility.colCost_ la)
                  (FindFeasibility.colCost_ lb))
  then false
  else if negb (vector_eq PrimFloat.eqb (FindFeasibility.colUpper_ la)
                  (FindFeasibility.colUpper_ lb))
          || negb (vector_eq PrimFloat.eqb (FindFeasibility.colLower_ la)
                     (FindFeasibility.colLower_ lb))
          || negb (vector_eq PrimFloat.eqb (FindFeasibility.rowUpper_ la)
                     (FindFeasibility.rowUpper_ lb))
          || negb (vector_eq PrimFloat.eqb (FindFeasibility.rowLower_ la)
                     (FindFeasibility.rowLower_ lb))
  then false
  else if negb (vector_eq Z.eqb (FindFeasibility.Astart_ la)
                  (FindFeasibility.Astart_ lb))
          || negb (vector_eq Z.eqb (FindFeasibility.Aindex_ la)
                     (FindFeasibility.Aindex_ lb))
          || negb (vector_eq PrimFloat.eqb (FindFeasibility.Avalue_ la)
                     (FindFeasibility.Avalue_ lb))
  then false
  else true.

(** What the comparison requires, member by member. *)
Definition members_equal (a b : HighsLp) : Prop :=
  let la := numbers a in
  let lb := numbers b in
  FindFeasibility.numCol_ la = FindFeasibility.numCol_ lb /\
  FindFeasibility.numRow_ la = FindFeasibility.numRow_ lb /\
  FindFeasibility.nnz_ la = FindFeasibility.nnz_ lb /\
  FindFeasibility.sense_ la = FindFeasibility.sense_ lb /\
  PrimFloat.eqb (FindFeasibility.offset_ la) (FindFeasibility.offset_ lb) = true /\
  model_name_ a = model_name_ b /\
  row_names_ a = row_names_ b /\ col_names_ a = col_names_ b /\
  vector_eq PrimFloat.eqb (FindFeasibility.colCost_ la) (FindFeasibility.colCost_ lb) = true /\
  vector_eq PrimFloat.eqb (FindFeasibility.colUpper_ la) (FindFeasibility.colUpper_ lb) = true /\
  vector_eq PrimFloat.eqb (FindFeasibility.colLower_ la) (FindFeasibility.colLower_ lb) = true /\
  vector_eq PrimFloat.eqb (FindFeasibility.rowUpper_ la) (FindFeasibility.rowUpper_ lb) = true /\
  vector_eq PrimFloat.eqb (FindFeasibility.rowLower_ la) (FindFeasibility.rowLower_ lb) = true /\
  FindFeasibility.Astart_ la = FindFeasibility.Astart_ lb /\
  FindFeasibility.Aindex_ la = FindFeasibility.Aindex_ lb /\
  vector_eq PrimFloat.eqb (FindFeasibility.Avalue_ la) (FindFeasibility.Avalue_ lb) = true.

Lemma HighsLp_eq_members (a b : HighsLp) :
  HighsLp_eq a b = true <-> members_equal a b.
Proof.
  unfold HighsLp_eq, members_equal, Double.ne. cbn zeta.
  rewrite <- !(vector_eq_eq Z.eqb) by apply Z.eqb_eq.
  rewrite <- !(vector_eq_eq String.eqb) by apply String.eqb_eq.
  rewrite <- (String.eqb_eq (model_name_ a)).
  rewrite <- !Z.eqb_eq.
  repeat match goal with
  | |- context [if ?c then false else _] => destruct c eqn:?
  end;
  repeat match goal with
  | H : _ || _ = true |- _ => apply orb_true_iff in H as [H|H]
  | H : _ || _ = false |- _ => apply orb_false_iff in H as [? ?]
  | H : negb _ = true |- _ => apply negb_true_iff in H
  | H : negb _ = false |- _ => apply negb_false_iff in H
  end;
  split; intros Hm; try discriminate; try (now repeat split);
  exfalso; decompose [and] Hm; congruence.
Qed.

Lemma members_equal_sym (a b : HighsLp) : members_equal a b -> members_equal b a.
Proof.
  unfold members_equal. cbn zeta. intros Hm. decompose [and] Hm.
  repeat split; try (symmetry; assumption); try (now apply vector_eq_sym).
  now rewrite DoubleEq.eqb_sym.
Qed.

Lemma members_equal_trans (a b c : HighsLp) :
  members_equal a b -> members_equal b c -> members_equal a c.
Proof.
  unfold members_equal. cbn zeta. intros Hab Hbc.
  decompose [and] Hab. decompose [and] Hbc.
  repeat split; try congruence;
    try (eapply vector_eq_trans; eassumption).
  eapply DoubleEq.eqb_trans; eassumption.
Qed.

(** X18. [HighsLp::operator==] is symmetric and transitive. *)
Theorem HighsLp_eq_symmetric_transitive (a b c : HighsLp) :
  HighsLp_eq a b = HighsLp_eq b a /\
  (HighsLp_eq a b = true -> HighsLp_eq b c = true -> HighsLp_eq a c = true).
Proof.
  split.
  - destruct (HighsLp_eq a b) eqn:Hab, (HighsLp_eq b a) eqn:Hba; try done.
    + apply HighsLp_eq_members, members_equal_sym, HighsLp_eq_members in Hab.
      congruence.
    + apply HighsLp_eq_members, members_equal_sym, HighsLp_eq_members in Hba.
      congruence.
  - rewrite !HighsLp_eq_members. apply members_equal_trans.
Qed.

(** [a] with other integrality data: [numInt_], [lp_name_] and
    [integrality_]. *)
Definition with_integrality (a : HighsLp) (numInt : Z) (lp_name : string)
    (integrality : list Z) : HighsLp :=
  let la := numbers a in
  {| numbers :=
       {| FindFeasibility.numCol_ := FindFeasibility.numCol_ la;
          FindFeasibility.numRow_ := FindFeasibility.numRow_ la;
          FindFeasibility.numInt_ := numInt;
          FindFeasibility.nnz_ := FindFeasibility.nnz_ la;
          FindFeasibility.Astart_ := FindFeasibility.Astart_ la;
          FindFeasibility.Aindex_ := FindFeasibility.Aindex_ la;
          FindFeasibility.Avalue_ := FindFeasibility.Avalue_ la;
          FindFeasibility.colCost_ := FindFeasibility.colCost_ la;
          FindFeasibility.colLower_ := FindFeasibility.colLower_ la;
          FindFeasibility.colUpper_ := FindFeasibility.colUpper_ la;
          FindFeasibility.rowLower_ := FindFeasibility.rowLower_ la;
          FindFeasibility.rowUpper_ := FindFeasibility.rowUpper_ la;
          FindFeasibility.sense_ := FindFeasibility.sense_ la;
          FindFeasibility.offset_ := FindFeasibility.offset_ la |};
     model_name_ := model_name_ a;
     lp_name_ := lp_name;
     row_names_ := row_names_ a;
     col_names_ := col_names_ a;
     integrality_ := integrality |}.

(** The doubles of an LP: the offset, then the costs, the bounds and the
    matrix values. *)
Definition doubles (a : HighsLp) : list float :=
  let la := numbers a in
  FindFeasibility.offset_ la ::
  FindFeasibility.colCost_ la ++ FindFeasibility.colUpper_ la ++
  FindFeasibility.colLower_ la ++ FindFeasibility.rowUpper_ la ++
  FindFeasibility.rowLower_ la ++ FindFeasibility.Avalue_ la.

(** X19. [HighsLp::operator==] is not the identity of LPs. An LP
    equals itself exactly when none of its doubles is a NaN; and the
    answer does not depend on [numInt_], [lp_name_] or [integrality_],
    which the operator never reads: a problem equals the same problem
    with other integrality markers. *)
Theorem HighsLp_eq_reflexive_blind (a b : HighsLp) (numInt : Z)
    (lp_name : string) (integrality : list Z) :
  (HighsLp_eq a a = true <-> Forall (fun x => is_nan x = false) (doubles a)) /\
  HighsLp_eq (with_integrality a numInt lp_name integrality) b = HighsLp_eq a b /\
  HighsLp_eq a (with_integrality a numInt lp_name integrality) = HighsLp_eq a a.
Proof.
  split; [|split; reflexivity].
  rewrite HighsLp_eq_members. unfold members_equal, doubles. cbn zeta.
  rewrite Forall_cons, !Forall_app, !vector_eq_refl, DoubleEq.eqb_refl,
    negb_true_iff.
  split.
  - intros Hm. decompose [and] Hm. now repeat split.
  - intros Hm. decompose [and] Hm. now repeat split.
Qed.

Lemma isEqualityProblem_loop_eq (la lb : FindFeasibility.HighsLp) (steps : nat) :
  vector_eq PrimFloat.eqb (FindFeasibility.rowLower_ la)
    (FindFeasibility.rowLower_ lb) = true ->
  vector_eq PrimFloat.eqb (FindFeasibility.rowUpper_ la)
    (FindFeasibility.rowUpper_ lb) = true ->
  forall row,
    FindFeasibility.isEqualityProblem_loop la steps row
    = FindFeasibility.isEqualityProblem_loop lb steps row.
Proof.
  intros Hlo Hup. induction steps as [|n IH]; intros row; [reflexivity|].
  cbn [FindFeasibility.isEqualityProblem_loop].
  pose proof (vget_vector_eq _ _ row Hlo) as Hl.
  pose proof (vget_vector_eq _ _ row Hup) as Hu.
  destruct (vget (FindFeasibility.rowLower_ la) row) as [lo|e],
           (vget (FindFeasibility.rowLower_ lb) row) as [lo'|e'];
    try done; cbn [mbind result_bind]; [|congruence].
  destruct (vget (FindFeasibility.rowUpper_ la) row) as [up|e],
           (vget (FindFeasibility.rowUpper_ lb) row) as [up'|e'];
    try done; cbn [mbind result_bind]; [|congruence].
  unfold Double.ne. rewrite (DoubleEq.eqb_cong lo lo' up up' Hl Hu).
  destruct (negb (PrimFloat.eqb lo' up')); [reflexivity|apply IH].
Qed.

(** The LP of the feasibility example, named, and the same with
    integrality markers and a zero of the other sign for an offset. *)
Definition named_small : HighsLp :=
  {| numbers := FindFeasibility.lp_small;
     model_name_ := "small"; lp_name_ := "lp";
     row_names_ := ["r0"]; col_names_ := ["x0"; "x1"; "x2"];
     integrality_ := [] |}.

Definition named_small_mip : HighsLp :=
  {| numbers :=
       {| FindFeasibility.numCol_ := 3; FindFeasibility.numRow_ := 1;
          FindFeasibility.numInt_ := 1; FindFeasibility.nnz_ := 2;
          FindFeasibility.Astart_ := [0; 1; 2; 2];
          FindFeasibility.Aindex_ := [0; 0];
          FindFeasibility.Avalue_ := [one; one];
          FindFeasibility.colCost_ := [one; one; zero];
          FindFeasibility.colLower_ := [(-1)%float; two; (-5)%float];
          FindFeasibility.colUpper_ := [one; 3%float; (-4)%float];
          FindFeasibility.rowLower_ := [one];
          FindFeasibility.rowUpper_ := [one];
          FindFeasibility.sense_ := 1;
          FindFeasibility.offset_ := neg_zero |};
     model_name_ := "small"; lp_name_ := "mip";
     row_names_ := ["r0"]; col_names_ := ["x0"; "x1"; "x2"];
     integrality_ := [1; 0; 0] |}.

(** X20. LPs that [operator==] holds equal are equality problems
    together: [isEqualityProblem] gives the same answer on both, and
    faults on both or on neither. *)
Theorem HighsLp_eq_same_isEqualityProblem (a b : HighsLp) :
  HighsLp_eq a b = true ->
  FindFeasibility.isEqualityProblem (numbers a)
  = FindFeasibility.isEqualityProblem (numbers b).
Proof.
  intros Heq. apply HighsLp_eq_members in Heq.
  unfold members_equal in Heq. cbn zeta in Heq. decompose [and] Heq.
  unfold FindFeasibility.isEqualityProblem.
  replace (FindFeasibility.numRow_ (numbers b))
    with (FindFeasibility.numRow_ (numbers a)) by done.
  now apply isEqualityProblem_loop_eq.
Qed.

Lemma HighsLp_eq_same_isEqualityProblem_witness :
  named_small <> named_small_mip /\
  FindFeasibility.isEqualityProblem (numbers named_small)
  = FindFeasibility.isEqualityProblem (numbers named_small_mip).
Proof.
  split; [discriminate|].
  apply (HighsLp_eq_same_isEqualityProblem named_small named_small_mip).
  vm_compute. reflexivity.
Defined.

End HighsLpEquality.

(** ** LP actions and the status of the simplex LP (lp_data/HighsLp.h) *)

Module LpStatus.

(** [enum class LpAction], in the order of its declaration. *)
Inductive LpAction : Type :=
| DUALISE
| PERMUTE
| SCALE
| NEW_COSTS
| NEW_BOUNDS
| NEW_BASIS
| NEW_COLS
| NEW_ROWS
| DEL_COLS
| DEL_ROWS
| DEL_ROWS_BASIS_OK.

#[export] Instance LpAction_eq_dec : EqDecision LpAction.
Proof. solve_decision. Defined.



(** [struct HighsSimplexLpStatus]. [solution_status] is of the type
    [enum class SimplexSolutionStatus] of simplex/SimplexConst.h, which
    is not among the sources: it is kept as the integer under the
    enumerator. *)
Record HighsSimplexLpStatus : Type := {
  valid : bool;
  is_dualised : bool;
  is_permuted : bool;
  scaling_tried : bool;
  has_basis : bool;
  has_matrix_col_wise : bool;
  has_matrix_row_wise : bool;
  has_factor_arrays : bool;
  has_dual_steepest_edge_weights : bool;
  has_nonbasic_dual_values : bool;
  has_basic_primal_values : bool;
  has_invert : bool;
  has_fresh_invert : bool;
  has_fresh_rebuild : bool;
  has_dual_objective_value : bool;
  has_primal_objective_value : bool;
  solution_status : Z
}.

(** The ten booleans that record what has been derived from the LP. *)
Inductive StatusFlag : Type :=
| F_has_basis
| F_has_matrix_col_wise
| F_has_matrix_row_wise
| F_has_factor_arrays
| F_has_dual_steepest_edge_weights
| F_has_nonbasic_dual_values
| F_has_basic_primal_values
| F_has_invert
| F_has_fresh_invert
| F_has_fresh_rebuild.

#[export] Instance StatusFlag_eq_dec : EqDecision StatusFlag.
Proof. solve_decision. Defined.

Definition flag_value (f : StatusFlag) (s : HighsSimplexLpStatus) : bool :=
  match f with
  | F_has_basis => has_basis s
  | F_has_matrix_col_wise => has_matrix_col_wise s
  | F_has_matrix_row_wise => has_matrix_row_wise s
  | F_has_factor_arrays => has_factor_arrays s
  | F_has_dual_steepest_edge_weights => has_dual_steepest_edge_weights s
  | F_has_nonbasic_dual_values => has_nonbasic_dual_values s
  | F_has_basic_primal_values => has_basic_primal_values s
  | F_has_invert => has_invert s
  | F_has_fresh_invert => has_fresh_invert s
  | F_has_fresh_rebuild => has_fresh_rebuild s
  end.

(** [s.flag = false]. *)
Definition clear_flag (f : StatusFlag) (s : HighsSimplexLpStatus)
    : HighsSimplexLpStatus :=
  let keep (g : StatusFlag) : bool :=
    if decide (g = f) then false else flag_value g s in
  {| valid := valid s;
     is_dualised := is_dualised s;
     is_permuted := is_permuted s;
     scaling_tried := scaling_tried s;
     has_basis := keep F_has_basis;
     has_matrix_col_wise := keep F_has_matrix_col_wise;
     has_matrix_row_wise := keep F_has_matrix_row_wise;
     has_factor_arrays := keep F_has_factor_arrays;
     has_dual_steepest_edge_weights := keep F_has_dual_steepest_edge_weights;
     has_nonbasic_dual_values := keep F_has_nonbasic_dual_values;
     has_basic_primal_values := keep F_has_basic_primal_values;
     has_invert := keep F_has_invert;
     has_fresh_invert := keep F_has_fresh_invert;
     has_fresh_rebuild := keep F_has_fresh_rebuild;
     has_dual_objective_value := has_dual_objective_value s;
     has_primal_objective_value := has_primal_objective_value s;
     solution_status := solution_status s |}.

Section Update.

(** Modelled from the spec: [update_simplex_lp_status] is declared in
    simplex/HSimplex.h and defined in a file that is not among the
    sources. Section 6 of the specification: "Each action clears a
    defined subset of SimplexLpStatus booleans (has_basis,
    has_matrix_col_wise, has_matrix_row_wise, has_factor_arrays,
    has_dual_steepest_edge_weights, has_nonbasic_dual_values,
    has_basic_primal_values, has_invert, has_fresh_invert,
    has_fresh_rebuild)". Which subset an action clears is not said:
    [cleared_by] is any assignment of subsets to actions. *)
Variable cleared_by : LpAction -> list StatusFlag.

Definition update_simplex_lp_status (simplex_lp_status : HighsSimplexLpStatus)
    (action : LpAction) : HighsSimplexLpStatus :=
  foldr clear_flag simplex_lp_status (cleared_by action).

End Update.




Example update_simplex_lp_status_run :
  let s := {| valid := true; is_dualised := true; is_permuted := true; scaling_tried := true; has_basis := true; has_matrix_col_wise := true; has_matrix_row_wise := true; has_factor_arrays := true; has_dual_steepest_edge_weights := true; has_nonbasic_dual_values := true; has_basic_primal_values := true; has_invert := true; has_fresh_invert := true; has_fresh_rebuild := true; has_dual_objective_value := true; has_primal_objective_value := true; solution_status := 0 |} in
  let s' := update_simplex_lp_status
              (fun a => match a with
                        | NEW_COSTS => [F_has_nonbasic_dual_values; F_has_fresh_rebuild]
                        | _ => []
                        end) s NEW_COSTS in
  has_nonbasic_dual_values s' = false /\ has_fresh_rebuild s' = false /\
  has_basis s' = true /\ valid s' = true.
Proof. repeat split. Qed.

End LpStatus.

(** ** lp_data/HighsModelUtils.cpp: the names of rows and columns *)

Module HighsModelUtils.

(** [std::string::npos], the largest [size_t]; converted to [int] it
    is [-1], for a [size_t] of 64 bits as for one of 32. *)
Definition npos : Z := 18446744073709551615.

(** [int space_pos = name.find(" ")] *)
Definition find_space (name : string) : Z :=
  CInt.wrap (match String.index 0 " " name with
             | Some p => Z.of_nat p
             | None => npos
             end).

(** [namesWithSpaces]; [report] only switches a [printf] on. *)
Definition namesWithSpaces (num_name : Z) (names : list string) (report : bool)
    : result bool :=
  for_range 0 num_name
    (fun ix names_with_spaces =>
       name ← vget names ix;
       let space_pos := find_space name in
       mret (if space_pos >=? 0 then true else names_with_spaces))
    false.

(** [(int)name.length()] *)
Definition name_length (name : string) : Z :=
  CInt.wrap (Z.of_nat (String.length name)).

(** [std::max] on [int]. *)
Definition std_max (a b : Z) : Z := if a <? b then b else a.

Definition maxNameLength (num_name : Z) (names : list string) : result Z :=
  for_range 0 num_name
    (fun ix max_name_length =>
       name ← vget names ix;
       mret (std_max (name_length name) max_name_length))
    0.

(** [std::to_string(int)] *)
Definition to_string (ix : Z) : string :=
  DecimalString.NilZero.string_of_int (Z.to_int ix).

(** [normaliseNames]: the value returned, and the two objects it has
    references to, [names] and [max_name_length]. *)
Definition normaliseNames (name_type : string) (num_name : Z)
    (names : list string) (max_name_length : Z)
    : result (Z * list string * Z) :=
  let desired_max_name_length := max_name_length in
  let name_prefix := String.substring 0 1 name_type in
  num_empty_name ← for_range 0 num_name
      (fun ix num_empty_name =>
         name ← vget names ix;
         mret (if name_length name =? 0 then CInt.wrap (num_empty_name + 1)
               else num_empty_name))
      0;
  max_name_length ← (if num_empty_name =? 0 then maxNameLength num_name names
                     else mret max_name_length);
  let construct_names :=
    negb (num_empty_name =? 0) || (max_name_length >? desired_max_name_length) in
  '(names, names_with_spaces) ←
    (if construct_names
     then names' ← for_range 0 num_name
                     (fun ix names => vset names ix (name_prefix +:+ to_string ix))
                     names;
          mret (names', false)
     else names_with_spaces ← namesWithSpaces num_name names false;
          mret (names, names_with_spaces));
  max_name_length ← maxNameLength num_name names;
  mret (if (max_name_length >? 8) && names_with_spaces then 1 else 0,
        names, max_name_length).

(** The names the three functions look at. *)
Definition first_names (num_name : Z) (names : list string) : list string :=
  take (Z.to_nat num_name) names.

(** The character [' ']. *)
Definition space : Ascii.ascii :=
  Ascii.Ascii false false false false false true false false.

Definition has_space (name : string) : Prop :=
  exists n, String.get n name = Some space.

(** The largest of the lengths, and 0 when there is none. *)
Definition longest (names : list string) : Z :=
  foldr Z.max 0 ((fun name => Z.of_nat (String.length name)) <$> names).

(** No name is too long for its length to be an [int]. *)
Definition int_lengths (names : list string) : Prop :=
  Forall (fun name => Z.of_nat (String.length name) <= CInt.INT_MAX) names.

Lemma name_length_small (name : string) :
  Z.of_nat (String.length name) <= CInt.INT_MAX ->
  name_length name = Z.of_nat (String.length name).
Proof.
  intros H. unfold name_length. apply CInt.wrap_id.
  unfold CInt.in_range, CInt.INT_MIN, CInt.INT_MAX in *. lia.
Qed.

(** Where [find] sees a space. *)
Lemma index_space (name : string) :
  match String.index 0 " " name with
  | Some p => String.get p name = Some space /\ (p < String.length name)%nat
  | None => forall n, String.get n name <> Some space
  end.
Proof.
  induction name as [|b name IH].
  - cbn. intros n. destruct n; discriminate.
  - cbn [String.index String.prefix].
    change (Ascii.ascii_dec
              (Ascii.Ascii false false false false false true false false) b)
      with (Ascii.ascii_dec space b).
    destruct (Ascii.ascii_dec space b) as [<-|Hne].
    + assert (String.prefix "" name = true) as -> by (destruct name; reflexivity).
      cbn. split; [done|lia].
    + revert IH. destruct (String.index 0 " " name) as [p|]; intros IH.
      * destruct IH as [Hg Hp]. cbn. split; [done|lia].
      * cbn iota. intros [|n]; cbn; [congruence|apply IH].
Qed.

Lemma find_space_spec (name : string) :
  Z.of_nat (String.length name) <= CInt.INT_MAX ->
  (0 <= find_space name <-> has_space name).
Proof.
  intros Hlen. unfold find_space, has_space.
  pose proof (index_space name) as Hix.
  destruct (String.index 0 " " name) as [p|].
  - destruct Hix as [Hg Hp].
    rewrite CInt.wrap_id
      by (unfold CInt.in_range, CInt.INT_MIN, CInt.INT_MAX in *; lia).
    split; [eauto|lia].
  - change (CInt.wrap npos) with (-1). split; [lia|].
    intros [n Hn]. now apply Hix in Hn.
Qed.

(** A loop over the first names that reads each and folds it in. *)
Lemma for_range_names {St : Type} (step : string -> St -> St)
    (names : list string) (num_name : Z) (s : St) :
  num_name <= Z.of_nat (length names) -> num_name <= CInt.INT_MAX ->
  for_range 0 num_name (fun ix acc => name ← vget names ix; mret (step name acc)) s
  = Ok (foldl (fun acc name => step name acc) s (first_names num_name names)).
Proof.
  intros Hlen Hmax. unfold for_range, first_names.
  replace (num_name - 0) with num_name by lia.
  assert (forall steps ix acc,
            0 <= ix -> ix + Z.of_nat steps <= Z.of_nat (length names) ->
            ix + Z.of_nat steps <= CInt.INT_MAX ->
            for_loop steps ix
              (fun ix acc => name ← vget names ix; mret (step name acc)) acc
            = Ok (foldl (fun acc name => step name acc) acc
                    (take steps (drop (Z.to_nat ix) names)))) as Hloop.
  { induction steps as [|n IH]; intros ix acc Hix Hl Hm; [reflexivity|].
    cbn [for_loop].
    destruct (vget_in_range names ix) as (name & -> & Hname); [lia|].
    cbn [mbind result_bind mret result_ret].
    rewrite CInt.wrap_id
      by (unfold CInt.in_range, CInt.INT_MIN, CInt.INT_MAX in *; lia).
    rewrite IH by lia.
    replace (Z.to_nat (ix + 1)) with (S (Z.to_nat ix)) by lia.
    now rewrite (drop_S names name (Z.to_nat ix) Hname). }
  rewrite Hloop by (unfold CInt.INT_MAX in *; lia). now rewrite drop_0.
Qed.

Lemma for_range_names_past_end {St : Type} (step : string -> St -> St)
    (names : list string) (num_name : Z) (s : St) :
  Z.of_nat (length names) < num_name <= CInt.INT_MAX ->
  for_range 0 num_name (fun ix acc => name ← vget names ix; mret (step name acc)) s
  = Err OutOfBounds.
Proof.
  intros Hnum. unfold for_range.
  replace (num_name - 0) with num_name by lia.
  assert (forall steps ix acc,
            0 <= ix <= Z.of_nat (length names) ->
            Z.of_nat (length names) < ix + Z.of_nat steps <= CInt.INT_MAX ->
            for_loop steps ix
              (fun ix acc => name ← vget names ix; mret (step name acc)) acc
            = Err OutOfBounds) as Hloop.
  { induction steps as [|n IH]; intros ix acc Hix Hl; [lia|].
    cbn [for_loop].
    destruct (decide (ix = Z.of_nat (length names))) as [->|Hne].
    - unfold vget. destruct (Z.ltb_spec (Z.of_nat (length names)) 0); [lia|].
      rewrite lookup_ge_None_2 by lia. reflexivity.
    - destruct (vget_in_range names ix) as (name & -> & Hname); [lia|].
      cbn [mbind result_bind mret result_ret].
      rewrite CInt.wrap_id
        by (unfold CInt.in_range, CInt.INT_MIN, CInt.INT_MAX in *; lia).
      apply IH; lia. }
  apply Hloop; lia.
Qed.

Lemma first_names_int_lengths (names : list string) (name : string) :
  int_lengths names -> name ∈ names ->
  name_length name = Z.of_nat (String.length name).
Proof.
  intros Hall Hin. apply name_length_small.
  unfold int_lengths in Hall. rewrite Forall_forall in Hall. now apply Hall.
Qed.

Lemma foldl_std_max (names : list string) (a : Z) :
  0 <= a -> int_lengths names ->
  foldl (fun acc name => std_max (name_length name) acc) a names
  = Z.max a (longest names).
Proof.
  unfold longest. revert a.
  induction names as [|name names IH]; intros a Ha Hall; cbn.
  - lia.
  - apply Forall_cons in Hall as [Hname Hall].
    rewrite (name_length_small name Hname).
    unfold std_max. destruct (Z.ltb_spec (Z.of_nat (String.length name)) a);
      rewrite IH by (done || lia); lia.
Qed.

Lemma longest_nonneg (names : list string) : 0 <= longest names.
Proof. unfold longest. induction names; cbn; lia. Qed.

Lemma longest_bounds (names : list string) (name : string) :
  name ∈ names -> Z.of_nat (String.length name) <= longest names.
Proof.
  unfold longest. induction names as [|x names IH]; intros Hin.
  - now apply elem_of_nil in Hin.
  - apply elem_of_cons in Hin as [->|Hin]; cbn; [lia|]. apply IH in Hin. lia.
Qed.

Lemma longest_attained (names : list string) :
  names <> [] -> exists name, name ∈ names /\ longest names = Z.of_nat (String.length name).
Proof.
  unfold longest. induction names as [|x names IH]; [done|]. intros _.
  destruct names as [|y names].
  - exists x. split; [left|]. cbn. lia.
  - destruct IH as (name & Hin & Hl); [done|].
    cbn [fmap list_fmap foldr] in *.
    destruct (Z.max_spec (Z.of_nat (String.length x))
                (Z.max (Z.of_nat (String.length y))
                   (foldr Z.max 0 ((fun n => Z.of_nat (String.length n)) <$> names))))
      as [[_ ->] | [_ ->]].
    + exists name. split; [now right|done].
    + exists x. split; [left|done].
Qed.

Lemma maxNameLength_longest (num_name : Z) (names : list string) :
  num_name <= Z.of_nat (length names) -> num_name <= CInt.INT_MAX ->
  int_lengths (first_names num_name names) ->
  maxNameLength num_name names = Ok (longest (first_names num_name names)).
Proof.
  intros Hlen Hmax Hall. unfold maxNameLength.
  rewrite (for_range_names (fun name acc => std_max (name_length name) acc))
    by done.
  rewrite foldl_std_max by done.
  pose proof (longest_nonneg (first_names num_name names)). f_equal. lia.
Qed.

(** X21. [maxNameLength] returns the largest length among the first
    [num_name] names, and 0 when [num_name <= 0]: no name is longer, and
    some name is that long unless there is none. Asked about more names
    than the vector holds, it reads [names[size]], past the end. *)
Theorem maxNameLength_is_longest (num_name : Z) (names : list string) :
  num_name <= CInt.INT_MAX ->
  int_lengths names ->
  (num_name <= Z.of_nat (length names) ->
   exists m,
     maxNameLength num_name names = Ok m /\ 0 <= m /\
     (forall name, name ∈ first_names num_name names ->
        Z.of_nat (String.length name) <= m) /\
     (num_name <= 0 -> m = 0) /\
     (0 < num_name ->
      exists name, name ∈ first_names num_name names /\
        m = Z.of_nat (String.length name))) /\
  (Z.of_nat (length names) < num_name ->
   maxNameLength num_name names = Err OutOfBounds).
Proof.
  intros Hmax Hall. split.
  - intros Hlen. exists (longest (first_names num_name names)).
    split; [|split; [|split; [|split]]].
    + apply maxNameLength_longest; [done|done|]. now apply Forall_take.
    + apply longest_nonneg.
    + apply longest_bounds.
    + intros Hle. unfold first_names.
      now replace (Z.to_nat num_name) with 0%nat by lia.
    + intros Hpos. apply longest_attained. unfold first_names.
      destruct names as [|x names]; [cbn in Hlen; lia|].
      replace (Z.to_nat num_name) with (S (Z.to_nat (num_name - 1))) by lia.
      done.
  - intros Hlen. unfold maxNameLength.
    now apply (for_range_names_past_end
                 (fun name acc => std_max (name_length name) acc)).
Qed.

Lemma maxNameLength_is_longest_witness :
  (3 <= Z.of_nat (length ["x"; "profit"; "y 1"]) ->
   exists m,
     maxNameLength 3 ["x"; "profit"; "y 1"] = Ok m /\ 0 <= m /\
     (forall name, name ∈ first_names 3 ["x"; "profit"; "y 1"] ->
        Z.of_nat (String.length name) <= m) /\
     (3 <= 0 -> m = 0) /\
     (0 < 3 ->
      exists name, name ∈ first_names 3 ["x"; "profit"; "y 1"] /\
        m = Z.of_nat (String.length name))) /\
  (Z.of_nat (length ["x"; "profit"; "y 1"]) < 3 ->
   maxNameLength 3 ["x"; "profit"; "y 1"] = Err OutOfBounds).
Proof.
  apply (maxNameLength_is_longest 3 ["x"; "profit"; "y 1"]).
  - unfold CInt.INT_MAX. lia.
  - repeat constructor; cbn; unfold CInt.INT_MAX; lia.
Defined.

Lemma foldl_spaces (names : list string) (acc : bool) :
  int_lengths names ->
  (foldl (fun acc name => if find_space name >=? 0 then true else acc) acc names
   = true <-> acc = true \/ Exists has_space names).
Proof.
  revert acc. induction names as [|name names IH]; intros acc Hall; cbn.
  - rewrite Exists_nil. tauto.
  - apply Forall_cons in Hall as [Hname Hall].
    rewrite IH by done. rewrite Exists_cons.
    pose proof (find_space_spec name Hname) as Hs.
    destruct (Z.geb_spec (find_space name) 0) as [Hge|Hlt].
    + split; [|tauto]. intros _. right. left. apply Hs. lia.
    + assert (~ has_space name) by (intros Hh; apply Hs in Hh; lia). tauto.
Qed.

Lemma namesWithSpaces_spec (num_name : Z) (names : list string) (report : bool) :
  num_name <= Z.of_nat (length names) -> num_name <= CInt.INT_MAX ->
  int_lengths (first_names num_name names) ->
  exists b, namesWithSpaces num_name names report = Ok b /\
    (b = true <-> Exists has_space (first_names num_name names)).
Proof.
  intros Hlen Hmax Hall. unfold namesWithSpaces.
  rewrite (for_range_names
             (fun name acc => if find_space name >=? 0 then true else acc))
    by done.
  eexists. split; [reflexivity|].
  rewrite foldl_spaces by done. split; [intros [|]; done|tauto].
Qed.

(** X22. [namesWithSpaces] answers [true] exactly when one of the
    first [num_name] names holds a space character, whatever [report]
    is. *)
Theorem namesWithSpaces_decides (num_name : Z) (names : list string)
    (report : bool) :
  num_name <= Z.of_nat (length names) -> num_name <= CInt.INT_MAX ->
  int_lengths names ->
  exists b,
    namesWithSpaces num_name names report = Ok b /\
    namesWithSpaces num_name names (negb report) = Ok b /\
    (b = true <-> exists name, name ∈ first_names num_name names /\ has_space name).
Proof.
  intros Hlen Hmax Hall.
  destruct (namesWithSpaces_spec num_name names report Hlen Hmax)
    as (b & Hrun & Hb); [now apply Forall_take|].
  exists b. split; [done|]. split; [exact Hrun|].
  rewrite Hb, Exists_exists. reflexivity.
Qed.

Lemma namesWithSpaces_decides_witness :
  exists b,
    namesWithSpaces 2 ["x"; "y 1"; "z z"] true = Ok b /\
    namesWithSpaces 2 ["x"; "y 1"; "z z"] (negb true) = Ok b /\
    (b = true <->
     exists name, name ∈ first_names 2 ["x"; "y 1"; "z z"] /\ has_space name).
Proof.
  apply (namesWithSpaces_decides 2 ["x"; "y 1"; "z z"] true).
  - cbn. lia.
  - unfold CInt.INT_MAX. lia.
  - repeat constructor; cbn; unfold CInt.INT_MAX; lia.
Defined.

(** *** [normaliseNames] *)

Lemma name_length_zero (name : string) :
  Z.of_nat (String.length name) <= CInt.INT_MAX ->
  (name_length name = 0 <-> name = "").
Proof.
  intros H. rewrite (name_length_small name H).
  destruct name; cbn; split; intros; (done || lia).
Qed.

(** The count of the empty names. *)
Lemma count_empty (names : list string) (a : Z) :
  0 <= a -> a + Z.of_nat (length names) <= CInt.INT_MAX -> int_lengths names ->
  let r := foldl (fun n name => if name_length name =? 0 then CInt.wrap (n + 1) else n)
             a names in
  a <= r /\ (r = a <-> Forall (fun name => name <> "") names).
Proof.
  revert a. induction names as [|name names IH]; intros a Ha Hmax Hall; cbn zeta.
  - cbn. split; [lia|]. split; [constructor|done].
  - apply Forall_cons in Hall as [Hname Hall]. cbn [foldl].
    pose proof (name_length_zero name Hname) as Hz.
    cbn [length] in Hmax.
    destruct (Z.eqb_spec (name_length name) 0) as [He|Hne].
    + rewrite CInt.wrap_id
        by (unfold CInt.in_range, CInt.INT_MIN, CInt.INT_MAX in *; lia).
      destruct (IH (a + 1)) as [Hle _]; [lia|lia|done|]. cbn zeta in Hle.
      split; [lia|]. split; [lia|].
      intros Hf. apply Forall_cons in Hf as [Hf _]. tauto.
    + destruct (IH a) as [Hle Hiff]; [lia|lia|done|]. cbn zeta in Hle, Hiff.
      split; [done|]. rewrite Hiff, Forall_cons. tauto.
Qed.

Lemma append_inj (p a b : string) : p +:+ a = p +:+ b -> a = b.
Proof. induction p as [|c p IH]; cbn; [done|]. intros [= H]. now apply IH. Qed.

Lemma to_string_inj (a b : Z) : to_string a = to_string b -> a = b.
Proof.
  unfold to_string. intros H. apply DecimalZ.to_int_inj.
  assert (forall z, Z.to_int z <> Decimal.Pos Decimal.Nil /\
                    Z.to_int z <> Decimal.Neg Decimal.Nil) as Hnn.
  { intros [|p|p]; cbn; split; try discriminate; intros [= Hp];
      now apply DecimalPos.Unsigned.to_uint_nonnil in Hp. }
  destruct (Hnn a) as [Ha1 Ha2]. destruct (Hnn b) as [Hb1 Hb2].
  pose proof (DecimalString.NilZero.isi _ Ha1 Ha2) as Hia.
  pose proof (DecimalString.NilZero.isi _ Hb1 Hb2) as Hib.
  rewrite H in Hia. congruence.
Qed.

Lemma to_string_nonempty (p : string) (z : Z) : p +:+ to_string z <> "".
Proof.
  destruct p as [|c p]; [|discriminate]. cbn. unfold to_string.
  destruct z as [|q|q]; cbn; try discriminate.
  pose proof (DecimalPos.Unsigned.to_uint_nonnil q) as Hq.
  unfold DecimalString.NilZero.string_of_uint.
  destruct (Pos.to_uint q); (done || discriminate).
Qed.

(** The loop that gives the first names their constructed values. *)
Lemma construct_loop (name_prefix : string) (num_name : Z) (names : list string) :
  0 <= num_name <= Z.of_nat (length names) -> num_name <= CInt.INT_MAX ->
  exists names',
    for_range 0 num_name
      (fun ix names => vset names ix (name_prefix +:+ to_string ix)) names
    = Ok names' /\
    length names' = length names /\
    (forall i : nat, Z.of_nat i < num_name ->
       names' !! i = Some (name_prefix +:+ to_string (Z.of_nat i))) /\
    (forall i : nat, num_name <= Z.of_nat i -> names' !! i = names !! i).
Proof.
  intros Hnum Hmax.
  set (P := fun (ix : Z) (t : list string) =>
              length t = length names /\
              (forall i : nat, Z.of_nat i < ix ->
                 t !! i = Some (name_prefix +:+ to_string (Z.of_nat i))) /\
              (forall i : nat, ix <= Z.of_nat i -> t !! i = names !! i)).
  destruct (FindFeasibility.for_range_inv_at P
              (fun ix names => vset names ix (name_prefix +:+ to_string ix))
              num_name names) as (names' & Hrun & HP); [lia| | |].
  - split; [done|]. split; [intros i Hi; lia|done].
  - intros ix t Hix (Hl & Hlow & Hhigh).
    rewrite vset_ok by lia. eexists. split; [reflexivity|].
    split; [now rewrite length_insert|]. split.
    + intros i Hi. destruct (decide (i = Z.to_nat ix)) as [->|Hne].
      * rewrite list_lookup_insert_eq by lia. do 3 f_equal. lia.
      * rewrite list_lookup_insert_ne by lia. apply Hlow. lia.
    + intros i Hi. rewrite list_lookup_insert_ne by lia. apply Hhigh. lia.
  - exists names'. split; [done|]. exact HP.
Qed.

Lemma first_names_constructed (name_prefix : string) (num_name : Z)
    (names' : list string) :
  0 <= num_name <= Z.of_nat (length names') ->
  (forall i : nat, Z.of_nat i < num_name ->
     names' !! i = Some (name_prefix +:+ to_string (Z.of_nat i))) ->
  first_names num_name names'
  = (fun ix => name_prefix +:+ to_string ix) <$> seqZ 0 num_name.
Proof.
  intros Hnum Hlow. unfold first_names. apply list_eq. intros i.
  rewrite list_lookup_fmap.
  destruct (decide (Z.of_nat i < num_name)) as [Hi|Hi].
  - rewrite lookup_take_lt by lia. rewrite Hlow by done.
    rewrite lookup_seqZ_lt by lia. cbn. do 3 f_equal.
  - rewrite lookup_take_ge by lia. rewrite lookup_seqZ_ge by lia. done.
Qed.

(** X23. When one of the first [num_name] names is empty, or one is
    longer than the [max_name_length] asked for, [normaliseNames] gives
    every one of them a constructed name, the first character of
    [name_type] followed by the index in decimal: the names it leaves
    are not empty and differ from one another, the names after them are
    as they were, and it returns 0. *)
Theorem normaliseNames_constructs (name_type : string) (num_name : Z)
    (names : list string) (max_name_length : Z) :
  0 <= num_name <= Z.of_nat (length names) -> num_name <= CInt.INT_MAX ->
  int_lengths names ->
  (exists name, name ∈ first_names num_name names /\
     (name = "" \/ max_name_length < Z.of_nat (String.length name))) ->
  exists names' max_name_length',
    normaliseNames name_type num_name names max_name_length
    = Ok (0, names', max_name_length') /\
    first_names num_name names'
    = (fun ix => String.substring 0 1 name_type +:+ to_string ix) <$> seqZ 0 num_name /\
    drop (Z.to_nat num_name) names' = drop (Z.to_nat num_name) names /\
    Forall (fun name => name <> "") (first_names num_name names') /\
    NoDup (first_names num_name names') /\
    maxNameLength num_name names' = Ok max_name_length'.
Proof.
  intros Hnum Hmax Hall (bad & Hin & Hbad).
  assert (int_lengths (first_names num_name names)) as Hfirst
    by now apply Forall_take.
  unfold normaliseNames.
  rewrite (for_range_names
             (fun name n => if name_length name =? 0 then CInt.wrap (n + 1) else n))
    by lia.
  cbn [mbind result_bind].
  destruct (count_empty (first_names num_name names) 0) as [Hc0 Hciff];
    [lia|unfold first_names; rewrite length_take; lia|done|].
  cbn zeta in Hc0, Hciff.
  set (c := foldl _ 0 (first_names num_name names)) in *.
  set (name_prefix := String.substring 0 1 name_type).
  assert (exists m,
            (if c =? 0 then maxNameLength num_name names else mret max_name_length)
            = Ok m /\
            negb (c =? 0) || (m >? max_name_length) = true) as (m & -> & Hcons).
  { destruct (Z.eqb_spec c 0) as [Hz|Hnz].
    - rewrite maxNameLength_longest by (done || lia). eexists. split; [done|].
      cbn [negb orb]. apply Z.gtb_lt.
      destruct Hbad as [->|Hlong].
      + apply Hciff in Hz. rewrite Forall_forall in Hz. now apply Hz in Hin.
      + pose proof (longest_bounds _ _ Hin). lia.
    - eexists. split; [done|]. done. }
  cbn [mbind result_bind]. rewrite Hcons.
  destruct (construct_loop name_prefix num_name names Hnum Hmax)
    as (names' & -> & Hlen & Hlow & Hhigh).
  cbn [mbind result_bind mret result_ret].
  unfold maxNameLength at 1.
  rewrite (for_range_names (fun name acc => std_max (name_length name) acc))
    by lia.
  cbn [mbind result_bind]. rewrite andb_false_r.
  assert (first_names num_name names'
          = (fun ix => name_prefix +:+ to_string ix) <$> seqZ 0 num_name) as Hfn.
  { apply first_names_constructed; [lia|done]. }
  eexists _, _. split; [reflexivity|]. split; [done|].
  split; [|split; [|split]].
  - apply list_eq. intros i. rewrite !lookup_drop. apply Hhigh. lia.
  - rewrite Hfn. apply Forall_fmap, Forall_forall. intros ix _.
    apply to_string_nonempty.
  - rewrite Hfn. apply NoDup_fmap_2; [|apply NoDup_seqZ].
    intros x y Hxy. now apply append_inj, to_string_inj in Hxy.
  - unfold maxNameLength.
    now rewrite (for_range_names (fun name acc => std_max (name_length name) acc))
      by lia.
Qed.

Lemma normaliseNames_constructs_witness :
  exists names' max_name_length',
    normaliseNames "Row" 3 ["cost"; ""; "c 2"; "d"] 8
    = Ok (0, names', max_name_length') /\
    first_names 3 names'
    = (fun ix => String.substring 0 1 "Row" +:+ to_string ix) <$> seqZ 0 3 /\
    drop (Z.to_nat 3) names' = drop (Z.to_nat 3) ["cost"; ""; "c 2"; "d"] /\
    Forall (fun name => name <> "") (first_names 3 names') /\
    NoDup (first_names 3 names') /\
    maxNameLength 3 names' = Ok max_name_length'.
Proof.
  apply (normaliseNames_constructs "Row" 3 ["cost"; ""; "c 2"; "d"] 8).
  - cbn. lia.
  - unfold CInt.INT_MAX. lia.
  - repeat constructor; cbn; unfold CInt.INT_MAX; lia.
  - exists "". split; [|now left]. cbn. right. left.
Defined.

Example normaliseNames_run :
  normaliseNames "Row" 3 ["cost"; ""; "c 2"; "d"] 8
  = Ok (0, ["R0"; "R1"; "R2"; "d"], 2) /\
  normaliseNames "Col" 2 ["a b"; "surplus_1"] 10
  = Ok (1, ["a b"; "surplus_1"], 9) /\
  normaliseNames "Col" 2 ["a b"; "surplus"] 10
  = Ok (0, ["a b"; "surplus"], 7).
Proof. repeat split; vm_compute; reflexivity. Qed.

Lemma longest_le (names : list string) (m : Z) :
  0 <= m ->
  (forall name, name ∈ names -> Z.of_nat (String.length name) <= m) ->
  longest names <= m.
Proof.
  intros Hm. unfold longest. induction names as [|x names IH]; intros Hall; cbn.
  - done.
  - pose proof (Hall x ltac:(left)).
    assert (foldr Z.max 0 ((fun name => Z.of_nat (String.length name)) <$> names) <= m).
    { apply IH. intros name Hin. apply Hall. now right. }
    lia.
Qed.

(** X24. When none of the first [num_name] names is empty and none
    is longer than the [max_name_length] asked for, [normaliseNames]
    leaves the names as they are and sets [max_name_length] to the
    largest of their lengths. It returns 1 exactly when that length is
    above 8 and one of the names holds a space, and 0 otherwise. *)
Theorem normaliseNames_keeps (name_type : string) (num_name : Z)
    (names : list string) (max_name_length : Z) :
  num_name <= Z.of_nat (length names) -> num_name <= CInt.INT_MAX ->
  int_lengths names -> 0 <= max_name_length ->
  (forall name, name ∈ first_names num_name names ->
     name <> "" /\ Z.of_nat (String.length name) <= max_name_length) ->
  exists rc,
    normaliseNames name_type num_name names max_name_length
    = Ok (rc, names, longest (first_names num_name names)) /\
    (rc = 0 \/ rc = 1) /\
    (rc = 1 <->
     8 < longest (first_names num_name names) /\
     exists name, name ∈ first_names num_name names /\ has_space name).
Proof.
  intros Hnum Hmax Hall Hdes Hgood.
  assert (int_lengths (first_names num_name names)) as Hfirst
    by now apply Forall_take.
  unfold normaliseNames.
  rewrite (for_range_names
             (fun name n => if name_length name =? 0 then CInt.wrap (n + 1) else n))
    by lia.
  cbn [mbind result_bind].
  destruct (count_empty (first_names num_name names) 0) as [_ Hciff];
    [lia|unfold first_names, CInt.INT_MAX in *; rewrite length_take; lia|done|].
  cbn zeta in Hciff.
  destruct Hciff as [_ ->].
  2: { apply Forall_forall. intros name Hin. now apply Hgood. }
  change (0 =? 0) with true. cbn [negb orb].
  rewrite maxNameLength_longest by done. cbn [mbind result_bind].
  assert (longest (first_names num_name names) <= max_name_length) as Hle.
  { apply longest_le; [done|]. intros name Hin. now apply Hgood. }
  destruct (Z.gtb_spec (longest (first_names num_name names)) max_name_length);
    [lia|].
  destruct (namesWithSpaces_spec num_name names false Hnum Hmax Hfirst)
    as (b & -> & Hb).
  cbn [mbind result_bind mret result_ret].
  rewrite maxNameLength_longest by done. cbn [mbind result_bind].
  eexists. split; [reflexivity|].
  rewrite <- Exists_exists, <- Hb.
  destruct (Z.gtb_spec (longest (first_names num_name names)) 8), b; cbn;
    split; (tauto || lia || (split; intros; (lia || (destruct_and?; done)))).
Qed.

Lemma normaliseNames_keeps_witness :
  exists rc,
    normaliseNames "Col" 2 ["a b"; "surplus_1"] 10
    = Ok (rc, ["a b"; "surplus_1"], longest (first_names 2 ["a b"; "surplus_1"])) /\
    (rc = 0 \/ rc = 1) /\
    (rc = 1 <->
     8 < longest (first_names 2 ["a b"; "surplus_1"]) /\
     exists name, name ∈ first_names 2 ["a b"; "surplus_1"] /\ has_space name).
Proof.
  apply (normaliseNames_keeps "Col" 2 ["a b"; "surplus_1"] 10).
  - cbn. lia.
  - unfold CInt.INT_MAX. lia.
  - repeat constructor; cbn; unfold CInt.INT_MAX; lia.
  - lia.
  - intros name Hin. cbn in Hin.
    apply elem_of_cons in Hin as [->|Hin]; [split; [done|cbn; lia]|].
    apply elem_of_cons in Hin as [->|Hin]; [split; [done|cbn; lia]|].
    now apply elem_of_nil in Hin.
Defined.

(** *** [analyseModelBounds] (built with [HiGHSDEV]) *)

(** The five counts [analyseModelBounds] prints. *)
Record BoundCounts : Type := {
  numFr : Z;
  numLb : Z;
  numUb : Z;
  numBx : Z;
  numFx : Z
}.

Section ModelBounds.

(** [highs_isInfinity] is declared in util/HighsUtils.h, which is not
    among the sources. *)
Variable highs_isInfinity : float -> bool.

(** [analyseModelBounds]: [None] when it returns at once, without
    printing, and otherwise the counts of its last line. *)
Definition analyseModelBounds (numBd : Z) (lower upper : list float)
    : result (option BoundCounts) :=
  if numBd =? 0 then mret None
  else
    counts ← for_range 0 numBd
      (fun ix c =>
         lo ← vget lower ix;
         if highs_isInfinity (- lo)%float then
           up ← vget upper ix;
           if highs_isInfinity up then
             mret {| numFr := CInt.wrap (numFr c + 1); numLb := numLb c;
                     numUb := numUb c; numBx := numBx c; numFx := numFx c |}
           else
             mret {| numFr := numFr c; numLb := numLb c;
                     numUb := CInt.wrap (numUb c + 1); numBx := numBx c;
                     numFx := numFx c |}
         else
           up ← vget upper ix;
           if highs_isInfinity up then
             mret {| numFr := numFr c; numLb := CInt.wrap (numLb c + 1);
                     numUb := numUb c; numBx := numBx c; numFx := numFx c |}
           else if Double.lt lo up then
             mret {| numFr := numFr c; numLb := numLb c; numUb := numUb c;
                     numBx := CInt.wrap (numBx c + 1); numFx := numFx c |}
           else
             mret {| numFr := numFr c; numLb := numLb c; numUb := numUb c;
                     numBx := numBx c; numFx := CInt.wrap (numFx c + 1) |})
      {| numFr := 0; numLb := 0; numUb := 0; numBx := 0; numFx := 0 |};
    mret (Some counts).

(** X26. [analyseModelBounds] puts every bound pair in one class:
    the five counts it prints (free, lower bounded, upper bounded,
    boxed, fixed) are not negative and add up to [numBd], whatever
    [highs_isInfinity] holds infinite. *)
Theorem analyseModelBounds_partitions (numBd : Z) (lower upper : list float) :
  0 < numBd <= CInt.INT_MAX ->
  numBd <= Z.of_nat (length lower) -> numBd <= Z.of_nat (length upper) ->
  exists c,
    analyseModelBounds numBd lower upper = Ok (Some c) /\
    0 <= numFr c /\ 0 <= numLb c /\ 0 <= numUb c /\ 0 <= numBx c /\ 0 <= numFx c /\
    numFr c + numLb c + numUb c + numBx c + numFx c = numBd.
Proof.
  intros Hnum Hlo Hup. unfold analyseModelBounds.
  destruct (Z.eqb_spec numBd 0); [lia|].
  set (P := fun (ix : Z) (c : BoundCounts) =>
              0 <= numFr c /\ 0 <= numLb c /\ 0 <= numUb c /\ 0 <= numBx c /\
              0 <= numFx c /\
              numFr c + numLb c + numUb c + numBx c + numFx c = ix).
  match goal with
  | |- context [for_range 0 numBd ?body ?init] =>
      destruct (FindFeasibility.for_range_inv_at P body numBd init)
        as (c & -> & HP)
  end; [lia| | |].
  - unfold P. cbn. repeat split; lia.
  - intros ix c Hix (H1 & H2 & H3 & H4 & H5 & Hsum).
    destruct (vget_in_range lower ix) as (lo & -> & Hl); [lia|].
    destruct (vget_in_range upper ix) as (up & -> & Hu); [lia|].
    cbn [mbind result_bind].
    assert (forall z, 0 <= z <= ix -> CInt.wrap (z + 1) = z + 1) as Hw.
    { intros z Hz. apply CInt.wrap_id.
      unfold CInt.in_range, CInt.INT_MIN, CInt.INT_MAX in *. lia. }
    destruct (highs_isInfinity (- lo)) eqn:Hil; cbn [mbind result_bind];
      destruct (highs_isInfinity up) eqn:Hiu;
      try destruct (Double.lt lo up) eqn:Hlt;
      (eexists; split; [reflexivity|]); unfold P; cbn;
      rewrite Hw by lia; repeat split; lia.
  - cbn [mbind result_bind mret result_ret]. exists c. split; [done|]. exact HP.
Qed.

End ModelBounds.

Lemma analyseModelBounds_partitions_witness :
  exists c,
    analyseModelBounds (fun x => PrimFloat.eqb x infinity) 3
      [zero; neg_infinity; two] [one; infinity; one] = Ok (Some c) /\
    0 <= numFr c /\ 0 <= numLb c /\ 0 <= numUb c /\ 0 <= numBx c /\ 0 <= numFx c /\
    numFr c + numLb c + numUb c + numBx c + numFx c = 3.
Proof.
  apply (analyseModelBounds_partitions (fun x => PrimFloat.eqb x infinity) 3
           [zero; neg_infinity; two] [one; infinity; one]).
  - unfold CInt.INT_MAX. lia.
  - cbn. lia.
  - cbn. lia.
Defined.

Example analyseModelBounds_run :
  analyseModelBounds (fun x => PrimFloat.eqb x infinity) 3
    [zero; neg_infinity; two] [one; infinity; one]
  = Ok (Some {| numFr := 1; numLb := 0; numUb := 0; numBx := 1; numFx := 1 |}).
Proof. vm_compute. reflexivity. Qed.

End HighsModelUtils.
